(** * neuralAnimationLogical.js: layered signal-flow animation

    A shallow embedding of [createNeuralNetworkAnimation] and the properties
    of its topology builder ([setup]), activation simulator ([update]),
    connection colour mapping (the first pass of [draw]), colour
    pre-processing ([processColors]) and life cycle ([start], [stop]).

    Numbers.  JavaScript numbers are modelled by exact rationals [Q]:
    [Math.max]/[Math.min] are [Qmax]/[Qmin], [Math.floor] is [Qfloor],
    [Math.round x] is [Qfloor (x + 1/2)].  There is no rounding, no
    [Infinity] and no [NaN].  The code computes in doubles: a statement
    about a number is meant of the expression as the code evaluates it, and
    a bound is one that rounding keeps.  The one division of the simulator,
    by [activationThreshold], gives [NaN] or an infinity in the code when
    the threshold is zero, and zero in [Q]: statements that reach it assume
    a threshold that is not zero.  Values are taken to stay within the range
    of doubles.  The module [Double] has the code's own arithmetic for the
    expressions where the difference shows.  Counts ([layers],
    [maxConnectionsPerNode], loop indices, node ids) are naturals.

    Objects.  The [nodes] array is the store of node objects: a node object
    is identified by its position in [nodes].  [nodeMap] maps a node id to
    such a position, so that a write through [nodeMap.get(id)] is a write to
    the object held by [nodes].

    Host.  [Math.random], [Date.now], [Math.sin] and the engine's
    [Array.prototype.sort] are parameters ([Host.t]); the state counts the
    calls made to [Math.random] and [Date.now], so that every call reads the
    next result.  The window (its size, its frame requests and its resize
    listeners) and the canvas are part of the state ([Page.t]). *)

From Stdlib Require Import QArith Qminmax Qround Lqa Permutation Floats.
From stdpp Require Import gmap list strings.

(** ** Numbers *)

(** [a < b] on numbers, as a test. *)
Definition Qlt_bool (a b : Q) : bool := negb (Qle_bool b a).

(** [Math.round]: the nearest integer, halves going up. *)
Definition Math_round (q : Q) : Z := Qfloor (q + (1 # 2)).

(** ** Data model *)

Module Conn.
Record t := mk { targetId : nat }.
End Conn.

Module Node.
Record t := mk {
  id : nat;
  x : Q;
  y : Q;
  baseRadius : Q;
  currentRadius : Q;
  layerIndex : nat;
  activationLevel : Q;
  incomingSignal : Q;
  connections : list Conn.t
}.

Definition set_incomingSignal (v : Q) (n : t) : t :=
  mk (id n) (x n) (y n) (baseRadius n) (currentRadius n) (layerIndex n)
     (activationLevel n) v (connections n).

Definition set_activation (a r : Q) (n : t) : t :=
  mk (id n) (x n) (y n) (baseRadius n) r (layerIndex n)
     a (incomingSignal n) (connections n).

Definition push_connection (c : Conn.t) (n : t) : t :=
  mk (id n) (x n) (y n) (baseRadius n) (currentRadius n) (layerIndex n)
     (activationLevel n) (incomingSignal n) (connections n ++ [c]).

Definition add_connections (cs : list Conn.t) (n : t) : t :=
  mk (id n) (x n) (y n) (baseRadius n) (currentRadius n) (layerIndex n)
     (activationLevel n) (incomingSignal n) (connections n ++ cs).
End Node.

Module Config.
Record t := mk {
  layers : list nat;
  hSpacingMultiplier : Q;
  vSpacingMultiplier : Q;
  positionJitter : Q;
  baseNodeRadius : Q;
  nodeRadiusVariance : Q;
  nodeColor : string;
  activeNodeColor : string;
  nodePulseMagnitude : Q;
  nodePulseSpeed : Q;
  connectionColor : string;
  activeConnectionColors : list string;
  connectionWidth : Q;
  activeConnectionWidth : Q;
  connectionGlowBlur : Q;
  connectionGlowColor : string;
  inputActivationProbability : Q;
  signalPropagationSpeed : Q;
  activationThreshold : Q;
  activationBoost : Q;
  decayRate : Q;
  minActivationLevel : Q;
  maxConnectionsPerNode : nat;
  useCurves : bool
}.
End Config.

(** The defaults written in [createNeuralNetworkAnimation]. *)
Definition defaultConfig : Config.t :=
  Config.mk [5; 9; 11; 9; 6] (85 # 100) (85 # 100) 10
    3 (1 # 2) "rgba(80, 130, 200, 0.3)" "rgba(220, 245, 255, 1)" 1 (5 # 100)
    "rgba(80, 130, 200, 0.1)"
    ["rgba(100, 180, 255, 0.7)"; "rgba(160, 220, 255, 0.85)";
     "rgba(220, 250, 255, 0.95)"; "rgba(255, 255, 255, 0.9)"]
    (1 # 2) (3 # 2) 4 "rgba(150, 220, 255, 0.2)"
    (2 # 100) 1 (6 # 10) (3 # 2) (4 # 100) (1 # 100)
    5 false.

Definition Qnat (n : nat) : Q := inject_Z (Z.of_nat n).

Module Color.
Record t := mk { r : Z; g : Z; b : Z; a : Q }.
End Color.

(** The host functions the program calls.  [Math_random k] and [Date_now k]
    are the results of the calls number [k]; [Array_sort] is
    [Array.prototype.sort] on an array of node ids, for a comparator that may
    read and advance a state of its own. *)
Module Host.
Record t := mk {
  Math_random : nat -> Q;
  Date_now : nat -> Q;
  Math_sin : Q -> Q;
  Array_sort : forall S : Type, (nat -> nat -> S -> Q * S) -> list nat -> S -> list nat * S
}.
End Host.

(** What the canvas context is asked to draw. *)
Inductive DrawCmd :=
| ClearRect (w h : Q)
| Stroke (lineWidth : Q) (strokeStyle : Color.t) (shadowBlur : Q) (shadowColor : string)
         (from : Q * Q) (control : option (Q * Q)) (to : Q * Q)
| Fill (fillStyle : Color.t) (centre : Q * Q) (radius : Q).

(** The variables of the closure of [createNeuralNetworkAnimation].
    [animationFrameId] is [null] or a handle; the parsed colours are
    [undefined] until [processColors] has run. *)
Module Engine.
Record t := mk {
  config : Config.t;
  nodes : list Node.t;
  animationFrameId : option nat;
  nodeMap : gmap nat nat;
  nextNodeId : nat;
  parsedNodeColor : option Color.t;
  parsedActiveNodeColor : option Color.t;
  parsedConnectionColor : option Color.t;
  parsedActiveConnectionColors : list Color.t
}.

Definition set_config (c : Config.t) (e : t) : t :=
  mk c (nodes e) (animationFrameId e) (nodeMap e) (nextNodeId e)
     (parsedNodeColor e) (parsedActiveNodeColor e) (parsedConnectionColor e)
     (parsedActiveConnectionColors e).

Definition set_nodes (ns : list Node.t) (e : t) : t :=
  mk (config e) ns (animationFrameId e) (nodeMap e) (nextNodeId e)
     (parsedNodeColor e) (parsedActiveNodeColor e) (parsedConnectionColor e)
     (parsedActiveConnectionColors e).

Definition set_animationFrameId (h : option nat) (e : t) : t :=
  mk (config e) (nodes e) h (nodeMap e) (nextNodeId e)
     (parsedNodeColor e) (parsedActiveNodeColor e) (parsedConnectionColor e)
     (parsedActiveConnectionColors e).
End Engine.

(** The canvas and the window. *)
Module Page.
Record t := mk {
  canvasWidth : Q;
  canvasHeight : Q;
  canvasOps : list DrawCmd;
  innerWidth : Q;
  innerHeight : Q;
  lastFrameHandle : nat;
  pendingFrames : gset nat;
  resizeListener : bool;
  randomCalls : nat;
  clockCalls : nat
}.

Definition set_canvasSize (w h : Q) (p : t) : t :=
  mk w h (canvasOps p) (innerWidth p) (innerHeight p) (lastFrameHandle p)
     (pendingFrames p) (resizeListener p) (randomCalls p) (clockCalls p).

Definition set_canvasOps (ops : list DrawCmd) (p : t) : t :=
  mk (canvasWidth p) (canvasHeight p) ops (innerWidth p) (innerHeight p)
     (lastFrameHandle p) (pendingFrames p) (resizeListener p) (randomCalls p)
     (clockCalls p).

Definition set_innerSize (w h : Q) (p : t) : t :=
  mk (canvasWidth p) (canvasHeight p) (canvasOps p) w h (lastFrameHandle p)
     (pendingFrames p) (resizeListener p) (randomCalls p) (clockCalls p).

Definition set_frames (last : nat) (pending : gset nat) (p : t) : t :=
  mk (canvasWidth p) (canvasHeight p) (canvasOps p) (innerWidth p) (innerHeight p)
     last pending (resizeListener p) (randomCalls p) (clockCalls p).

Definition set_resizeListener (l : bool) (p : t) : t :=
  mk (canvasWidth p) (canvasHeight p) (canvasOps p) (innerWidth p) (innerHeight p)
     (lastFrameHandle p) (pendingFrames p) l (randomCalls p) (clockCalls p).

Definition set_calls (k c : nat) (p : t) : t :=
  mk (canvasWidth p) (canvasHeight p) (canvasOps p) (innerWidth p) (innerHeight p)
     (lastFrameHandle p) (pendingFrames p) (resizeListener p) k c.
End Page.

Definition State : Type := Engine.t * Page.t.

(** The state of the loops of [setup]: [nodes], [nodeMap], [nextNodeId] and
    the number of [Math.random()] calls made. *)
Module Build.
Record t := mk {
  nodes : list Node.t;
  nodeMap : gmap nat nat;
  nextNodeId : nat;
  randomCalls : nat
}.
End Build.

(** An options object: the recognised keys, each present or absent. *)
Module Options.
Record t := mk {
  layers : option (list nat);
  hSpacingMultiplier : option (Q);
  vSpacingMultiplier : option (Q);
  positionJitter : option (Q);
  baseNodeRadius : option (Q);
  nodeRadiusVariance : option (Q);
  nodeColor : option (string);
  activeNodeColor : option (string);
  nodePulseMagnitude : option (Q);
  nodePulseSpeed : option (Q);
  connectionColor : option (string);
  activeConnectionColors : option (list string);
  connectionWidth : option (Q);
  activeConnectionWidth : option (Q);
  connectionGlowBlur : option (Q);
  connectionGlowColor : option (string);
  inputActivationProbability : option (Q);
  signalPropagationSpeed : option (Q);
  activationThreshold : option (Q);
  activationBoost : option (Q);
  decayRate : option (Q);
  minActivationLevel : option (Q);
  maxConnectionsPerNode : option (nat);
  useCurves : option (bool)
}.

Definition empty : t :=
  mk None None None None None None None None None None None None None None None None None None None None None None None None.
End Options.

(** [Object.assign(config, newOptions)], also the spread [...options]. *)
Definition assign (config : Config.t) (o : Options.t) : Config.t :=
  Config.mk
    (default (Config.layers config) (Options.layers o))
    (default (Config.hSpacingMultiplier config) (Options.hSpacingMultiplier o))
    (default (Config.vSpacingMultiplier config) (Options.vSpacingMultiplier o))
    (default (Config.positionJitter config) (Options.positionJitter o))
    (default (Config.baseNodeRadius config) (Options.baseNodeRadius o))
    (default (Config.nodeRadiusVariance config) (Options.nodeRadiusVariance o))
    (default (Config.nodeColor config) (Options.nodeColor o))
    (default (Config.activeNodeColor config) (Options.activeNodeColor o))
    (default (Config.nodePulseMagnitude config) (Options.nodePulseMagnitude o))
    (default (Config.nodePulseSpeed config) (Options.nodePulseSpeed o))
    (default (Config.connectionColor config) (Options.connectionColor o))
    (default (Config.activeConnectionColors config) (Options.activeConnectionColors o))
    (default (Config.connectionWidth config) (Options.connectionWidth o))
    (default (Config.activeConnectionWidth config) (Options.activeConnectionWidth o))
    (default (Config.connectionGlowBlur config) (Options.connectionGlowBlur o))
    (default (Config.connectionGlowColor config) (Options.connectionGlowColor o))
    (default (Config.inputActivationProbability config) (Options.inputActivationProbability o))
    (default (Config.signalPropagationSpeed config) (Options.signalPropagationSpeed o))
    (default (Config.activationThreshold config) (Options.activationThreshold o))
    (default (Config.activationBoost config) (Options.activationBoost o))
    (default (Config.decayRate config) (Options.decayRate o))
    (default (Config.minActivationLevel config) (Options.minActivationLevel o))
    (default (Config.maxConnectionsPerNode config) (Options.maxConnectionsPerNode o))
    (default (Config.useCurves config) (Options.useCurves o)).

(** What the first pass of [draw] computes for the connections of one
    source node: [currentConnColorObj], [currentWidth], [currentGlow]. *)
Module Style.
Record t := mk { color : Color.t; width : Q; glow : Q }.
End Style.

(** ** The program *)

Section Program.
Local Open Scope Q_scope.

Variable host : Host.t.

(** [parseColor] returns a colour object on every path (the match of its
    regular expression, or the grey of its last line); the properties below
    hold for whatever colour it returns. *)
Variable parseColor : string -> Color.t.

(** *** Helper functions *)

(** [lerp], in exact arithmetic: the code rounds the difference, the
    product and the sum, so that at the amount 1 its result need not be
    [end_] ([Double.lerp]). *)
Definition lerp (start end_ amount : Q) : Q :=
  start + (end_ - start) * Qmax 0 (Qmin 1 amount).

(** One of [r], [g], [b] in [lerpColor]. *)
Definition lerpChannel (a b : Z) (t : Q) : Z :=
  Z.max 0 (Z.min 255 (Math_round (lerp (inject_Z a) (inject_Z b) t))).

Definition lerpColor (colorAObj colorBObj : Color.t) (amount : Q) : Color.t :=
  let t := Qmax 0 (Qmin 1 amount) in
  Color.mk (lerpChannel (Color.r colorAObj) (Color.r colorBObj) t)
           (lerpChannel (Color.g colorAObj) (Color.g colorBObj) t)
           (lerpChannel (Color.b colorAObj) (Color.b colorBObj) t)
           (lerp (Color.a colorAObj) (Color.a colorBObj) t).

(** The string built by [rgbaToString] is kept as the colour it spells:
    the channels, and the alpha clamped to [0,1] and cut to three decimals
    by [toFixed(3)]. *)
Definition rgbaToString (colorObj : Color.t) : Color.t :=
  let alpha := Qmax 0 (Qmin 1 (Color.a colorObj)) in
  Color.mk (Color.r colorObj) (Color.g colorObj) (Color.b colorObj)
           (inject_Z (Math_round (alpha * 1000)) / 1000).

(** *** [processColors] *)

Definition fallbackColorString : string := "rgba(255,255,255,0.9)".

Definition processColors (e : Engine.t) : Engine.t :=
  let config := Engine.config e in
  let parsedActiveConnectionColors := map parseColor (Config.activeConnectionColors config) in
  let parsedActiveConnectionColors :=
    if Nat.eqb (length parsedActiveConnectionColors) 0
    then parsedActiveConnectionColors ++ [parseColor fallbackColorString]
    else parsedActiveConnectionColors in
  Engine.mk config (Engine.nodes e) (Engine.animationFrameId e) (Engine.nodeMap e)
    (Engine.nextNodeId e)
    (Some (parseColor (Config.nodeColor config)))
    (Some (parseColor (Config.activeNodeColor config)))
    (Some (parseColor (Config.connectionColor config)))
    parsedActiveConnectionColors.

(** *** [setup] *)

Section Layer.
Variable config : Config.t.
Variables (layerX startY totalHeight nodeSpacing : Q) (nodeCount layerIndex : nat).

(** The body of [for (let i = 0; i < nodeCount; i++)]. *)
Definition createNode (st : Build.t * list nat) (i : nat) : Build.t * list nat :=
  let '(b, currentLayerNodeIds) := st in
  let id := Build.nextNodeId b in
  let k := Build.randomCalls b in
  let baseY :=
    if Nat.eqb nodeCount 1 then startY + totalHeight / 2
    else startY + Qnat i * nodeSpacing in
  let nodeRadius :=
    Config.baseNodeRadius config
    + (Host.Math_random host k - (1 # 2)) * 2 * Config.nodeRadiusVariance config in
  let node :=
    Node.mk id
      (layerX + (Host.Math_random host (k + 1) - (1 # 2)) * Config.positionJitter config)
      (baseY + (Host.Math_random host (k + 2) - (1 # 2)) * Config.positionJitter config)
      (Qmax 1 nodeRadius) (Qmax 1 nodeRadius) layerIndex 0 0 [] in
  (Build.mk (Build.nodes b ++ [node])
            (<[id := length (Build.nodes b)]> (Build.nodeMap b))
            (S id) (k + 3)%nat,
   currentLayerNodeIds ++ [id]).

(** [for (let k = 0; k < connectionsToMake; k++)
       sourceNode.connections.push({ targetId: shuffledTargets[k] })]. *)
Definition pushTargets (shuffledTargets : list nat) (connectionsToMake : nat)
    (sourceNode : Node.t) : Node.t :=
  foldl (fun n k =>
           match shuffledTargets !! k with
           | Some target => Node.push_connection (Conn.mk target) n
           | None => n
           end)
        sourceNode (seq 0 connectionsToMake).

(** The comparator [() => 0.5 - Math.random()]. *)
Definition randomOrder (_ _ : nat) (k : nat) : Q * nat :=
  ((1 # 2) - Host.Math_random host k, S k).

(** The body of [previousLayerNodeIds.forEach].  [None] is the [TypeError]
    of [sourceNode.connections] when [nodeMap.get(sourceId)] is
    [undefined]. *)
Definition connectFrom (currentLayerNodeIds : list nat) (b : Build.t) (sourceId : nat)
  : option Build.t :=
  let sourceNode := Build.nodeMap b !! sourceId in
  let '(shuffledTargets, k) :=
    Host.Array_sort host nat randomOrder currentLayerNodeIds (Build.randomCalls b) in
  let connectionsToMake :=
    Nat.min (Config.maxConnectionsPerNode config) (length shuffledTargets) in
  match sourceNode with
  | Some j =>
      Some (Build.mk (alter (pushTargets shuffledTargets connectionsToMake) j (Build.nodes b))
                     (Build.nodeMap b) (Build.nextNodeId b) k)
  | None =>
      if Nat.eqb connectionsToMake 0
      then Some (Build.mk (Build.nodes b) (Build.nodeMap b) (Build.nextNodeId b) k)
      else None
  end.

Fixpoint connectAll (currentLayerNodeIds : list nat) (b : Build.t) (sourceIds : list nat)
  : option Build.t :=
  match sourceIds with
  | [] => Some b
  | sourceId :: rest =>
      b' ← connectFrom currentLayerNodeIds b sourceId;
      connectAll currentLayerNodeIds b' rest
  end.

End Layer.

(** The body of [config.layers.forEach((nodeCount, layerIndex) => ...)];
    the result carries the new [previousLayerNodeIds]. *)
Definition buildLayer (config : Config.t) (canvasHeight startX layerSpacing : Q)
    (st : Build.t * list nat) (layerIndex nodeCount : nat) : option (Build.t * list nat) :=
  let '(b, previousLayerNodeIds) := st in
  let layerX := startX + Qnat layerIndex * layerSpacing in
  let totalHeight := canvasHeight * Config.vSpacingMultiplier config in
  let startY := (canvasHeight - totalHeight) / 2 in
  let nodeSpacing :=
    if Nat.ltb 1 nodeCount then totalHeight / (Qnat nodeCount - 1) else totalHeight / 2 in
  let '(b1, currentLayerNodeIds) :=
    foldl (createNode config layerX startY totalHeight nodeSpacing nodeCount layerIndex)
          (b, []) (seq 0 nodeCount) in
  b2 ← (if Nat.ltb 0 layerIndex
        then connectAll config currentLayerNodeIds b1 previousLayerNodeIds
        else Some b1);
  Some (b2, currentLayerNodeIds).

Fixpoint forEachLayer (config : Config.t) (canvasHeight startX layerSpacing : Q)
    (st : Build.t * list nat) (layerIndex : nat) (layers : list nat)
  : option (Build.t * list nat) :=
  match layers with
  | [] => Some st
  | nodeCount :: rest =>
      st' ← buildLayer config canvasHeight startX layerSpacing st layerIndex nodeCount;
      forEachLayer config canvasHeight startX layerSpacing st' (S layerIndex) rest
  end.

Definition setup (st : State) : option State :=
  let '(e, p) := st in
  let p := Page.set_canvasSize (Page.innerWidth p) (Page.innerHeight p) p in
  let e := processColors e in
  let config := Engine.config e in
  let layerCount := length (Config.layers config) in
  let totalWidth := Page.canvasWidth p * Config.hSpacingMultiplier config in
  let startX := (Page.canvasWidth p - totalWidth) / 2 in
  let layerSpacing :=
    if Nat.ltb 1 layerCount then totalWidth / (Qnat layerCount - 1) else 0 in
  '(b, _) ← forEachLayer config (Page.canvasHeight p) startX layerSpacing
               (Build.mk [] ∅ 0%nat (Page.randomCalls p), []) 0%nat (Config.layers config);
  Some (Engine.mk config (Build.nodes b) (Engine.animationFrameId e) (Build.nodeMap b)
          (Build.nextNodeId b) (Engine.parsedNodeColor e) (Engine.parsedActiveNodeColor e)
          (Engine.parsedConnectionColor e) (Engine.parsedActiveConnectionColors e),
        Page.set_calls (Build.randomCalls b) (Page.clockCalls p) p).

(** *** [update] *)

Section Update.
Variable config : Config.t.
Variable nodeMap : gmap nat nat.

(** Step 1: [node.incomingSignal = 0]. *)
Definition resetSignal (node : Node.t) : Node.t := Node.set_incomingSignal 0 node.

(** [targetNode.incomingSignal += signalStrength]. *)
Definition addSignal (signalStrength : Q) (targetNode : Node.t) : Node.t :=
  Node.set_incomingSignal (Node.incomingSignal targetNode + signalStrength) targetNode.

(** The body of [sourceNode.connections.forEach]: the target object is
    looked up in [nodeMap] and written in place. *)
Definition deliver (signalStrength : Q) (ns : list Node.t) (conn : Conn.t) : list Node.t :=
  match nodeMap !! Conn.targetId conn with
  | Some j => alter (addSignal signalStrength) j ns
  | None => ns
  end.

(** The body of the second [nodes.forEach], for the node at position [i];
    [ns] is the store as the earlier iterations left it. *)
Definition propagateFrom (ns : list Node.t) (i : nat) : list Node.t :=
  match ns !! i with
  | Some sourceNode =>
      if Qlt_bool (Config.minActivationLevel config) (Node.activationLevel sourceNode)
      then
        let signalStrength :=
          Node.activationLevel sourceNode * Config.signalPropagationSpeed config in
        foldl (deliver signalStrength) ns (Node.connections sourceNode)
      else ns
  | None => ns
  end.

(** Steps 1 and 2 of [update]. *)
Definition propagate (ns : list Node.t) : list Node.t :=
  let ns1 := map resetSignal ns in
  foldl propagateFrom ns1 (seq 0 (length ns1)).

(** The decay at the head of step 3.  The subtraction is exact; the code's
    rounds, and leaves a level as it is under a [decayRate] that is small
    enough. *)
Definition decay (currentActivation : Q) : Q :=
  if Qlt_bool (Config.minActivationLevel config) currentActivation
  then currentActivation - Config.decayRate config
  else currentActivation.

(** Decay, then the trigger: the value of [currentActivation] before the
    final clamp, with the number of [Math.random()] calls made.  The
    division is the code's for an [activationThreshold] that is not zero;
    at zero the code has [NaN] or an infinity ([Double.levelAfter]), which
    [Q] does not have. *)
Definition trigger (k : nat) (node : Node.t) : Q * nat :=
  let currentActivation := decay (Node.activationLevel node) in
  if Nat.eqb (Node.layerIndex node) 0 then
    if Qlt_bool (Host.Math_random host k) (Config.inputActivationProbability config)
    then (Qmax currentActivation (1 # 10) + Config.activationBoost config, S k)
    else (currentActivation, S k)
  else
    if Qle_bool (Config.activationThreshold config) (Node.incomingSignal node)
    then (Qmax currentActivation (1 # 10)
          + Config.activationBoost config
            * (Node.incomingSignal node / Config.activationThreshold config), k)
    else (currentActivation, k).

(** The body of the third [nodes.forEach]; [k] and [c] count the calls of
    [Math.random] and [Date.now]. *)
Definition updateNode (k c : nat) (node : Node.t) : Node.t * (nat * nat) :=
  let '(currentActivation, k') := trigger k node in
  let activationLevel := Qmax 0 currentActivation in
  let '(pulse, c') :=
    if Qlt_bool 0 (Config.nodePulseMagnitude config)
    then (Host.Math_sin host
            (Host.Date_now host c * (1 # 100) * Config.nodePulseSpeed config
             + Qnat (Node.layerIndex node))
          * Config.nodePulseMagnitude config * Qmin 1 activationLevel, S c)
    else (0, c) in
  (Node.set_activation activationLevel (Node.baseRadius node + pulse) node, (k', c')).

(** Step 3 over the nodes. *)
Fixpoint activate (k c : nat) (ns : list Node.t) : list Node.t * (nat * nat) :=
  match ns with
  | [] => ([], (k, c))
  | node :: rest =>
      let '(node', (k', c')) := updateNode k c node in
      let '(rest', kc) := activate k' c' rest in
      (node' :: rest', kc)
  end.

End Update.

Definition update (st : State) : State :=
  let '(e, p) := st in
  let '(ns, (k, c)) :=
    activate (Engine.config e) (Page.randomCalls p) (Page.clockCalls p)
             (propagate (Engine.config e) (Engine.nodeMap e) (Engine.nodes e)) in
  (Engine.set_nodes ns e, Page.set_calls k c p).

(** *** [draw] *)

Definition paletteAt (palette : list Color.t) (i : Z) : option Color.t :=
  if (i <? 0)%Z then None else palette !! Z.to_nat i.

(** The colour, width and glow of the connections of a source node of
    clamped activation [activation]; [None] is the [TypeError] of
    [lerpColor] on an [undefined] colour. *)
Definition connectionStyle (config : Config.t) (parsedActiveConnectionColors : list Color.t)
    (parsedConnectionColor : option Color.t) (activation : Q) : option Style.t :=
  let last := (Z.of_nat (length parsedActiveConnectionColors) - 1)%Z in
  let colorIndex := Qfloor (activation * inject_Z last) in
  let nextColorIndex := Z.min last (colorIndex + 1) in
  let lerpAmount := activation * inject_Z last - inject_Z colorIndex in
  startColor ← paletteAt parsedActiveConnectionColors colorIndex;
  endColor ← paletteAt parsedActiveConnectionColors nextColorIndex;
  let currentConnColorObj := lerpColor startColor endColor lerpAmount in
  currentConnColorObj ←
    (if Qlt_bool activation (1 # 10)
     then
       let baseColorLerpAmount := activation / (1 # 10) in
       base ← parsedConnectionColor;
       Some (lerpColor base currentConnColorObj baseColorLerpAmount)
     else Some currentConnColorObj);
  Some (Style.mk currentConnColorObj
          (lerp (Config.connectionWidth config) (Config.activeConnectionWidth config) activation)
          (lerp 0 (Config.connectionGlowBlur config) activation)).

Section Draw.
Variable e : Engine.t.

(** The body of [sourceNode.connections.forEach] in [draw]. *)
Definition drawConnection (sourceNode : Node.t) (style : Style.t) (activation : Q)
    (acc : list DrawCmd * nat) (conn : Conn.t) : list DrawCmd * nat :=
  let '(ops, k) := acc in
  match Engine.nodeMap e !! Conn.targetId conn ≫= (Engine.nodes e !!.) with
  | None => acc
  | Some targetNode =>
      let stroke control :=
        Stroke (Style.width style) (rgbaToString (Style.color style)) (Style.glow style)
               (Config.connectionGlowColor (Engine.config e))
               (Node.x sourceNode, Node.y sourceNode) control
               (Node.x targetNode, Node.y targetNode) in
      if Config.useCurves (Engine.config e) then
        let cpX := (Node.x sourceNode + Node.x targetNode) / 2
                   + (Host.Math_random host k - (1 # 2)) * 30 * activation in
        let cpY := (Node.y sourceNode + Node.y targetNode) / 2
                   + (Host.Math_random host (k + 1) - (1 # 2)) * 30 * activation in
        (ops ++ [stroke (Some (cpX, cpY))], (k + 2)%nat)
      else (ops ++ [stroke None], k)
  end.

(** The body of the first [nodes.forEach] of [draw]. *)
Definition drawConnections (acc : list DrawCmd * nat) (sourceNode : Node.t)
  : option (list DrawCmd * nat) :=
  let activation := Qmin 1 (Node.activationLevel sourceNode) in
  if Qlt_bool activation (Config.minActivationLevel (Engine.config e)) then Some acc
  else
    style ← connectionStyle (Engine.config e) (Engine.parsedActiveConnectionColors e)
              (Engine.parsedConnectionColor e) activation;
    if Qlt_bool (Style.width style) (1 # 10) || Qlt_bool (Color.a (Style.color style)) (1 # 100)
    then Some acc
    else Some (foldl (drawConnection sourceNode style activation) acc
                     (Node.connections sourceNode)).

(** The body of the second [nodes.forEach] of [draw]. *)
Definition drawNode (ops : list DrawCmd) (node : Node.t) : option (list DrawCmd) :=
  let activation := Qmin 1 (Node.activationLevel node) in
  if Qlt_bool activation (Config.minActivationLevel (Engine.config e))
     && Qeq_bool (Node.activationLevel node) 0
  then Some ops
  else
    dim ← Engine.parsedNodeColor e;
    active ← Engine.parsedActiveNodeColor e;
    let currentNodeColorObj := lerpColor dim active activation in
    if Qlt_bool (Color.a currentNodeColorObj) (1 # 100)
       || Qlt_bool (Node.currentRadius node) (1 # 2)
    then Some ops
    else Some (ops ++ [Fill (rgbaToString currentNodeColorObj)
                            (Node.x node, Node.y node) (Node.currentRadius node)]).

End Draw.

(** A [forEach] whose body may throw. *)
Fixpoint forEachM {A B : Type} (f : A -> B -> option A) (acc : A) (l : list B) : option A :=
  match l with
  | [] => Some acc
  | b :: rest => acc' ← f acc b; forEachM f acc' rest
  end.

Definition draw (st : State) : option State :=
  let '(e, p) := st in
  let ops := [ClearRect (Page.canvasWidth p) (Page.canvasHeight p)] in
  '(ops, k) ← forEachM (drawConnections e) (ops, Page.randomCalls p) (Engine.nodes e);
  ops ← forEachM (drawNode e) ops (Engine.nodes e);
  Some (e, Page.set_canvasOps ops (Page.set_calls k (Page.clockCalls p) p)).

(** *** Animation loop, resize, controls *)

(** [requestAnimationFrame(animate)]: the window hands out the next handle
    (handles start at 1) and keeps the request until it is run or
    cancelled. *)
Definition requestAnimationFrame (p : Page.t) : nat * Page.t :=
  let handle := S (Page.lastFrameHandle p) in
  (handle, Page.set_frames handle ({[handle]} ∪ Page.pendingFrames p) p).

Definition cancelAnimationFrame (handle : nat) (p : Page.t) : Page.t :=
  Page.set_frames (Page.lastFrameHandle p) (Page.pendingFrames p ∖ {[handle]}) p.

(** The truth value of [animationFrameId]: [null] and [0] are false. *)
Definition truthy (animationFrameId : option nat) : bool :=
  match animationFrameId with
  | Some (S _) => true
  | _ => false
  end.

Definition animate (st : State) : option State :=
  '(e, p) ← draw (update st);
  let '(handle, p) := requestAnimationFrame p in
  Some (Engine.set_animationFrameId (Some handle) e, p).

Definition start (st : State) : option State :=
  if negb (truthy (Engine.animationFrameId st.1)) then
    '(e, p) ← (if Nat.eqb (length (Engine.nodes st.1)) 0 then setup st else Some st);
    let '(handle, p) := requestAnimationFrame p in
    Some (Engine.set_animationFrameId (Some handle) e, Page.set_resizeListener true p)
  else Some st.

Definition stop (st : State) : State :=
  let '(e, p) := st in
  match Engine.animationFrameId e with
  | Some (S _ as handle) =>
      (Engine.set_animationFrameId None e,
       Page.set_resizeListener false (cancelAnimationFrame handle p))
  | _ => st
  end.

Definition handleResize (st : State) : option State :=
  st ← setup (stop st); start st.

(** [setConfig] of the control object. *)
Definition setConfig (newOptions : Options.t) (st : State) : option State :=
  let '(e, p) := st in
  let st := (Engine.set_config (assign (Engine.config e) newOptions) e, p) in
  if truthy (Engine.animationFrameId e) then handleResize st else setup st.

(** [getCurrentConfig] of the control object: a copy of [config]. *)
Definition getCurrentConfig (st : State) : Config.t := Engine.config st.1.

(** [createNeuralNetworkAnimation(canvas, options)] for a canvas that
    exists, on a page [p]. *)
Definition createNeuralNetworkAnimation (options : Options.t) (p : Page.t) : option State :=
  let e := Engine.mk (assign defaultConfig options) [] None ∅ 0%nat None None None [] in
  st ← setup (e, p); start st.

(** What can happen to a created animation: a call of its control object, a
    resize of the window, or the window running a requested frame, which
    leaves the pending requests as it runs [animate]. *)
Inductive Op :=
| CallStart
| CallStop
| CallSetConfig (newOptions : Options.t)
| WindowResized (innerWidth innerHeight : Q)
| FrameRun (handle : nat).

Definition run (op : Op) (st : State) : option State :=
  match op with
  | CallStart => start st
  | CallStop => Some (stop st)
  | CallSetConfig newOptions => setConfig newOptions st
  | WindowResized w h =>
      let st := (st.1, Page.set_innerSize w h st.2) in
      if Page.resizeListener st.2 then handleResize st else Some st
  | FrameRun handle =>
      if decide (handle ∈ Page.pendingFrames st.2)
      then animate (st.1, cancelAnimationFrame handle st.2)
      else None
  end.

Inductive reachable : State -> Prop :=
| reachable_created options p st :
    createNeuralNetworkAnimation options p = Some st -> reachable st
| reachable_run op st st' :
    reachable st -> run op st = Some st' -> reachable st'.

End Program.

(** ** The code's doubles *)

(** The arithmetic of the code, on Rocq's binary64 numbers, for the
    expressions whose value in doubles is not their value in [Q]. *)
Module Double.

(** The double of a whole number, and of a decimal literal [n/d] whose [n]
    and [d] are doubles: the division rounds to the nearest double, as the
    reading of the literal does. *)
Definition ofZ (z : Z) : float :=
  match z with
  | Z0 => PrimFloat.zero
  | Zpos _ => PrimFloat.of_uint63 (Uint63.of_Z z)
  | Zneg p => PrimFloat.opp (PrimFloat.of_uint63 (Uint63.of_Z (Zpos p)))
  end.

Definition ofQ (q : Q) : float := PrimFloat.div (ofZ (Qnum q)) (ofZ (Zpos (Qden q))).

Definition isNegativeZero (x : float) : bool :=
  match PrimFloat.classify x with NZero => true | _ => false end.

(** [Math.max] and [Math.min]: [NaN] when an argument is [NaN], and [+0]
    above [-0]. *)
Definition Math_max (x y : float) : float :=
  if PrimFloat.is_nan x || PrimFloat.is_nan y then PrimFloat.nan
  else if PrimFloat.ltb x y then y
  else if PrimFloat.ltb y x then x
  else if isNegativeZero x then y else x.

Definition Math_min (x y : float) : float :=
  if PrimFloat.is_nan x || PrimFloat.is_nan y then PrimFloat.nan
  else if PrimFloat.ltb x y then x
  else if PrimFloat.ltb y x then y
  else if isNegativeZero x then x else y.

(** [lerp]. *)
Definition lerp (start end_ amount : float) : float :=
  PrimFloat.add start
    (PrimFloat.mul (PrimFloat.sub end_ start)
                   (Math_max PrimFloat.zero (Math_min PrimFloat.one amount))).


(** Step 3 of [update] for a node outside the input layer: the decay, the
    trigger and the final [Math.max(0, currentActivation)]. *)
Definition levelAfter (config : Config.t) (activationLevel incomingSignal : float) : float :=
  let minActivationLevel := ofQ (Config.minActivationLevel config) in
  let decayRate := ofQ (Config.decayRate config) in
  let activationThreshold := ofQ (Config.activationThreshold config) in
  let activationBoost := ofQ (Config.activationBoost config) in
  let currentActivation := activationLevel in
  let currentActivation :=
    if PrimFloat.ltb minActivationLevel currentActivation
    then PrimFloat.sub currentActivation decayRate
    else currentActivation in
  let currentActivation :=
    if PrimFloat.leb activationThreshold incomingSignal
    then PrimFloat.add (Math_max currentActivation (ofQ (1 # 10)))
                       (PrimFloat.mul activationBoost
                                      (PrimFloat.div incomingSignal activationThreshold))
    else currentActivation in
  Math_max PrimFloat.zero currentActivation.

End Double.

(** ** Properties of states *)

(** [nodeMap.get(id)]. *)
Definition nodeOf (e : Engine.t) (id : nat) : option Node.t :=
  Engine.nodeMap e !! id ≫= (Engine.nodes e !!.).

(** [s → t]: [s] has a connection whose target is [t]. *)
Definition connected (e : Engine.t) (s t : Node.t) : Prop :=
  ∃ c, c ∈ Node.connections s ∧ nodeOf e (Conn.targetId c) = Some t.

(** The number of nodes of layer [l]. *)
Definition layerSize (e : Engine.t) (l : nat) : nat :=
  length (filter (fun n => Node.layerIndex n = l) (Engine.nodes e)).

(** Every connection leads to a node of the next layer: its target id is
    the id of a node, found by [nodeMap], one layer further. *)
Definition forwardOnly (e : Engine.t) : Prop :=
  ∀ s c, s ∈ Engine.nodes e → c ∈ Node.connections s →
    ∃ t, nodeOf e (Conn.targetId c) = Some t
         ∧ Node.id t = Conn.targetId c
         ∧ Node.layerIndex t = S (Node.layerIndex s).

(** The nodes of the last layer have no connection. *)
Definition lastLayerClosed (e : Engine.t) : Prop :=
  ∀ s, s ∈ Engine.nodes e →
    S (Node.layerIndex s) = length (Config.layers (Engine.config e)) →
    Node.connections s = [].

(** No path of connections comes back to the node it left. *)
Definition acyclic (e : Engine.t) : Prop :=
  ∀ s, s ∈ Engine.nodes e → ¬ tc (connected e) s s.

(** A node has at most [min(maxConnectionsPerNode, size of the next layer)]
    connections. *)
Definition fanoutBounded (e : Engine.t) : Prop :=
  ∀ s, s ∈ Engine.nodes e →
    length (Node.connections s)
    ≤ Nat.min (Config.maxConnectionsPerNode (Engine.config e))
              (layerSize e (S (Node.layerIndex s))).

(** No node has a connection. *)
Definition isolated (e : Engine.t) : Prop :=
  ∀ s, s ∈ Engine.nodes e → Node.connections s = [].

(** The sum of a list of numbers. *)
Definition Qsum (l : list Q) : Q := foldr Qplus 0%Q l.

(** The signals sent to the node of id [target] in a tick that starts with
    the nodes [ns]: one per connection to it from a node above the minimum
    activation level. *)
Definition signalsTo (config : Config.t) (ns : list Node.t) (target : nat) : list Q :=
  s ← ns;
  c ← Node.connections s;
  if decide (Conn.targetId c = target)
  then if Qlt_bool (Config.minActivationLevel config) (Node.activationLevel s)
       then [(Node.activationLevel s * Config.signalPropagationSpeed config)%Q]
       else []
  else [].

(** The number of input-layer nodes before position [i]: the third loop of
    [update] has called [Math.random()] that many times when it comes to the
    node at position [i]. *)
Definition inputsBefore (ns : list Node.t) (i : nat) : nat :=
  length (filter (fun n => Node.layerIndex n = 0%nat) (take i ns)).

(** A node after the signals [qs] have been added to it, in order. *)
Definition received (qs : list Q) (n : Node.t) : Node.t :=
  Node.set_incomingSignal (foldl Qplus (Node.incomingSignal n) qs) n.

(** The signals of strength [q] that the connections [cs] bring to the node
    at position [j]. *)
Definition hits (nodeMap : gmap nat nat) (q : Q) (cs : list Conn.t) (j : nat) : list Q :=
  c ← cs; if decide (nodeMap !! Conn.targetId c = Some j) then [q] else [].

(** The signals that a source node [s] sends to the node at position [j]. *)
Definition sentBy (config : Config.t) (nodeMap : gmap nat nat) (j : nat) (s : Node.t)
  : list Q :=
  if Qlt_bool (Config.minActivationLevel config) (Node.activationLevel s)
  then hits nodeMap (Node.activationLevel s * Config.signalPropagationSpeed config)%Q
            (Node.connections s) j
  else [].

(** [nodeMap] and the ids agree with the positions in [nodes]. *)
Definition synced (ns : list Node.t) (nodeMap : gmap nat nat) : Prop :=
  (∀ i n, ns !! i = Some n → Node.id n = i)
  ∧ (∀ i j, nodeMap !! i = Some j ↔ i = j ∧ i < length ns).

(** The nodes [ns] are the layers of sizes [sizes], connected forward, with
    at most [maxConn] connections per node. *)
Definition layered (maxConn : nat) (sizes : list nat) (ns : list Node.t) : Prop :=
  (∀ i n, ns !! i = Some n → Node.layerIndex n < length sizes)
  ∧ (∀ l, length (filter (fun n => Node.layerIndex n = l) ns) = default 0 (sizes !! l))
  ∧ (∀ i n c, ns !! i = Some n → c ∈ Node.connections n →
       ∃ t, ns !! Conn.targetId c = Some t
            ∧ Node.layerIndex t = S (Node.layerIndex n))
  ∧ (∀ i n, ns !! i = Some n →
       length (Node.connections n)
       ≤ Nat.min maxConn (default 0 (sizes !! S (Node.layerIndex n)))).

(** No activation and no signal anywhere. *)
Definition atRest (ns : list Node.t) : Prop :=
  ∀ i n, ns !! i = Some n → Node.activationLevel n = 0%Q ∧ Node.incomingSignal n = 0%Q.

(** [previousLayerNodeIds] between two layers: the positions of the nodes of
    the last layer built, which have no connection yet. *)
Definition frontier (sizes : list nat) (ns : list Node.t) (previous : list nat) : Prop :=
  NoDup previous
  ∧ (∀ i, i ∈ previous ↔ ∃ n, ns !! i = Some n ∧ S (Node.layerIndex n) = length sizes)
  ∧ (∀ i n, ns !! i = Some n → S (Node.layerIndex n) = length sizes →
       Node.connections n = []).

(** What holds between two layers of [setup]. *)
Definition building (maxConn : nat) (sizes : list nat) (st : Build.t * list nat) : Prop :=
  Build.nextNodeId st.1 = length (Build.nodes st.1)
  ∧ synced (Build.nodes st.1) (Build.nodeMap st.1)
  ∧ layered maxConn sizes (Build.nodes st.1)
  ∧ atRest (Build.nodes st.1)
  ∧ frontier sizes (Build.nodes st.1) st.2.

(** The colours are parsed and the palette has an entry. *)
Definition coloursProcessed (e : Engine.t) : Prop :=
  Engine.parsedActiveConnectionColors e ≠ []
  ∧ is_Some (Engine.parsedNodeColor e)
  ∧ is_Some (Engine.parsedActiveNodeColor e)
  ∧ is_Some (Engine.parsedConnectionColor e).

(** What the frames need: levels that are not negative, and colours. *)
Definition sound (e : Engine.t) : Prop :=
  (∀ i n, Engine.nodes e !! i = Some n → (0 <= Node.activationLevel n)%Q)
  ∧ coloursProcessed e.

(** What holds of the engine whenever it is not inside a call, on a host
    whose sort returns what it was given. *)
Definition wellFormed (e : Engine.t) : Prop :=
  synced (Engine.nodes e) (Engine.nodeMap e)
  ∧ layered (Config.maxConnectionsPerNode (Engine.config e))
            (Config.layers (Engine.config e)) (Engine.nodes e)
  ∧ (∀ i n, Engine.nodes e !! i = Some n → (0 <= Node.activationLevel n)%Q)
  ∧ coloursProcessed e.

(** Two colours with the same channels and equal alpha. *)
Definition sameColor (c d : Color.t) : Prop :=
  Color.r c = Color.r d ∧ Color.g c = Color.g d ∧ Color.b c = Color.b d
  ∧ (Color.a c == Color.a d)%Q.

(** A colour whose channels are in the range of a colour channel. *)
Definition validColor (c : Color.t) : Prop :=
  (0 <= Color.r c <= 255)%Z ∧ (0 <= Color.g c <= 255)%Z ∧ (0 <= Color.b c <= 255)%Z.

(** What does not change once a node is built. *)
Definition sameTopology (n n' : Node.t) : Prop :=
  Node.id n' = Node.id n ∧ Node.x n' = Node.x n ∧ Node.y n' = Node.y n
  ∧ Node.layerIndex n' = Node.layerIndex n ∧ Node.baseRadius n' = Node.baseRadius n
  ∧ Node.connections n' = Node.connections n.

(** [Array.prototype.sort] returns the elements it was given. *)
Definition sortPermutes (host : Host.t) : Prop :=
  ∀ (S : Type) cmp (l : list nat) (s : S), (Host.Array_sort host S cmp l s).1 ≡ₚ l.

(** The threshold that the trigger divides by is not zero. *)
Definition thresholdNonzero (config : Config.t) : Prop :=
  ¬ (Config.activationThreshold config == 0)%Q.


(** The level [n'] that a node, [n] when the tick starts, has after a tick
    in which its signal reaches the threshold: the level is first lowered by
    [decayRate] if it is above [minActivationLevel], then raised. *)
Definition thresholdRule (config : Config.t) (n n' : Node.t) : Prop :=
  let pre := Node.activationLevel n in
  let d :=
    if Qlt_bool (Config.minActivationLevel config) pre
    then (pre - Config.decayRate config)%Q
    else pre in
  let boosted :=
    (Qmax d (1 # 10)
     + Config.activationBoost config
       * (Node.incomingSignal n' / Config.activationThreshold config))%Q in
  Node.activationLevel n' = Qmax 0 boosted
  ∧ ((0 <= Config.activationBoost config)%Q →
     (0 < Config.activationThreshold config)%Q →
     (Node.activationLevel n' == boosted)%Q).

(** The level [n'] that a node, [n] when the tick starts, has after
    a tick without boost: lowered by [decayRate], and so not above where it
    was, when it was above [minActivationLevel]; kept otherwise. *)
Definition decayRule (config : Config.t) (n n' : Node.t) : Prop :=
  let level := Node.activationLevel n in
  ((Config.minActivationLevel config < level)%Q →
   Node.activationLevel n' = Qmax 0 (level - Config.decayRate config)
   ∧ ((0 <= Config.decayRate config)%Q → (0 <= level)%Q →
      (Node.activationLevel n' <= level)%Q))
  ∧ ((level <= Config.minActivationLevel config)%Q →
     Node.activationLevel n' = Qmax 0 level
     ∧ ((0 <= level)%Q → (Node.activationLevel n' == level)%Q)).

(** What a tick does to the signal of the node [t] at position [j]. *)
Definition snapshotRule (host : Host.t) (st : State) (j : nat) (t : Node.t) : Prop :=
  ∃ tp t',
    propagate (Engine.config st.1) (Engine.nodeMap st.1) (Engine.nodes st.1) !! j = Some tp
    ∧ Engine.nodes (update host st).1 !! j = Some t'
    ∧ (Node.incomingSignal tp
       == Qsum (signalsTo (Engine.config st.1) (Engine.nodes st.1) (Node.id t)))%Q
    ∧ Node.activationLevel tp = Node.activationLevel t
    ∧ Node.incomingSignal t' = Node.incomingSignal tp
    ∧ (Node.layerIndex t = 0 → Node.incomingSignal tp = 0%Q).


(** The layout of [setup] on a canvas of a given size: the left end and the
    step of the columns, the column of a layer, the top and the height of
    the band of rows. *)
Definition layoutStartX (config : Config.t) (width : Q) : Q :=
  ((width - width * Config.hSpacingMultiplier config) / 2)%Q.

Definition layoutSpacing (config : Config.t) (width : Q) : Q :=
  if Nat.ltb 1 (length (Config.layers config))
  then (width * Config.hSpacingMultiplier config
        / (Qnat (length (Config.layers config)) - 1))%Q
  else 0%Q.

Definition columnX (config : Config.t) (width : Q) (layerIndex : nat) : Q :=
  (layoutStartX config width + Qnat layerIndex * layoutSpacing config width)%Q.

Definition bandHeight (config : Config.t) (height : Q) : Q :=
  (height * Config.vSpacingMultiplier config)%Q.


(** A node as [setup] leaves it: no activation, no signal, a radius of at
    least 1 that is also its current radius. *)
Definition freshNode (n : Node.t) : Prop :=
  Node.activationLevel n = 0%Q ∧ Node.incomingSignal n = 0%Q
  ∧ (1 <= Node.baseRadius n)%Q ∧ Node.currentRadius n = Node.baseRadius n.

(** The radius of a node is the configured radius, up to the variance, and
    at least 1. *)
Definition radiusInRange (config : Config.t) (n : Node.t) : Prop :=
  (Qmax 1 (Config.baseNodeRadius config - Config.nodeRadiusVariance config)
   <= Node.baseRadius n
   <= Qmax 1 (Config.baseNodeRadius config + Config.nodeRadiusVariance config))%Q.


(** [Math.random()] returns a number from 0, included, to 1, excluded. *)
Definition randomInUnit (host : Host.t) : Prop :=
  ∀ k, (0 <= Host.Math_random host k < 1)%Q.


(** The kinds of drawing commands. *)
Definition isStroke (c : DrawCmd) : bool :=
  match c with Stroke _ _ _ _ _ _ _ => true | _ => false end.

Definition isFill (c : DrawCmd) : bool :=
  match c with Fill _ _ _ => true | _ => false end.

(** The number of connections drawn. *)
Definition strokeCount (ops : list DrawCmd) : nat :=
  length (filter (fun c => isStroke c = true) ops).

(** What [draw] does not skip: a line at least 0.1 wide, a disc of radius at
    least 0.5, in a colour whose printed alpha is at least 0.01. *)
Definition visible (c : DrawCmd) : Prop :=
  match c with
  | ClearRect _ _ => True
  | Stroke lineWidth strokeStyle _ _ _ _ _ =>
      ((1 # 10) <= lineWidth)%Q ∧ ((1 # 100) <= Color.a strokeStyle)%Q
  | Fill fillStyle _ radius =>
      ((1 # 2) <= radius)%Q ∧ ((1 # 100) <= Color.a fillStyle)%Q
  end.


(** [animationFrameId], when it is set, is a handle that the window gave
    out and that is still pending. *)
Definition frameRequested (st : State) : Prop :=
  ∀ handle, Engine.animationFrameId st.1 = Some handle →
    0 < handle ≤ Page.lastFrameHandle st.2 ∧ handle ∈ Page.pendingFrames st.2.

(** The animation is running: [animationFrameId] is truthy. *)
Definition running (st : State) : bool := truthy (Engine.animationFrameId st.1).

(** The nodes [ns] of the layers [sizes] have connections without
    repetition, and those before the last layer have exactly as many as
    [maxConn] and the size of the next layer allow. *)
Definition exactFan (maxConn : nat) (sizes : list nat) (ns : list Node.t) : Prop :=
  ∀ i n, ns !! i = Some n →
    NoDup (Node.connections n)
    ∧ (S (Node.layerIndex n) < length sizes →
       length (Node.connections n)
       = Nat.min maxConn (default 0 (sizes !! S (Node.layerIndex n)))).

(** The same, of an engine. *)
Definition fanoutExact (e : Engine.t) : Prop :=
  ∀ s, s ∈ Engine.nodes e →
    NoDup (Node.connections s)
    ∧ (S (Node.layerIndex s) < length (Config.layers (Engine.config e)) →
       length (Node.connections s)
       = Nat.min (Config.maxConnectionsPerNode (Engine.config e))
                 (layerSize e (S (Node.layerIndex s)))).

(** ** A host to run the program on *)

(** Insertion sort, with the comparator called as [cmp x y]: a result of at
    most zero leaves [x] before [y]. *)
Fixpoint insertBy {S : Type} (cmp : nat -> nat -> S -> Q * S) (x : nat) (l : list nat) (s : S)
  : list nat * S :=
  match l with
  | [] => ([x], s)
  | y :: l' =>
      let '(c, s') := cmp x y s in
      if Qle_bool c 0 then (x :: y :: l', s')
      else let '(r, s'') := insertBy cmp x l' s' in (y :: r, s'')
  end.

Fixpoint insertionSort {S : Type} (cmp : nat -> nat -> S -> Q * S) (l : list nat) (s : S)
  : list nat * S :=
  match l with
  | [] => ([], s)
  | x :: l' =>
      let '(sorted, s') := insertionSort cmp l' s in
      insertBy cmp x sorted s'
  end.

(** A host whose [Math.random()] returns the numbers of [randoms] and then
    one half, whose clock stands still and whose sine is zero. *)
Definition listHost (randoms : list Q) : Host.t :=
  Host.mk (fun k => nth k randoms (1 # 2)%Q) (fun _ => 0%Q) (fun _ => 0%Q)
          (fun S => @insertionSort S).

(** A colour parser that knows the colours of the default configuration. *)
Definition parseKnown (colorString : string) : Color.t :=
  if String.eqb colorString "rgba(80, 130, 200, 0.1)" then Color.mk 80 130 200 (1 # 10)
  else if String.eqb colorString "rgba(80, 130, 200, 0.3)" then Color.mk 80 130 200 (3 # 10)
  else if String.eqb colorString "rgba(220, 245, 255, 1)" then Color.mk 220 245 255 1
  else if String.eqb colorString "rgba(100, 180, 255, 0.7)" then Color.mk 100 180 255 (7 # 10)
  else if String.eqb colorString "rgba(160, 220, 255, 0.85)" then Color.mk 160 220 255 (85 # 100)
  else if String.eqb colorString "rgba(220, 250, 255, 0.95)" then Color.mk 220 250 255 (95 # 100)
  else if String.eqb colorString "rgba(255, 255, 255, 0.9)" then Color.mk 255 255 255 (9 # 10)
  else if String.eqb colorString "rgba(255,255,255,0.9)" then Color.mk 255 255 255 (9 # 10)
  else Color.mk 50 50 50 (1 # 10).

(** A window of 800 by 600 in which nothing has happened yet. *)
Definition freshPage : Page.t :=
  Page.mk 300 150 [] 800 600 0 ∅ false 0 0.

(** ** Example runs *)

(** The activation level and the signal of the node at position [i]. *)
Definition activationAt (st : State) (i : nat) : Q :=
  default 0%Q (Node.activationLevel <$> Engine.nodes st.1 !! i).

Definition signalAt (st : State) (i : nat) : Q :=
  default 0%Q (Node.incomingSignal <$> Engine.nodes st.1 !! i).

(** The state after the creation and the frames of handles [1] to
    [frames]; a call that throws leaves the state it was given. *)
Fixpoint afterFrames (host : Host.t) (parseColor : string -> Color.t)
    (options : Options.t) (frames : nat) : State :=
  match frames with
  | O =>
      default (Engine.mk defaultConfig [] None ∅ 0%nat None None None [], freshPage)
              (createNeuralNetworkAnimation host parseColor options freshPage)
  | S n =>
      let st := afterFrames host parseColor options n in
      default st (run host parseColor (FrameRun frames) st)
  end.

(** Two layers, of two and three nodes, two connections per node. *)
Definition smallOptions : Options.t :=
  Options.mk (Some [2; 3]) None None None None None None None None None None None
    None None None None None None None None None None (Some 2) None.

Definition smallHost : Host.t := listHost [].

(** A chain of two nodes: threshold 1/2, boost 2, decay 1/4, input
    probability 1/2.  [setup] makes six calls of [Math.random()]; the
    seventh, in the first frame, returns 0 and fires the input node; the
    later ones return 1/2 and do not. *)
Definition chainOptions : Options.t :=
  Options.mk (Some [1; 1]) None None None None None None None None None None None
    None None None None (Some (1 # 2)%Q) None (Some (1 # 2)%Q) (Some 2%Q)
    (Some (1 # 4)%Q) None None None.

Definition chainHost : Host.t :=
  listHost [(1 # 2); (1 # 2); (1 # 2); (1 # 2); (1 # 2); (1 # 2); 0]%Q.

(** A single input node: boost 1/4, decay 1/4, minimum activation level
    1/2, input probability 1/2.  [setup] makes three calls of
    [Math.random()]; the fourth, in the first frame, returns 0 and fires the
    node; the later ones return 1/2 and do not. *)
Definition restOptions : Options.t :=
  Options.mk (Some [1]) None None None None None None None None None None None
    None None None None (Some (1 # 2)%Q) None None (Some (1 # 4)%Q)
    (Some (1 # 4)%Q) (Some (1 # 2)%Q) None None.

Definition restHost : Host.t := listHost [(1 # 2); (1 # 2); (1 # 2); 0]%Q.

(** The default configuration with an empty palette. *)
Definition noPaletteOptions : Options.t :=
  Options.mk None None None None None None None None None None None (Some [])
    None None None None None None None None None None None None.

(** Two nodes under the default configuration (threshold 0.6, boost 1.5,
    propagation speed 1), the first forced to the level 1. *)
Definition scenarioOptions : Options.t :=
  Options.mk (Some [1; 1]) None None None None None None None None None None None
    None None None None None None None None None None None None.

Definition forceActivation (i : nat) (level : Q) (st : State) : State :=
  (Engine.set_nodes
     (alter (fun n => Node.set_activation level (Node.currentRadius n) n) i
            (Engine.nodes st.1))
     st.1,
   st.2).

Definition scenarioState : State :=
  forceActivation 0 1 (afterFrames smallHost parseKnown scenarioOptions 0).

(** The chain after its second frame, and the single node after its first. *)
Definition chainBefore : State := afterFrames chainHost parseKnown chainOptions 2.
Definition restBefore : State := afterFrames restHost parseKnown restOptions 1.
Definition smallCreated : State := afterFrames smallHost parseKnown smallOptions 0.
Definition chainCreated : State := afterFrames chainHost parseKnown chainOptions 0.





(** The default configuration with the decay rate 1e-17. *)
Definition slowDecayOptions : Options.t :=
  Options.mk None None None None None None None None None None None None
    None None None None None None None None (Some (1 # 100000000000000000)%Q) None None
    None.

Definition slowDecayConfig : Config.t := assign defaultConfig slowDecayOptions.
Definition noPaletteCreated : State := afterFrames smallHost parseKnown noPaletteOptions 0.

(** * Proofs *)

(** ** Numbers *)

Lemma Qlt_bool_iff (a b : Q) : Qlt_bool a b = true <-> (a < b)%Q.
Proof.
  unfold Qlt_bool. rewrite negb_true_iff, <- not_true_iff_false, Qle_bool_iff.
  split; [apply Qnot_le_lt | apply Qlt_not_le].
Qed.

Lemma Qlt_bool_false (a b : Q) : Qlt_bool a b = false <-> (b <= a)%Q.
Proof. unfold Qlt_bool. rewrite negb_false_iff. apply Qle_bool_iff. Qed.

Lemma Qle_bool_false (a b : Q) : Qle_bool a b = false <-> (b < a)%Q.
Proof.
  rewrite <- not_true_iff_false, Qle_bool_iff.
  split; [apply Qnot_le_lt | apply Qlt_not_le].
Qed.

Lemma Qmax_nonneg (q : Q) : (0 <= Qmax 0 q)%Q.
Proof. apply Q.le_max_l. Qed.

Lemma foldl_Qplus_sum (l : list Q) (a : Q) : (foldl Qplus a l == a + Qsum l)%Q.
Proof.
  revert a. induction l as [|q l IH]; intros a; simpl.
  - unfold Qsum; simpl. ring.
  - rewrite IH. unfold Qsum; simpl. ring.
Qed.

(** ** [update] *)

Section UpdateFacts.
Variable host : Host.t.
Variable config : Config.t.
Variable nodeMap : gmap nat nat.

Lemma trigger_calls k n :
  (trigger host config k n).2 = if Nat.eqb (Node.layerIndex n) 0 then S k else k.
Proof.
  unfold trigger. destruct (Nat.eqb _ _).
  - by destruct (Qlt_bool _ _).
  - by destruct (Qle_bool _ _).
Qed.

Lemma updateNode_activation k c n :
  Node.activationLevel (updateNode host config k c n).1
  = Qmax 0 (trigger host config k n).1.
Proof.
  unfold updateNode. destruct (trigger _ _ _ _) as [a k'].
  by destruct (Qlt_bool 0 _).
Qed.

Lemma updateNode_signal k c n :
  Node.incomingSignal (updateNode host config k c n).1 = Node.incomingSignal n.
Proof.
  unfold updateNode. destruct (trigger _ _ _ _) as [a k'].
  by destruct (Qlt_bool 0 _).
Qed.

Lemma updateNode_topology k c n : sameTopology n (updateNode host config k c n).1.
Proof.
  unfold updateNode. destruct (trigger _ _ _ _) as [a k'].
  by destruct (Qlt_bool 0 _).
Qed.

Lemma updateNode_calls k c n :
  (updateNode host config k c n).2.1 = (trigger host config k n).2.
Proof.
  unfold updateNode. destruct (trigger _ _ _ _) as [a k'].
  by destruct (Qlt_bool 0 _).
Qed.

Lemma activate_length k c ns : length (activate host config k c ns).1 = length ns.
Proof.
  revert k c. induction ns as [|n ns IH]; intros k c; simpl; [done|].
  destruct (updateNode _ _ _ _ _) as [n' [k' c']].
  specialize (IH k' c'). destruct (activate _ _ _ _ _) as [rest kc]. simpl in *.
  by rewrite IH.
Qed.

Lemma activate_lookup ns : ∀ k c i n,
  ns !! i = Some n →
  ∃ c', (activate host config k c ns).1 !! i
        = Some (updateNode host config (k + inputsBefore ns i) c' n).1.
Proof.
  induction ns as [|m ns IH]; intros k c i n Hi; [done|].
  simpl. pose proof (updateNode_calls k c m) as Hk.
  destruct (updateNode host config k c m) as [m' [k' c']] eqn:Hm. simpl in Hk.
  specialize (IH k' c').
  destruct (activate host config k' c' ns) as [rest kc] eqn:Hrest. simpl in *.
  destruct i as [|i]; simpl in *.
  - injection Hi as <-. exists c. unfold inputsBefore. simpl.
    rewrite Nat.add_0_r, Hm. done.
  - destruct (IH _ _ Hi) as [c'' ->]. exists c''. do 3 f_equal.
    rewrite Hk, trigger_calls. unfold inputsBefore. simpl.
    rewrite filter_cons. destruct (Nat.eqb_spec (Node.layerIndex m) 0).
    + rewrite decide_True by done. simpl. lia.
    + rewrite decide_False by done. lia.
Qed.

Lemma received_app a b n : received b (received a n) = received (a ++ b) n.
Proof. unfold received. simpl. by rewrite foldl_app. Qed.

Lemma received_nil n : received [] n = n.
Proof. by destruct n. Qed.

Lemma hits_cons q c cs j :
  hits nodeMap q (c :: cs) j
  = (if decide (nodeMap !! Conn.targetId c = Some j) then [q] else [])
    ++ hits nodeMap q cs j.
Proof. done. Qed.

Lemma deliver_lookup q cs : ∀ ns j,
  foldl (deliver nodeMap q) ns cs !! j = received (hits nodeMap q cs j) <$> ns !! j.
Proof.
  induction cs as [|c cs IH]; intros ns j; cbn [foldl].
  - destruct (ns !! j) as [n|]; simpl; [by rewrite received_nil|done].
  - rewrite IH, hits_cons.
    unfold deliver. destruct (nodeMap !! Conn.targetId c) as [t|] eqn:Ht.
    + destruct (decide (t = j)) as [->|Hne].
      * rewrite decide_True by done. rewrite list_lookup_alter_eq.
        destruct (ns !! j) as [n|]; reflexivity.
      * rewrite decide_False by congruence. by rewrite list_lookup_alter_ne.
    + rewrite decide_False by done. done.
Qed.

Lemma propagateFrom_lookup (ns0 : list Node.t) : ∀ idxs cur acc,
  (∀ j, cur !! j = received (acc j) <$> ns0 !! j) →
  ∀ j, foldl (propagateFrom config nodeMap) cur idxs !! j
       = received (acc j ++ (i ← idxs; default [] (sentBy config nodeMap j <$> ns0 !! i)))
         <$> ns0 !! j.
Proof.
  induction idxs as [|i idxs IH]; intros cur acc Hcur j; simpl.
  - by rewrite app_nil_r.
  - rewrite (IH _ (λ j, acc j ++ default [] (sentBy config nodeMap j <$> ns0 !! i))).
    + by rewrite <- app_assoc.
    + clear j. intros j. unfold propagateFrom. rewrite (Hcur i).
      destruct (ns0 !! i) as [s|]; simpl; [|by rewrite app_nil_r].
      unfold sentBy.
      destruct (Qlt_bool _ _); [|by rewrite app_nil_r].
      rewrite deliver_lookup, Hcur.
      destruct (ns0 !! j) as [n|]; simpl; [|done].
      by rewrite received_app.
Qed.

Lemma bind_seq_lookup {A B : Type} (f : A → list B) (l : list A) :
  (i ← seq 0 (length l); default [] (f <$> l !! i)) = l ≫= f.
Proof.
  induction l as [|x l IH] using rev_ind; [done|].
  rewrite length_app. cbn [length]. rewrite Nat.add_1_r, seq_S, !bind_app.
  cbn [Nat.add]. rewrite bind_singleton, list_lookup_middle by done. cbn [fmap option_fmap option_map default].
  f_equal; [|by rewrite bind_singleton]. rewrite <- IH.
  assert (Hext : ∀ k n, (i ← seq k n; default [] (f <$> (l ++ [x]) !! i))
                        = (i ← seq k n; default [] (f <$> l !! i)) ∨ length l < k + n).
  { intros k n. revert k. induction n as [|n IHn]; intros k; [by left|].
    destruct (decide (length l < k + S n)) as [|Hle]; [by right|]. left.
    cbn [seq]. rewrite !bind_cons. rewrite lookup_app_l by lia.
    f_equal. destruct (IHn (S k)) as [->|]; [done|lia]. }
  destruct (Hext 0 (length l)) as [->|]; [done|lia].
Qed.

Lemma sentBy_reset j ns :
  (resetSignal <$> ns) ≫= sentBy config nodeMap j = ns ≫= sentBy config nodeMap j.
Proof.
  induction ns as [|s ns IH]; [done|].
  rewrite fmap_cons, !bind_cons, IH. done.
Qed.

Lemma propagate_lookup ns j :
  propagate config nodeMap ns !! j
  = received (ns ≫= sentBy config nodeMap j) <$> (resetSignal <$> ns !! j).
Proof.
  unfold propagate. change (map resetSignal ns) with (resetSignal <$> ns).
  rewrite (propagateFrom_lookup (resetSignal <$> ns) _ _ (λ _, [])).
  - cbn [app]. rewrite bind_seq_lookup, sentBy_reset, list_lookup_fmap. done.
  - intros i. destruct ((resetSignal <$> ns) !! i); simpl; [by rewrite received_nil|done].
Qed.

End UpdateFacts.

(** *** [update] on states *)

Section UpdateState.
Variable host : Host.t.

Lemma update_engine st :
  (update host st).1
  = Engine.set_nodes
      (activate host (Engine.config st.1) (Page.randomCalls st.2) (Page.clockCalls st.2)
         (propagate (Engine.config st.1) (Engine.nodeMap st.1) (Engine.nodes st.1))).1
      st.1.
Proof.
  destruct st as [e p]. unfold update. simpl.
  destruct (activate _ _ _ _ _) as [ns [k c]]. done.
Qed.

Lemma propagate_length config nodeMap ns :
  length (propagate config nodeMap ns) = length ns.
Proof.
  apply Nat.le_antisymm.
  - apply Nat.nlt_ge. intros Hlt.
    destruct (lookup_lt_is_Some_2 _ _ Hlt) as [n Hn].
    rewrite propagate_lookup in Hn.
    rewrite (lookup_ge_None_2 ns (length ns)) in Hn by lia. done.
  - apply Nat.nlt_ge. intros Hlt.
    destruct (lookup_lt_is_Some_2 _ _ Hlt) as [n Hn].
    pose proof (propagate_lookup config nodeMap ns (length (propagate config nodeMap ns))) as H.
    rewrite Hn in H. rewrite lookup_ge_None_2 in H by lia. done.
Qed.

Lemma inputsBefore_ext (l l' : list Node.t) i :
  Forall2 (λ a b, Node.layerIndex a = Node.layerIndex b) l l' →
  inputsBefore l i = inputsBefore l' i.
Proof.
  intros H. revert i. induction H as [|a b l l' Hab H IH]; intros i.
  - done.
  - destruct i as [|i]; [done|]. unfold inputsBefore in *. simpl.
    rewrite !filter_cons. specialize (IH i).
    destruct (decide (Node.layerIndex a = 0)), (decide (Node.layerIndex b = 0));
      simpl; congruence.
Qed.

Lemma propagate_layers config nodeMap ns :
  Forall2 (λ a b, Node.layerIndex a = Node.layerIndex b) ns (propagate config nodeMap ns).
Proof.
  apply Forall2_same_length_lookup. split; [by rewrite propagate_length|].
  intros i a b Ha Hb. rewrite propagate_lookup, Ha in Hb.
  injection Hb as <-. done.
Qed.

(** The node at position [i] after a tick: the signals sent to it are added
    to a signal reset to zero, then the third loop updates it. *)
Lemma update_lookup st i n :
  Engine.nodes st.1 !! i = Some n →
  ∃ c, Engine.nodes (update host st).1 !! i
       = Some (updateNode host (Engine.config st.1)
                 (Page.randomCalls st.2 + inputsBefore (Engine.nodes st.1) i) c
                 (received (Engine.nodes st.1
                              ≫= sentBy (Engine.config st.1) (Engine.nodeMap st.1) i)
                           (resetSignal n))).1.
Proof.
  intros Hn. rewrite update_engine. simpl.
  rewrite (inputsBefore_ext _ _ i
             (propagate_layers (Engine.config st.1) (Engine.nodeMap st.1) _)).
  apply activate_lookup. by rewrite propagate_lookup, Hn.
Qed.

Lemma update_length st :
  length (Engine.nodes (update host st).1) = length (Engine.nodes st.1).
Proof. rewrite update_engine. simpl. by rewrite activate_length, propagate_length. Qed.

Lemma update_lookup_inv st i n' :
  Engine.nodes (update host st).1 !! i = Some n' →
  ∃ n, Engine.nodes st.1 !! i = Some n.
Proof.
  intros H. apply lookup_lt_is_Some_2. rewrite <- update_length.
  by apply lookup_lt_Some in H.
Qed.

Lemma update_sameTopology st :
  Forall2 sameTopology (Engine.nodes st.1) (Engine.nodes (update host st).1).
Proof.
  apply Forall2_same_length_lookup. split; [by rewrite update_length|].
  intros i n n' Hn Hn'. destruct (update_lookup st i n Hn) as [c Hc].
  rewrite Hc in Hn'. injection Hn' as <-.
  destruct (updateNode_topology host (Engine.config st.1)
              (Page.randomCalls st.2 + inputsBefore (Engine.nodes st.1) i) c
              (received (Engine.nodes st.1
                           ≫= sentBy (Engine.config st.1) (Engine.nodeMap st.1) i)
                        (resetSignal n)))
    as (? & ? & ? & ? & ? & ?).
  simpl in *. repeat split; congruence.
Qed.

Lemma update_nonneg st i n' :
  Engine.nodes (update host st).1 !! i = Some n' → (0 <= Node.activationLevel n')%Q.
Proof.
  intros Hn'. destruct (update_lookup_inv _ _ _ Hn') as [n Hn].
  destruct (update_lookup st i n Hn) as [c Hc]. rewrite Hc in Hn'. injection Hn' as <-.
  rewrite updateNode_activation. apply Qmax_nonneg.
Qed.

(** The signal of a node after a tick is what the second loop left. *)
Lemma update_signal st i n' :
  Engine.nodes (update host st).1 !! i = Some n' →
  Node.incomingSignal n'
  = foldl Qplus 0%Q (Engine.nodes st.1 ≫= sentBy (Engine.config st.1) (Engine.nodeMap st.1) i).
Proof.
  intros Hn'. destruct (update_lookup_inv _ _ _ Hn') as [n Hn].
  destruct (update_lookup st i n Hn) as [c Hc]. rewrite Hc in Hn'. injection Hn' as <-.
  by rewrite updateNode_signal.
Qed.

(** The activation level of a node after a tick, from its level and the
    signal it has after the tick. *)
Lemma update_activation st i n n' :
  Engine.nodes st.1 !! i = Some n →
  Engine.nodes (update host st).1 !! i = Some n' →
  let config := Engine.config st.1 in
  let d := decay config (Node.activationLevel n) in
  Node.activationLevel n'
  = Qmax 0
      (if Nat.eqb (Node.layerIndex n) 0 then
         if Qlt_bool (Host.Math_random host
                        (Page.randomCalls st.2 + inputsBefore (Engine.nodes st.1) i))
                     (Config.inputActivationProbability config)
         then Qmax d (1 # 10) + Config.activationBoost config
         else d
       else
         if Qle_bool (Config.activationThreshold config) (Node.incomingSignal n')
         then Qmax d (1 # 10)
              + Config.activationBoost config
                * (Node.incomingSignal n' / Config.activationThreshold config)
         else d)%Q.
Proof.
  intros Hn Hn'. destruct (update_lookup st i n Hn) as [c Hc].
  rewrite Hc in Hn'. injection Hn' as <-.
  rewrite updateNode_activation, updateNode_signal. simpl.
  unfold trigger. simpl.
  destruct (Nat.eqb _ _).
  - by destruct (Qlt_bool (Host.Math_random _ _) _).
  - by destruct (Qle_bool _ _).
Qed.

End UpdateState.

(** ** [setup] *)

Lemma add_connections_nil n : Node.add_connections [] n = n.
Proof. destruct n. unfold Node.add_connections. simpl. by rewrite app_nil_r. Qed.

Lemma add_connections_app a b n :
  Node.add_connections b (Node.add_connections a n) = Node.add_connections (a ++ b) n.
Proof. unfold Node.add_connections. simpl. by rewrite app_assoc. Qed.

Lemma pushTargets_spec (sh : list nat) : ∀ c n,
  c ≤ length sh →
  pushTargets sh c n = Node.add_connections (Conn.mk <$> take c sh) n.
Proof.
  unfold pushTargets. induction c as [|c IH]; intros n Hc.
  - simpl. by rewrite add_connections_nil.
  - rewrite seq_S, foldl_app, IH by lia. simpl.
    destruct (lookup_lt_is_Some_2 sh c ltac:(lia)) as [t Ht]. rewrite Ht.
    rewrite (take_S_r _ _ _ Ht), fmap_app. simpl.
    by rewrite <- add_connections_app.
Qed.

Lemma filter_length_ext {A : Type} (P : A → Prop) `{∀ a, Decision (P a)} (l l' : list A) :
  Forall2 (λ a b, P a ↔ P b) l l' → length (filter P l) = length (filter P l').
Proof.
  induction 1 as [|a b l l' Hab Hl IH]; [done|].
  rewrite !filter_cons. destruct (decide (P a)), (decide (P b)); simpl; tauto || lia.
Qed.

Lemma filter_length_all {A : Type} (P : A → Prop) `{∀ a, Decision (P a)} (l : list A) :
  Forall P l → length (filter P l) = length l.
Proof.
  induction 1 as [|a l Ha Hl IH]; [done|].
  rewrite filter_cons, decide_True by done. simpl. lia.
Qed.

Lemma filter_length_none {A : Type} (P : A → Prop) `{∀ a, Decision (P a)} (l : list A) :
  Forall (λ a, ¬ P a) l → length (filter P l) = 0.
Proof.
  induction 1 as [|a l Ha Hl IH]; [done|].
  rewrite filter_cons, decide_False by done. done.
Qed.

Lemma insert_seq_lookup (m : gmap nat nat) : ∀ n a i,
  foldl (λ m i, <[i := i]> m) m (seq a n) !! i
  = if decide (a ≤ i < a + n) then Some i else m !! i.
Proof.
  induction n as [|n IH]; intros a i.
  - simpl. rewrite decide_False by lia. done.
  - rewrite seq_S, foldl_app. simpl. rewrite lookup_insert.
    destruct (decide (a + n = i)) as [<-|Hne].
    + rewrite decide_True by lia. done.
    + rewrite IH. destruct (decide (a ≤ i < a + n)).
      * rewrite decide_True by lia. done.
      * rewrite decide_False by lia. done.
Qed.

Section ExtendLayer.
Variables (maxConn : nat) (sizes : list nat) (ns : list Node.t) (m : gmap nat nat).
Variables (previous : list nat) (new : list Node.t) (extra : nat → list Conn.t).

Hypothesis Hsynced : synced ns m.
Hypothesis Hlayered : layered maxConn sizes ns.
Hypothesis Hfrontier : frontier sizes ns previous.
Hypothesis Hid : ∀ j n, new !! j = Some n → Node.id n = length ns + j.
Hypothesis Hnew :
  Forall (λ n, Node.layerIndex n = length sizes ∧ Node.connections n = []
               ∧ Node.activationLevel n = 0%Q ∧ Node.incomingSignal n = 0%Q) new.
Hypothesis Hout : ∀ i, i ∉ previous → extra i = [].
Hypothesis Hin : ∀ i, i ∈ previous →
  ∃ sh, sh ≡ₚ seq (length ns) (length new)
        ∧ extra i = Conn.mk <$> take (Nat.min maxConn (length sh)) sh.

Let ns' := imap (λ i n, Node.add_connections (extra i) n) (ns ++ new).

Lemma extend_lookup i : ns' !! i = Node.add_connections (extra i) <$> (ns ++ new) !! i.
Proof.
  exact (list_lookup_imap (λ i n, Node.add_connections (extra i) n) (ns ++ new) i).
Qed.

Lemma extend_previous_lt i : i ∈ previous → i < length ns.
Proof.
  intros Hi. destruct Hfrontier as (_ & Hp & _).
  apply Hp in Hi as (n & Hn & _). by apply lookup_lt_Some in Hn.
Qed.

Lemma extend_old i n' :
  i < length ns → ns' !! i = Some n' →
  ∃ n, ns !! i = Some n ∧ n' = Node.add_connections (extra i) n.
Proof.
  intros Hi. rewrite extend_lookup, lookup_app_l by done.
  destruct (ns !! i) as [n|]; simpl; [|done]. intros [= <-]. by exists n.
Qed.

Lemma extend_new i n' :
  length ns ≤ i → ns' !! i = Some n' →
  new !! (i - length ns) = Some n' ∧ i < length ns + length new.
Proof.
  intros Hi. rewrite extend_lookup, lookup_app_r by done.
  rewrite Hout.
  - destruct (new !! (i - length ns)) as [n|] eqn:Hn; simpl; [|done].
    intros [= <-]. rewrite add_connections_nil. split; [done|].
    apply lookup_lt_Some in Hn. lia.
  - intros Hp. apply extend_previous_lt in Hp. lia.
Qed.

Lemma extend_new_fields i n' :
  length ns ≤ i → ns' !! i = Some n' →
  Node.id n' = i ∧ Node.layerIndex n' = length sizes ∧ Node.connections n' = []
  ∧ Node.activationLevel n' = 0%Q ∧ Node.incomingSignal n' = 0%Q.
Proof.
  intros Hi Hn'. destruct (extend_new i n' Hi Hn') as [Hn _].
  split; [rewrite (Hid _ _ Hn); lia|].
  rewrite Forall_lookup in Hnew. by apply (Hnew _ _ Hn).
Qed.

Lemma extend_target i t :
  i ∈ previous → Conn.mk t ∈ extra i → length ns ≤ t < length ns + length new.
Proof.
  intros Hi Ht. destruct (Hin i Hi) as (sh & Hperm & Hextra).
  rewrite Hextra in Ht. apply list_elem_of_fmap in Ht as (t' & [= ->] & Ht').
  apply elem_of_take in Ht' as (j & Hj & _).
  apply list_elem_of_lookup_2 in Hj. rewrite Hperm in Hj.
  apply elem_of_seq in Hj. lia.
Qed.

Lemma extend_length : length ns' = length ns + length new.
Proof. unfold ns'. by rewrite length_imap, length_app. Qed.

Lemma extend_synced :
  synced ns' (foldl (λ m i, <[i := i]> m) m (seq (length ns) (length new))).
Proof.
  destruct Hsynced as [Hids Hmap]. split.
  - intros i n' Hn'. destruct (decide (i < length ns)) as [Hi|Hi].
    + destruct (extend_old i n' Hi Hn') as (n & Hn & ->). simpl. by apply Hids in Hn.
    + by apply extend_new_fields in Hn' as (? & _); [|lia].
  - intros i j. rewrite insert_seq_lookup, extend_length.
    destruct (decide (length ns ≤ i < length ns + length new)).
    + split; [intros [= <-]; split; [done|lia] | intros [-> _]; done].
    + rewrite Hmap. split; intros [-> Hlt]; (split; [done|lia]).
Qed.

Lemma extend_old_layer i n' :
  i < length ns → ns' !! i = Some n' → Node.layerIndex n' < length sizes.
Proof.
  intros Hi Hn'. destruct (extend_old i n' Hi Hn') as (n & Hn & ->). simpl.
  destruct Hlayered as (Hl & _). by apply (Hl i).
Qed.

Lemma extend_counts l :
  length (filter (λ n, Node.layerIndex n = l) ns')
  = default 0 ((sizes ++ [length new]) !! l).
Proof.
  rewrite (filter_length_ext _ ns' (ns ++ new)).
  - rewrite filter_app, length_app.
    destruct Hlayered as (Hlt & Hcount & _). rewrite Hcount.
    destruct (decide (l = length sizes)) as [->|Hne].
    + rewrite list_lookup_middle by done.
      rewrite (lookup_ge_None_2 sizes) by lia. simpl.
      apply filter_length_all. eapply Forall_impl; [exact Hnew|]. by intros n (? & _).
    + rewrite filter_length_none.
      2:{ eapply Forall_impl; [exact Hnew|]. intros n (? & _). simpl. congruence. }
      destruct (decide (l < length sizes)).
      * rewrite lookup_app_l by done. lia.
      * rewrite !lookup_ge_None_2; [done| |lia]. rewrite length_app. simpl. lia.
  - apply Forall2_same_length_lookup. split.
    + unfold ns'. by rewrite length_imap.
    + intros i a b Ha Hb. rewrite extend_lookup, Hb in Ha. by injection Ha as <-.
Qed.

Lemma extend_forward i n' c :
  ns' !! i = Some n' → c ∈ Node.connections n' →
  ∃ t, ns' !! Conn.targetId c = Some t ∧ Node.layerIndex t = S (Node.layerIndex n').
Proof.
  intros Hn' Hc. destruct (decide (i < length ns)) as [Hi|Hi].
  - destruct (extend_old i n' Hi Hn') as (n & Hn & ->). simpl in *.
    apply elem_of_app in Hc as [Hc|Hc].
    + destruct Hlayered as (_ & _ & Hfwd & _).
      destruct (Hfwd i n c Hn Hc) as (t & Ht & Hlt).
      exists (Node.add_connections (extra (Conn.targetId c)) t). split; [|done].
      rewrite extend_lookup, lookup_app_l, Ht; [done|]. by apply lookup_lt_Some in Ht.
    + destruct (decide (i ∈ previous)) as [Hp|Hp].
      2:{ rewrite (Hout i Hp) in Hc. by apply elem_of_nil in Hc. }
      destruct c as [t]. pose proof (extend_target i t Hp Hc) as Ht. simpl.
      destruct (lookup_lt_is_Some_2 ns' t) as [t' Ht']; [rewrite extend_length; lia|].
      exists t'. split; [done|].
      apply extend_new_fields in Ht' as (_ & -> & _); [|lia].
      destruct Hfrontier as (_ & Hfr & _). apply Hfr in Hp as (n0 & Hn0 & <-).
      congruence.
  - apply extend_new_fields in Hn' as (_ & _ & Hnil & _); [|lia].
    rewrite Hnil in Hc. by apply elem_of_nil in Hc.
Qed.

Lemma extend_fanout i n' :
  ns' !! i = Some n' →
  length (Node.connections n')
  ≤ Nat.min maxConn (default 0 ((sizes ++ [length new]) !! S (Node.layerIndex n'))).
Proof.
  intros Hn'. destruct (decide (i < length ns)) as [Hi|Hi].
  - destruct (extend_old i n' Hi Hn') as (n & Hn & ->). simpl.
    destruct Hfrontier as (_ & Hfr & Hnil). destruct Hlayered as (Hlt & _ & _ & Hfan).
    destruct (decide (i ∈ previous)) as [Hp|Hp].
    + destruct (Hin i Hp) as (sh & Hperm & ->).
      apply Hfr in Hp as (n0 & Hn0 & Hl). assert (n0 = n) as -> by congruence.
      rewrite (Hnil i n Hn Hl), Hl, list_lookup_middle by done. simpl.
      rewrite length_fmap, length_take.
      apply Permutation_length in Hperm. rewrite length_seq in Hperm. lia.
    + rewrite (Hout i Hp), app_nil_r.
      assert (S (Node.layerIndex n) < length sizes) as Hl.
      { pose proof (Hlt i n Hn).
        destruct (decide (S (Node.layerIndex n) = length sizes)) as [He|]; [|lia].
        exfalso. apply Hp, Hfr. by exists n. }
      rewrite lookup_app_l by done. by apply (Hfan i).
  - apply extend_new_fields in Hn' as (_ & _ & -> & _); [|lia]. simpl. lia.
Qed.

Lemma extend_layered : layered maxConn (sizes ++ [length new]) ns'.
Proof.
  split; [|split; [|split]].
  - intros i n' Hn'. rewrite length_app. simpl.
    destruct (decide (i < length ns)) as [Hi|Hi].
    + pose proof (extend_old_layer i n' Hi Hn'). lia.
    + apply extend_new_fields in Hn' as (_ & -> & _); lia.
  - apply extend_counts.
  - apply extend_forward.
  - apply extend_fanout.
Qed.

Lemma extend_atRest : atRest ns → atRest ns'.
Proof.
  intros Hz i n' Hn'. destruct (decide (i < length ns)) as [Hi|Hi].
  - destruct (extend_old i n' Hi Hn') as (n0 & Hn0 & ->). simpl. by apply (Hz i n0).
  - apply extend_new_fields in Hn' as (_ & _ & _ & ? & ?); [done|lia].
Qed.

Lemma extend_frontier :
  frontier (sizes ++ [length new]) ns' (seq (length ns) (length new)).
Proof.
  assert (Hlast : ∀ i n', ns' !! i = Some n' →
            S (Node.layerIndex n') = length (sizes ++ [length new]) → length ns ≤ i).
  { intros i n' Hn' Hl. rewrite length_app in Hl. simpl in Hl.
    destruct (decide (i < length ns)) as [Hi|Hi]; [|lia].
    pose proof (extend_old_layer i n' Hi Hn'). lia. }
  split; [apply NoDup_seq|]. split.
  - intros i. rewrite elem_of_seq. split.
    + intros Hi. destruct (lookup_lt_is_Some_2 ns' i) as [n' Hn'].
      { rewrite extend_length. lia. }
      exists n'. split; [done|].
      apply extend_new_fields in Hn' as (_ & -> & _); [|lia].
      rewrite length_app. simpl. lia.
    + intros (n' & Hn' & Hl). pose proof (Hlast i n' Hn' Hl) as Hi.
      apply extend_new in Hn' as [_ ?]; lia.
  - intros i n' Hn' Hl. pose proof (Hlast i n' Hn' Hl) as Hi.
    by apply extend_new_fields in Hn' as (_ & _ & ? & _).
Qed.

End ExtendLayer.

Section SetupFacts.
Variable host : Host.t.
Hypothesis sort_ok : sortPermutes host.
Variable config : Config.t.

Section CreateNodes.
Variables (layerX startY totalHeight nodeSpacing : Q) (nodeCount layerIndex : nat).

Let create := createNode host config layerX startY totalHeight nodeSpacing nodeCount layerIndex.

Lemma createNodes_spec : ∀ idxs b ids,
  Build.nextNodeId b = length (Build.nodes b) →
  ∃ new k,
    foldl create (b, ids) idxs
    = (Build.mk (Build.nodes b ++ new)
                (foldl (λ m i, <[i := i]> m) (Build.nodeMap b)
                       (seq (length (Build.nodes b)) (length idxs)))
                (length (Build.nodes b) + length idxs) k,
       ids ++ seq (length (Build.nodes b)) (length idxs))
    ∧ length new = length idxs
    ∧ (∀ j n, new !! j = Some n → Node.id n = length (Build.nodes b) + j)
    ∧ Forall (λ n, Node.layerIndex n = layerIndex ∧ Node.connections n = []
                   ∧ Node.activationLevel n = 0%Q ∧ Node.incomingSignal n = 0%Q) new.
Proof.
  induction idxs as [|i idxs IH]; intros b ids Hnext.
  - exists [], (Build.randomCalls b). simpl. rewrite !app_nil_r, Nat.add_0_r, <- Hnext.
    by destruct b.
  - cbn [foldl]. unfold create at 2. unfold createNode. 
    set (node := Node.mk _ _ _ _ _ _ _ _ _).
    edestruct (IH (Build.mk (Build.nodes b ++ [node])
                     (<[Build.nextNodeId b := length (Build.nodes b)]> (Build.nodeMap b))
                     (S (Build.nextNodeId b)) (Build.randomCalls b + 3))
                  (ids ++ [Build.nextNodeId b]))
      as (new & k & Heq & Hlen & Hid & Hall).
    { simpl. rewrite length_app. simpl. lia. }
    exists (node :: new), k. rewrite Heq. simpl.
    rewrite length_app, <- !app_assoc. simpl. rewrite Hnext.
    repeat split.
    + by rewrite !Nat.add_1_r, Nat.add_succ_r.
    + by rewrite Hlen.
    + intros [|j] n Hj; simpl in Hj.
      * injection Hj as <-. subst node. simpl. lia.
      * rewrite (Hid _ _ Hj). simpl. rewrite ?length_app. simpl. lia.
    + constructor; [done|exact Hall].
Qed.

End CreateNodes.

Section ConnectAll.
Variable current : list nat.

Lemma connectAll_spec : ∀ sources b,
  (∀ s, s ∈ sources → Build.nodeMap b !! s = Some s) →
  ∃ k (extra : nat → list Conn.t),
    connectAll host config current b sources
    = Some (Build.mk (imap (λ i n, Node.add_connections (extra i) n) (Build.nodes b))
                     (Build.nodeMap b) (Build.nextNodeId b) k)
    ∧ (∀ i, i ∉ sources → extra i = [])
    ∧ (∀ i, i ∈ sources → NoDup sources →
         ∃ sh, sh ≡ₚ current
               ∧ extra i = Conn.mk <$> take (Nat.min (Config.maxConnectionsPerNode config)
                                                  (length sh)) sh).
Proof.
  induction sources as [|s sources IH]; intros b Hmap.
  - exists (Build.randomCalls b), (λ _, []). simpl. repeat split.
    + do 2 f_equal. destruct b. simpl. f_equal.
      apply list_eq. intros i. rewrite list_lookup_imap.
      destruct (nodes !! i); simpl; [by rewrite add_connections_nil|done].
    + intros i Hi. by apply elem_of_nil in Hi.
  - cbn [connectAll]. unfold connectFrom.
    rewrite (Hmap s) by (by left).
    pose proof (sort_ok nat (randomOrder host) current (Build.randomCalls b)) as Hperm.
    destruct (Host.Array_sort host nat (randomOrder host) current (Build.randomCalls b))
      as [sh k1]. simpl in Hperm. cbn [mbind option_bind].
    set (c := Nat.min _ _).
    edestruct (IH (Build.mk (alter (pushTargets sh c) s (Build.nodes b))
                     (Build.nodeMap b) (Build.nextNodeId b) k1))
      as (k & extra & Heq & Hout & Hin).
    { intros s' Hs'. simpl. apply Hmap. by right. }
    exists k, (λ i, (if decide (i = s) then Conn.mk <$> take c sh else []) ++ extra i).
    rewrite Heq. simpl. repeat split.
    + do 2 f_equal. apply list_eq. intros i. rewrite !list_lookup_imap.
      destruct (decide (i = s)) as [->|Hne].
      * rewrite list_lookup_alter_eq. destruct (Build.nodes b !! s); simpl; [|done].
        rewrite pushTargets_spec by (subst c; lia).
        by rewrite add_connections_app.
      * rewrite list_lookup_alter_ne by done. done.
    + intros i Hi. rewrite decide_False by (intros ->; apply Hi; by left).
      rewrite Hout; [done|]. intros ?. apply Hi. by right.
    + intros i Hi Hnd. apply NoDup_cons in Hnd as [Hs Hnd].
      destruct (decide (i = s)) as [->|Hne].
      * exists sh. split; [done|]. by rewrite (Hout s Hs), app_nil_r.
      * apply elem_of_cons in Hi as [?|Hi]; [done|]. by apply Hin.
Qed.

End ConnectAll.

Lemma imap_add_nil (l : list Node.t) :
  imap (λ (_ : nat) n, Node.add_connections [] n) l = l.
Proof.
  apply list_eq. intros i. rewrite list_lookup_imap.
  destruct (l !! i); simpl; [by rewrite add_connections_nil|done].
Qed.

Let building := building (Config.maxConnectionsPerNode config).

Lemma building_start k : building [] (Build.mk [] ∅ 0 k, []).
Proof.
  split; [done|]. split; [|split; [|split]].
  - split; [done|]. intros i j. simpl. rewrite lookup_empty. split; [done|lia].
  - by repeat split.
  - done.
  - split; [constructor|]. split; [|done].
    intros i. split; [by intros ?%elem_of_nil|by intros (? & ? & ?)].
Qed.

Lemma buildLayer_spec canvasHeight startX layerSpacing sizes st nodeCount :
  building sizes st →
  ∃ st', buildLayer host config canvasHeight startX layerSpacing st (length sizes) nodeCount
         = Some st'
         ∧ building (sizes ++ [nodeCount]) st'.
Proof.
  destruct st as [b previous]. intros (Hnext & Hsync & Hlay & Hrest & Hfr). simpl in *.
  unfold buildLayer.
  match goal with
  | |- context [foldl (createNode host config ?lx ?sy ?th ?sp _ _) _ _] =>
      destruct (createNodes_spec lx sy th sp nodeCount (length sizes) (seq 0 nodeCount) b []
                  Hnext)
        as (new & k & Heq & Hlen & Hid & Hnew)
  end.
  rewrite Heq. clear Heq. rewrite length_seq in *. simpl. subst nodeCount.
  assert (Hprev : ∀ s, s ∈ previous → s < length (Build.nodes b)).
  { intros s Hs. destruct Hfr as (_ & Hp & _).
    apply Hp in Hs as (n & Hn & _). by apply lookup_lt_Some in Hn. }
  destruct (Nat.ltb_spec 0 (length sizes)) as [Hpos|Hzero].
  - edestruct (connectAll_spec (seq (length (Build.nodes b)) (length new)) previous
                 (Build.mk (Build.nodes b ++ new)
                    (foldl (λ m i, <[i := i]> m) (Build.nodeMap b)
                           (seq (length (Build.nodes b)) (length new)))
                    (length (Build.nodes b) + length new) k))
      as (k' & extra & Heq & Hout & Hin).
    { intros s Hs. simpl. rewrite insert_seq_lookup.
      pose proof (Hprev s Hs). rewrite decide_False by lia.
      destruct Hsync as [_ Hmap]. by apply Hmap. }
    rewrite Heq. simpl. eexists. split; [done|]. simpl in *.
    assert (Hin' : ∀ i, i ∈ previous →
              ∃ sh, sh ≡ₚ seq (length (Build.nodes b)) (length new)
                    ∧ extra i = Conn.mk <$> take (Nat.min (Config.maxConnectionsPerNode config)
                                                       (length sh)) sh).
    { intros i Hi. apply Hin; [done|]. by destruct Hfr. }
    split; [|split; [|split; [|split]]]; simpl.
    + by rewrite length_imap, length_app.
    + by eapply extend_synced.
    + by eapply extend_layered.
    + by eapply extend_atRest.
    + by eapply extend_frontier.
  - assert (Hnone : ∀ i, i ∉ previous).
    { intros i Hi. destruct Hfr as (_ & Hp & _).
      apply Hp in Hi as (n & _ & Hl). lia. }
    simpl. eexists. split; [done|]. simpl.
    rewrite <- (imap_add_nil (Build.nodes b ++ new)).
    split; [|split; [|split; [|split]]]; simpl.
    + by rewrite length_imap, length_app.
    + eapply extend_synced with (previous := previous) (extra := λ _, []); done.
    + eapply extend_layered with (previous := previous) (extra := λ _, []); try done.
      intros i Hi. by destruct (Hnone i).
    + eapply extend_atRest with (previous := previous) (extra := λ _, []); done.
    + eapply extend_frontier with (previous := previous) (extra := λ _, []); done.
Qed.

Lemma forEachLayer_spec canvasHeight startX layerSpacing : ∀ rest sizes st,
  building sizes st →
  ∃ st', forEachLayer host config canvasHeight startX layerSpacing st (length sizes) rest
         = Some st'
         ∧ building (sizes ++ rest) st'.
Proof.
  induction rest as [|nodeCount rest IH]; intros sizes st Hst.
  - exists st. by rewrite app_nil_r.
  - cbn [forEachLayer].
    destruct (buildLayer_spec canvasHeight startX layerSpacing sizes st nodeCount Hst)
      as (st1 & -> & Hst1).
    cbn [mbind option_bind].
    destruct (IH (sizes ++ [nodeCount]) st1 Hst1) as (st' & Heq & Hst').
    rewrite length_app, Nat.add_1_r in Heq. rewrite Heq.
    exists st'. split; [done|]. by rewrite <- app_assoc in Hst'.
Qed.

End SetupFacts.

(** *** [setup] on states *)

Section SetupState.
Variable host : Host.t.
Hypothesis sort_ok : sortPermutes host.
Variable parseColor : string → Color.t.

Lemma processColors_spec e :
  let e' := processColors parseColor e in
  Engine.config e' = Engine.config e
  ∧ Engine.nodes e' = Engine.nodes e
  ∧ Engine.animationFrameId e' = Engine.animationFrameId e
  ∧ Engine.nodeMap e' = Engine.nodeMap e
  ∧ coloursProcessed e'.
Proof.
  simpl. repeat split; try done. simpl.
  destruct (map parseColor _) as [|c l]; simpl; done.
Qed.

(** [setup] returns, whatever the state; it keeps the configuration and the
    frame handle, and builds a topology at rest. *)
Lemma setup_spec st :
  ∃ st', setup host parseColor st = Some st'
    ∧ Engine.config st'.1 = Engine.config st.1
    ∧ Engine.animationFrameId st'.1 = Engine.animationFrameId st.1
    ∧ wellFormed st'.1
    ∧ atRest (Engine.nodes st'.1).
Proof.
  destruct st as [e p]. unfold setup. cbv zeta.
  destruct (processColors_spec e) as (Hcfg & _ & Hid & _ & Hcol).
  set (e' := processColors parseColor e) in *.
  match goal with
  | |- context [forEachLayer host ?c ?h ?x ?sp ?st0 0 ?ls] =>
      destruct (forEachLayer_spec host sort_ok c h x sp ls [] st0) as ([b prev] & Heq & Hb)
  end.
  { apply building_start. }
  cbn [length] in Heq. rewrite Heq. cbn [mbind option_bind].
  eexists. split; [done|]. cbn [fst].
  destruct Hb as (_ & Hsync & Hlay & Hrest & _). cbn [fst snd app] in *.
  rewrite Hcfg in *.
  split; [done|]. split; [done|]. split; [|done].
  split; [done|]. split; [done|]. split; [|done].
  intros i n Hn. destruct (Hrest i n Hn) as [-> _]. done.
Qed.

End SetupState.

(** *** [setup] returns *)

Section SetupReturns.
Variable host : Host.t.
Variable parseColor : string → Color.t.
Variable config : Config.t.

(** What [setup] needs in order not to throw, and the rest it builds:
    whatever order the sort of the host returns. *)
Let ready (st : Build.t * list nat) : Prop :=
  (∀ s, s ∈ st.2 → is_Some (Build.nodeMap st.1 !! s)) ∧ atRest (Build.nodes st.1).

Lemma createNodes_ready layerX startY totalHeight nodeSpacing nodeCount layerIndex :
  ∀ idxs st,
    ready st →
    let st' := foldl (createNode host config layerX startY totalHeight nodeSpacing
                        nodeCount layerIndex) st idxs in
    ready st' ∧ (∀ s, is_Some (Build.nodeMap st.1 !! s) → is_Some (Build.nodeMap st'.1 !! s)).
Proof.
  induction idxs as [|i idxs IH]; intros [b ids] [Hids Hrest]; [done|].
  cbn [foldl]. unfold createNode at 2 4. 
  match goal with
  | |- context [foldl _ ?st1 idxs] => destruct (IH st1) as [Hready Hmono]
  end.
  - split; simpl.
    + intros s [Hs| ->%list_elem_of_singleton]%elem_of_app.
      * rewrite lookup_insert_is_Some. destruct (decide (Build.nextNodeId b = s)); auto.
      * rewrite lookup_insert_eq. done.
    + intros j n [Hn|[_ Hn]]%lookup_app_Some; [by apply (Hrest j)|].
      destruct (j - length (Build.nodes b)) as [|k]; [|done].
      simpl in Hn. by injection Hn as <-.
  - split; [exact Hready|]. intros s Hs. apply Hmono. simpl.
    rewrite lookup_insert_is_Some. destruct (decide (Build.nextNodeId b = s)); auto.
Qed.

Lemma pushTargets_level sh c n :
  Node.activationLevel (pushTargets sh c n) = Node.activationLevel n
  ∧ Node.incomingSignal (pushTargets sh c n) = Node.incomingSignal n.
Proof.
  unfold pushTargets. generalize (seq 0 c). intros l. revert n.
  induction l as [|k l IH]; intros n; [done|].
  cbn [foldl]. destruct (sh !! k); [|apply IH].
  destruct (IH (Node.push_connection (Conn.mk n0) n)) as [-> ->]. done.
Qed.

Lemma connectAll_ready current : ∀ sources b,
  (∀ s, s ∈ sources → is_Some (Build.nodeMap b !! s)) →
  atRest (Build.nodes b) →
  ∃ b', connectAll host config current b sources = Some b'
        ∧ Build.nodeMap b' = Build.nodeMap b
        ∧ atRest (Build.nodes b').
Proof.
  induction sources as [|s sources IH]; intros b Hmap Hrest.
  - by exists b.
  - cbn [connectAll]. unfold connectFrom.
    destruct (Hmap s) as [j Hj]; [by left|]. rewrite Hj.
    destruct (Host.Array_sort host nat (randomOrder host) current (Build.randomCalls b))
      as [sh k]. cbn [mbind option_bind].
    match goal with
    | |- context [connectAll host config current ?b1 sources] =>
        destruct (IH b1) as (b' & -> & Hm & Hr)
    end.
    + intros s' Hs'. simpl. apply Hmap. by right.
    + simpl. intros i n Hn. rewrite list_lookup_alter in Hn.
      destruct (decide (j = i)) as [->|_]; [|by apply (Hrest i)].
      destruct (Build.nodes b !! i) as [n0|] eqn:Hn0; simpl in Hn; [|done].
      injection Hn as <-. destruct (pushTargets_level sh
        (Nat.min (Config.maxConnectionsPerNode config) (length sh)) n0) as [-> ->].
      by apply (Hrest i).
    + by exists b'.
Qed.

Lemma buildLayer_ready canvasHeight startX layerSpacing st layerIndex nodeCount :
  ready st →
  ∃ st', buildLayer host config canvasHeight startX layerSpacing st layerIndex nodeCount
         = Some st'
         ∧ ready st'.
Proof.
  destruct st as [b previous]. intros Hready. unfold buildLayer.
  match goal with
  | |- context [foldl (createNode host config ?lx ?sy ?th ?sp ?nc ?li) ?st0 ?idxs] =>
      destruct (createNodes_ready lx sy th sp nc li idxs st0) as [[Hids Hrest] Hmono];
      [split; [by intros s ?%elem_of_nil|apply Hready]|];
      destruct (foldl (createNode host config lx sy th sp nc li) st0 idxs) as [b1 current]
  end.
  simpl in *. destruct (Nat.ltb 0 layerIndex).
  - destruct (connectAll_ready current previous b1) as (b2 & -> & Hm & Hr); [|done|].
    { intros s Hs. apply Hmono. by apply Hready. }
    simpl. eexists. split; [done|]. split; simpl; [|done].
    intros s Hs. rewrite Hm. by apply Hids.
  - simpl. eexists. split; [done|]. by split.
Qed.

Lemma forEachLayer_ready canvasHeight startX layerSpacing : ∀ layers st layerIndex,
  ready st →
  ∃ st', forEachLayer host config canvasHeight startX layerSpacing st layerIndex layers
         = Some st'
         ∧ ready st'.
Proof.
  induction layers as [|nodeCount layers IH]; intros st layerIndex Hst.
  - by exists st.
  - cbn [forEachLayer].
    destruct (buildLayer_ready canvasHeight startX layerSpacing st layerIndex nodeCount Hst)
      as (st1 & -> & Hst1).
    cbn [mbind option_bind]. by apply IH.
Qed.

End SetupReturns.

(** [setup] returns, whatever the state and the host; it keeps the
    configuration and the frame handle, parses the colours and leaves every
    node at rest. *)
Lemma setup_returns host parseColor st :
  ∃ st', setup host parseColor st = Some st'
    ∧ Engine.config st'.1 = Engine.config st.1
    ∧ Engine.animationFrameId st'.1 = Engine.animationFrameId st.1
    ∧ Engine.parsedActiveConnectionColors st'.1
      = Engine.parsedActiveConnectionColors (processColors parseColor st.1)
    ∧ coloursProcessed st'.1
    ∧ atRest (Engine.nodes st'.1).
Proof.
  destruct st as [e p]. unfold setup. cbv zeta.
  destruct (processColors_spec parseColor e) as (Hcfg & _ & Hid & _ & Hcol).
  match goal with
  | |- context [forEachLayer host ?c ?h ?x ?sp ?st0 0 ?ls] =>
      destruct (forEachLayer_ready host c h x sp ls st0 0) as ([b prev] & -> & _ & Hrest)
  end.
  { split; [by intros s ?%elem_of_nil|done]. }
  cbn [mbind option_bind]. eexists. split; [done|]. by cbn [fst].
Qed.

(** *** The nodes between calls *)

Lemma sameTopology_synced ns ns' m :
  Forall2 sameTopology ns ns' → synced ns m → synced ns' m.
Proof.
  intros H [Hids Hmap]. split.
  - intros i n' Hn'. destruct (Forall2_lookup_r _ _ _ _ _ H Hn') as (n & Hn & Hs).
    destruct Hs as (-> & _). by apply (Hids i).
  - intros i j. rewrite Hmap. by rewrite (Forall2_length _ _ _ H).
Qed.

Lemma sameTopology_layered maxConn sizes ns ns' :
  Forall2 sameTopology ns ns' → layered maxConn sizes ns → layered maxConn sizes ns'.
Proof.
  intros H (Hlt & Hcount & Hfwd & Hfan).
  split; [|split; [|split]].
  - intros i n' Hn'. destruct (Forall2_lookup_r _ _ _ _ _ H Hn') as (n & Hn & Hs).
    destruct Hs as (_ & _ & _ & -> & _). by apply (Hlt i).
  - intros l. rewrite <- Hcount. symmetry. apply filter_length_ext.
    eapply Forall2_impl; [exact H|]. intros n n' (_ & _ & _ & -> & _). done.
  - intros i n' c Hn' Hc. destruct (Forall2_lookup_r _ _ _ _ _ H Hn') as (n & Hn & Hs).
    destruct Hs as (_ & _ & _ & Hl & _ & Hconn). rewrite Hconn in Hc.
    destruct (Hfwd i n c Hn Hc) as (t & Ht & Htl).
    destruct (Forall2_lookup_l _ _ _ _ _ H Ht) as (t' & Ht' & Hs').
    exists t'. split; [done|]. destruct Hs' as (_ & _ & _ & -> & _). congruence.
  - intros i n' Hn'. destruct (Forall2_lookup_r _ _ _ _ _ H Hn') as (n & Hn & Hs).
    destruct Hs as (_ & _ & _ & -> & _ & ->). by apply (Hfan i).
Qed.

Lemma draw_engine host st st' : draw host st = Some st' → st'.1 = st.1.
Proof.
  destruct st as [e p]. unfold draw.
  destruct (forEachM (drawConnections host e) _ _) as [[ops k]|]; simpl; [|done].
  destruct (forEachM (drawNode e) _ _) as [ops'|]; simpl; [|done].
  by intros [= <-].
Qed.

Lemma wellFormed_sound e : wellFormed e → sound e.
Proof. by intros (_ & _ & ? & ?). Qed.

(** On any host, the levels stay at or above zero and the colours stay
    parsed. *)
Section Sound.
Variable host : Host.t.
Variable parseColor : string → Color.t.

Lemma update_sound st : sound st.1 → sound (update host st).1.
Proof.
  intros [_ Hcol]. split; [apply update_nonneg|]. by rewrite update_engine.
Qed.

Lemma animate_sound st st' : sound st.1 → animate host st = Some st' → sound st'.1.
Proof.
  intros Hs. unfold animate.
  destruct (draw host (update host st)) as [[e p]|] eqn:Hdraw; simpl; [|done].
  intros [= <-]. apply draw_engine in Hdraw. simpl in *. subst e.
  by apply update_sound in Hs.
Qed.

Lemma setup_sound st st' : setup host parseColor st = Some st' → sound st'.1.
Proof.
  destruct (setup_returns host parseColor st) as (st1 & -> & _ & _ & _ & Hcol & Hrest).
  intros [= <-]. split; [|done].
  intros i n Hn. destruct (Hrest i n Hn) as [-> _]. done.
Qed.

Lemma start_sound st st' :
  sound st.1 → start host parseColor st = Some st' → sound st'.1.
Proof.
  intros Hs. unfold start. destruct (negb _); [|by intros [= <-]].
  destruct (Nat.eqb _ _).
  - destruct (setup host parseColor st) as [[e1 p1]|] eqn:Hsetup; simpl; [|done].
    apply setup_sound in Hsetup. by intros [= <-].
  - destruct st as [e p]. simpl. by intros [= <-].
Qed.

Lemma stop_sound st : sound st.1 → sound (stop st).1.
Proof.
  destruct st as [e p]. unfold stop. by destruct (Engine.animationFrameId e) as [[|h]|].
Qed.

Lemma handleResize_sound st st' :
  handleResize host parseColor st = Some st' → sound st'.1.
Proof.
  unfold handleResize.
  destruct (setup host parseColor (stop st)) as [st1|] eqn:Hsetup; simpl; [|done].
  apply setup_sound in Hsetup. by apply start_sound.
Qed.

Lemma create_sound options p st :
  createNeuralNetworkAnimation host parseColor options p = Some st → sound st.1.
Proof.
  unfold createNeuralNetworkAnimation.
  destruct (setup host parseColor _) as [st1|] eqn:Hsetup; simpl; [|done].
  apply setup_sound in Hsetup. by apply start_sound.
Qed.

Lemma run_sound op st st' :
  sound st.1 → run host parseColor op st = Some st' → sound st'.1.
Proof.
  intros Hs. destruct op; simpl.
  - by apply start_sound.
  - intros [= <-]. by apply stop_sound.
  - unfold setConfig. destruct st as [e p]. destruct (truthy _).
    + apply handleResize_sound.
    + apply setup_sound.
  - destruct (Page.resizeListener _).
    + apply handleResize_sound.
    + by intros [= <-].
  - destruct (decide _); [|done]. by apply animate_sound.
Qed.

Lemma reachable_sound st : reachable host parseColor st → sound st.1.
Proof.
  induction 1 as [options p st Hcreate | op st st' _ IH Hrun].
  - by eapply create_sound.
  - by eapply run_sound.
Qed.

End Sound.

Section Machine.
Variable host : Host.t.
Hypothesis sort_ok : sortPermutes host.
Variable parseColor : string → Color.t.

Lemma update_wellFormed st : wellFormed st.1 → wellFormed (update host st).1.
Proof.
  intros (Hsync & Hlay & _ & Hcol).
  pose proof (update_sameTopology host st) as Htop.
  pose proof (update_nonneg host st) as Hnn.
  rewrite update_engine in *. simpl in *.
  split; [|split; [|split]]; simpl.
  - by eapply sameTopology_synced.
  - by eapply sameTopology_layered.
  - exact Hnn.
  - exact Hcol.
Qed.

Lemma animate_wellFormed st st' :
  wellFormed st.1 → animate host st = Some st' → wellFormed st'.1.
Proof.
  intros Hwf. unfold animate.
  destruct (draw host (update host st)) as [[e p]|] eqn:Hdraw; simpl; [|done].
  intros [= <-]. apply draw_engine in Hdraw. simpl in *. subst e.
  by apply update_wellFormed in Hwf.
Qed.

Lemma start_wellFormed st st' :
  wellFormed st.1 → start host parseColor st = Some st' → wellFormed st'.1.
Proof.
  intros Hwf. unfold start. destruct (negb _); [|by intros [= <-]].
  destruct (Nat.eqb _ _).
  - destruct (setup_spec host sort_ok parseColor st) as (st1 & -> & _ & _ & Hwf1 & _).
    destruct st1 as [e1 p1]. simpl. by intros [= <-].
  - destruct st as [e p]. simpl. by intros [= <-].
Qed.

Lemma stop_wellFormed st : wellFormed st.1 → wellFormed (stop st).1.
Proof.
  destruct st as [e p]. unfold stop. by destruct (Engine.animationFrameId e) as [[|h]|].
Qed.

Lemma handleResize_wellFormed st st' :
  handleResize host parseColor st = Some st' → wellFormed st'.1.
Proof.
  unfold handleResize.
  destruct (setup_spec host sort_ok parseColor (stop st)) as (st1 & -> & _ & _ & Hwf1 & _).
  simpl. by apply start_wellFormed.
Qed.

Lemma create_wellFormed options p st :
  createNeuralNetworkAnimation host parseColor options p = Some st → wellFormed st.1.
Proof.
  unfold createNeuralNetworkAnimation.
  match goal with
  | |- context [setup host parseColor ?s] =>
      destruct (setup_spec host sort_ok parseColor s) as (st1 & -> & _ & _ & Hwf1 & _)
  end.
  simpl. by apply start_wellFormed.
Qed.

Lemma run_wellFormed op st st' :
  wellFormed st.1 → run host parseColor op st = Some st' → wellFormed st'.1.
Proof.
  intros Hwf. destruct op; simpl.
  - by apply start_wellFormed.
  - intros [= <-]. by apply stop_wellFormed.
  - unfold setConfig. destruct st as [e p]. destruct (truthy _).
    + apply handleResize_wellFormed.
    + match goal with
      | |- context [setup host parseColor ?s] =>
          destruct (setup_spec host sort_ok parseColor s) as (st1 & -> & _ & _ & Hwf1 & _)
      end.
      by intros [= <-].
  - destruct (Page.resizeListener _).
    + apply handleResize_wellFormed.
    + by intros [= <-].
  - destruct (decide _); [|done]. by apply animate_wellFormed.
Qed.

Lemma reachable_wellFormed st : reachable host parseColor st → wellFormed st.1.
Proof.
  induction 1 as [options p st Hcreate | op st st' _ IH Hrun].
  - by eapply create_wellFormed.
  - by eapply run_wellFormed.
Qed.

End Machine.

(** ** The topology of a well-formed engine *)

Lemma wellFormed_nodeOf e i :
  wellFormed e → i < length (Engine.nodes e) → nodeOf e i = Engine.nodes e !! i.
Proof.
  intros ([_ Hmap] & _) Hi. unfold nodeOf.
  assert (Engine.nodeMap e !! i = Some i) as -> by (by apply Hmap). done.
Qed.

Lemma wellFormed_forward e s c :
  wellFormed e → s ∈ Engine.nodes e → c ∈ Node.connections s →
  ∃ t, nodeOf e (Conn.targetId c) = Some t
       ∧ Node.id t = Conn.targetId c
       ∧ Node.layerIndex t = S (Node.layerIndex s).
Proof.
  intros Hwf Hs Hc. pose proof Hwf as ([Hids _] & (_ & _ & Hfwd & _) & _).
  apply list_elem_of_lookup in Hs as [i Hi].
  destruct (Hfwd i s c Hi Hc) as (t & Ht & Hl).
  exists t. rewrite wellFormed_nodeOf; [|done|by apply lookup_lt_Some in Ht].
  split; [done|]. split; [by apply Hids|done].
Qed.

Lemma wellFormed_last_layer e s :
  wellFormed e → s ∈ Engine.nodes e →
  S (Node.layerIndex s) = length (Config.layers (Engine.config e)) →
  Node.connections s = [].
Proof.
  intros Hwf Hs Hl. destruct (Node.connections s) as [|c cs] eqn:Hc; [done|]. exfalso.
  pose proof Hwf as (_ & (Hlt & _ & Hfwd & _) & _).
  apply list_elem_of_lookup in Hs as [i Hi].
  destruct (Hfwd i s c Hi) as (t & Ht & Htl); [rewrite Hc; by left|].
  apply Hlt in Ht. lia.
Qed.

Lemma wellFormed_path e s t :
  wellFormed e → s ∈ Engine.nodes e → tc (connected e) s t →
  Node.layerIndex s < Node.layerIndex t.
Proof.
  intros Hwf Hs Hpath. induction Hpath as [s t [c [Hc Ht]] | s u t [c [Hc Hu]] _ IH].
  - destruct (wellFormed_forward e s c Hwf Hs Hc) as (t' & Ht' & _ & Hl).
    rewrite Ht in Ht'. injection Ht' as <-. lia.
  - destruct (wellFormed_forward e s c Hwf Hs Hc) as (u' & Hu' & _ & Hl).
    rewrite Hu in Hu'. injection Hu' as <-.
    assert (u ∈ Engine.nodes e).
    { unfold nodeOf in Hu. destruct (Engine.nodeMap e !! Conn.targetId c); [|done].
      simpl in Hu. by apply list_elem_of_lookup_2 in Hu. }
    specialize (IH ltac:(done)). lia.
Qed.

Lemma wellFormed_layerSize e l :
  wellFormed e → layerSize e l = default 0 (Config.layers (Engine.config e) !! l).
Proof. intros (_ & (_ & Hcount & _) & _). apply Hcount. Qed.

Lemma wellFormed_fanout e s :
  wellFormed e → s ∈ Engine.nodes e →
  length (Node.connections s)
  ≤ Nat.min (Config.maxConnectionsPerNode (Engine.config e))
            (layerSize e (S (Node.layerIndex s))).
Proof.
  intros Hwf Hs. rewrite wellFormed_layerSize by done.
  destruct Hwf as (_ & (_ & _ & _ & Hfan) & _).
  apply list_elem_of_lookup in Hs as [i Hi]. by apply (Hfan i).
Qed.

(** ** Signals in a well-formed engine *)

Lemma bind_ext_in {A B : Type} (f g : A → list B) (l : list A) :
  (∀ x, x ∈ l → f x = g x) → l ≫= f = l ≫= g.
Proof.
  induction l as [|x l IH]; intros H; [done|].
  rewrite !bind_cons, H, IH; [done| |by left].
  intros y Hy. apply H. by right.
Qed.

Lemma bind_nil_in {A B : Type} (f : A → list B) (l : list A) :
  (∀ x, x ∈ l → f x = []) → l ≫= f = [].
Proof.
  induction l as [|x l IH]; intros H; [done|].
  rewrite bind_cons, H, IH; [done| |by left].
  intros y Hy. apply H. by right.
Qed.

Lemma wellFormed_signals e j :
  wellFormed e →
  Engine.nodes e ≫= sentBy (Engine.config e) (Engine.nodeMap e) j
  = signalsTo (Engine.config e) (Engine.nodes e) j.
Proof.
  intros Hwf. unfold signalsTo. apply bind_ext_in. intros s Hs.
  unfold sentBy, hits.
  destruct (Qlt_bool _ _).
  - apply bind_ext_in. intros c Hc.
    destruct (wellFormed_forward e s c Hwf Hs Hc) as (t & Ht & _).
    destruct Hwf as ([_ Hmap] & _).
    unfold nodeOf in Ht.
    destruct (Engine.nodeMap e !! Conn.targetId c) as [k|] eqn:Hk; [|done].
    apply Hmap in Hk as [<- _].
    destruct (decide (Conn.targetId c = j)) as [->|Hne].
    + by rewrite decide_True.
    + rewrite decide_False; [done|congruence].
  - symmetry. apply bind_nil_in. intros c _. by destruct (decide _).
Qed.

Lemma wellFormed_input_signals e j t :
  wellFormed e → Engine.nodes e !! j = Some t → Node.layerIndex t = 0 →
  signalsTo (Engine.config e) (Engine.nodes e) j = [].
Proof.
  intros Hwf Ht Hl. unfold signalsTo. apply bind_nil_in. intros s Hs.
  apply bind_nil_in. intros c Hc.
  destruct (decide (Conn.targetId c = j)) as [Hj|]; [|done]. exfalso.
  destruct (wellFormed_forward e s c Hwf Hs Hc) as (t' & Ht' & _ & Hl').
  rewrite Hj, wellFormed_nodeOf in Ht'; [|done|by apply lookup_lt_Some in Ht].
  congruence.
Qed.

(** ** Colours *)

Lemma clamp01_0 t : (t == 0)%Q → (Qmax 0 (Qmin 1 t) == 0)%Q.
Proof.
  intros Ht. destruct (Q.min_spec 1 t) as [[? Hm]|[? Hm]];
    destruct (Q.max_spec 0 (Qmin 1 t)) as [[? HM]|[? HM]]; lra.
Qed.


Lemma lerp_0 s e t : (t == 0)%Q → (lerp s e t == s)%Q.
Proof. intros Ht. unfold lerp. rewrite (clamp01_0 t Ht). ring. Qed.


Lemma Math_round_integer z : Math_round (inject_Z z) = z.
Proof.
  unfold Math_round, Qfloor, inject_Z, Qplus. simpl.
  symmetry. apply Z.div_unique with (r := 1%Z); lia.
Qed.

Lemma lerpChannel_0 a b t :
  (t == 0)%Q → (0 <= a <= 255)%Z → lerpChannel a b t = a.
Proof.
  intros Ht Ha. unfold lerpChannel, Math_round.
  rewrite (lerp_0 _ _ t Ht). fold (Math_round (inject_Z a)).
  rewrite Math_round_integer. lia.
Qed.

Lemma lerpColor_0 c d t : (t == 0)%Q → validColor c → sameColor (lerpColor c d t) c.
Proof.
  intros Ht (Hr & Hg & Hb). pose proof (clamp01_0 t Ht) as Ht'.
  unfold lerpColor, sameColor. simpl.
  rewrite !lerpChannel_0 by done. rewrite lerp_0 by done. done.
Qed.

Lemma paletteAt_Some palette i :
  (0 <= i < Z.of_nat (length palette))%Z → is_Some (paletteAt palette i).
Proof.
  intros Hi. unfold paletteAt.
  destruct (Z.ltb_spec i 0); [lia|]. apply lookup_lt_is_Some_2. lia.
Qed.

(** For an activation between 0 and 1, a palette that has an entry and a
    parsed base colour, the colour mapping of [draw] does not throw. *)
Lemma connectionStyle_returns config palette base a :
  palette ≠ [] → (0 <= a <= 1)%Q →
  is_Some (connectionStyle config palette (Some base) a).
Proof.
  intros Hne Ha. unfold connectionStyle.
  assert (0 < length palette) as Hlen by (destruct palette; [done|simpl; lia]).
  set (last := (Z.of_nat (length palette) - 1)%Z).
  assert (Hidx : (0 <= Qfloor (a * inject_Z last) <= last)%Z).
  { assert (0 <= inject_Z last)%Q as Hl.
    { change 0%Q with (inject_Z 0). rewrite <- Zle_Qle. lia. }
    split.
    - rewrite <- (Qfloor_Z 0). apply Qfloor_resp_le.
      apply Qmult_le_0_compat; [apply Ha|exact Hl].
    - rewrite <- (Qfloor_Z last) at 2. apply Qfloor_resp_le.
      rewrite <- (Qmult_1_l (inject_Z last)) at 2.
      apply Qmult_le_compat_r; [apply Ha|exact Hl]. }
  destruct (paletteAt_Some palette (Qfloor (a * inject_Z last))) as [c0 ->]; [lia|].
  destruct (paletteAt_Some palette (Z.min last (Qfloor (a * inject_Z last) + 1)))
    as [c1 ->]; [lia|].
  simpl. by destruct (Qlt_bool a (1 # 10)).
Qed.

(** ** No call throws *)

Lemma forEachM_returns {A B : Type} (f : A → B → option A) (l : list B) :
  (∀ a b, b ∈ l → is_Some (f a b)) → ∀ a, is_Some (forEachM f a l).
Proof.
  induction l as [|b l IH]; intros Hf a; simpl; [done|].
  destruct (Hf a b) as [a' ->]; [by left|]. simpl.
  apply IH. intros a1 b1 Hb1. apply Hf. by right.
Qed.

Lemma draw_returns host st : sound st.1 → is_Some (draw host st).
Proof.
  destruct st as [e p]. intros (Hnn & Hne & [dim Hdim] & [act Hact] & [base Hbase]).
  simpl in *. unfold draw.
  destruct (forEachM_returns (drawConnections host e) (Engine.nodes e)) with
    (a := ([ClearRect (Page.canvasWidth p) (Page.canvasHeight p)], Page.randomCalls p))
    as [[ops k] ->].
  { intros acc s Hs. unfold drawConnections.
    destruct (Qlt_bool _ _) eqn:Hskip; [done|].
    apply list_elem_of_lookup in Hs as [i Hi]. apply Hnn in Hi.
    rewrite Hbase.
    destruct (connectionStyle_returns (Engine.config e)
                (Engine.parsedActiveConnectionColors e) base
                (Qmin 1 (Node.activationLevel s)) Hne) as [style ->].
    { split; [|apply Q.le_min_l].
      destruct (Q.min_spec 1 (Node.activationLevel s)) as [[_ ->]|[_ ->]]; lra. }
    simpl. by destruct (_ || _). }
  simpl.
  destruct (forEachM_returns (drawNode e) (Engine.nodes e)) with (a := ops) as [ops' ->].
  { intros acc s _. unfold drawNode. rewrite Hdim, Hact. simpl.
    destruct (_ && _); [done|]. by destruct (_ || _). }
  done.
Qed.

Lemma animate_returns host st : sound st.1 → is_Some (animate host st).
Proof.
  intros Hs. unfold animate.
  destruct (draw_returns host (update host st)) as [[e p] ->].
  { by apply update_sound. }
  done.
Qed.

Section Returns.
Variable host : Host.t.
Variable parseColor : string → Color.t.

Lemma start_returns st : is_Some (start host parseColor st).
Proof.
  unfold start. destruct (negb _); [|done].
  destruct (Nat.eqb _ _).
  - destruct (setup_returns host parseColor st) as ([e1 p1] & -> & _). done.
  - by destruct st.
Qed.



End Returns.

(** ** The example host *)

Lemma insertBy_perm {S : Type} (cmp : nat → nat → S → Q * S) x : ∀ l s,
  (insertBy cmp x l s).1 ≡ₚ x :: l.
Proof.
  induction l as [|y l IH]; intros s; simpl; [done|].
  destruct (cmp x y s) as [c s']. destruct (Qle_bool c 0); [done|].
  specialize (IH s'). destruct (insertBy cmp x l s') as [r s'']. simpl in *.
  rewrite IH. apply Permutation_swap.
Qed.

Lemma insertionSort_perm {S : Type} (cmp : nat → nat → S → Q * S) : ∀ l s,
  (insertionSort cmp l s).1 ≡ₚ l.
Proof.
  induction l as [|x l IH]; intros s; simpl; [done|].
  specialize (IH s). destruct (insertionSort cmp l s) as [sorted s']. simpl in *.
  by rewrite insertBy_perm, IH.
Qed.

Lemma listHost_sortPermutes randoms : sortPermutes (listHost randoms).
Proof. intros S cmp l s. apply insertionSort_perm. Qed.

Lemma create_returns (host : Host.t) (parseColor : string → Color.t) options p :
  ∃ st, createNeuralNetworkAnimation host parseColor options p = Some st.
Proof.
  unfold createNeuralNetworkAnimation.
  match goal with
  | |- context [setup host parseColor ?s] =>
      destruct (setup_returns host parseColor s) as (st1 & -> & _)
  end.
  apply start_returns.
Qed.

Lemma afterFrames_reachable (host : Host.t) (parseColor : string → Color.t) options frames :
  reachable host parseColor (afterFrames host parseColor options frames).
Proof.
  induction frames as [|n IH]; cbn [afterFrames].
  - destruct (create_returns host parseColor options freshPage) as [st Hst].
    rewrite Hst. simpl. by eapply reachable_created.
  - destruct (run host parseColor (FrameRun (S n)) (afterFrames host parseColor options n))
      as [st'|] eqn:Hrun; simpl; [|done].
    by eapply reachable_run.
Qed.

Lemma chainBefore_reachable : reachable chainHost parseKnown chainBefore.
Proof. apply afterFrames_reachable. Qed.

Lemma restBefore_reachable : reachable restHost parseKnown restBefore.
Proof. apply afterFrames_reachable. Qed.

(** ** Runs under a threshold that is not zero *)








(** * The properties *)

(** C1. In the topology that [setup] builds, whatever the state it starts
    from, every connection leads to a node of the next layer: its target id
    is the id of a node, found by [nodeMap], whose layer index is the layer
    index of the source plus one.  Hence the nodes of the last layer have no
    connection, and no path of connections comes back to the node it
    left. *)
Theorem setup_forward_only (host : Host.t) (parseColor : string → Color.t) (st : State) :
  sortPermutes host →
  ∃ st', setup host parseColor st = Some st'
         ∧ forwardOnly st'.1 ∧ lastLayerClosed st'.1 ∧ acyclic st'.1.
Proof.
  intros Hsort.
  destruct (setup_spec host Hsort parseColor st) as (st' & Heq & _ & _ & Hwf & _).
  exists st'. split; [done|]. split; [|split].
  - intros s c. by apply wellFormed_forward.
  - intros s. by apply wellFormed_last_layer.
  - intros s Hs Hpath. pose proof (wellFormed_path _ _ _ Hwf Hs Hpath). lia.
Qed.

Lemma setup_forward_only_witness :
  sortPermutes smallHost
  ∧ ∃ st', setup smallHost parseKnown smallCreated = Some st'
           ∧ forwardOnly st'.1 ∧ lastLayerClosed st'.1 ∧ acyclic st'.1.
Proof.
  split; [apply listHost_sortPermutes|].
  apply (setup_forward_only smallHost parseKnown smallCreated).
  apply listHost_sortPermutes.
Defined.

(** C6. In the topology that [setup] builds, a node has at most
    [min(maxConnectionsPerNode, size of the next layer)] connections, the
    size of a layer being the number of nodes that carry its index; and when
    [layers] has one entry no node has a connection. *)
Theorem setup_fanout_bound (host : Host.t) (parseColor : string → Color.t) (st : State) :
  sortPermutes host →
  ∃ st', setup host parseColor st = Some st'
         ∧ fanoutBounded st'.1
         ∧ (length (Config.layers (Engine.config st'.1)) = 1 → isolated st'.1).
Proof.
  intros Hsort.
  destruct (setup_spec host Hsort parseColor st) as (st' & Heq & _ & _ & Hwf & _).
  exists st'. split; [done|]. split.
  - intros s. by apply wellFormed_fanout.
  - intros Hone s Hs. apply (wellFormed_last_layer _ _ Hwf Hs).
    pose proof Hwf as (_ & (Hlt & _) & _).
    apply list_elem_of_lookup in Hs as [i Hi]. apply Hlt in Hi. lia.
Qed.

Lemma setup_fanout_bound_witness :
  sortPermutes smallHost
  ∧ ∃ st', setup smallHost parseKnown smallCreated = Some st'
           ∧ fanoutBounded st'.1
           ∧ (length (Config.layers (Engine.config st'.1)) = 1 → isolated st'.1).
Proof.
  split; [apply listHost_sortPermutes|].
  apply (setup_fanout_bound smallHost parseKnown smallCreated).
  apply listHost_sortPermutes.
Defined.

(** C3. In a tick of a created animation, the second loop of [update]
    leaves in [incomingSignal] of every node the sum of
    [activationLevel × signalPropagationSpeed] over the connections that
    target the node from sources above [minActivationLevel], the levels being
    those the tick started with; the loop changes no activation level; the
    third loop does not touch the signal; and a node of the input layer is
    left with no signal. *)
Theorem update_reads_snapshot (host : Host.t) (parseColor : string → Color.t)
    (st : State) (j : nat) (t : Node.t) :
  sortPermutes host →
  reachable host parseColor st →
  Engine.nodes st.1 !! j = Some t →
  snapshotRule host st j t.
Proof.
  intros Hsort Hreach Ht.
  pose proof (reachable_wellFormed host Hsort parseColor st Hreach) as Hwf.
  pose proof (propagate_lookup (Engine.config st.1) (Engine.nodeMap st.1)
                (Engine.nodes st.1) j) as Hp.
  rewrite Ht in Hp. simpl in Hp.
  destruct (update_lookup host st j t Ht) as [c Hu].
  eexists _, _. split; [exact Hp|]. split; [exact Hu|].
  rewrite updateNode_signal. simpl.
  assert (Node.id t = j) as ->.
  { destruct Hwf as ([Hids _] & _). by apply Hids. }
  rewrite (wellFormed_signals st.1 j Hwf).
  split; [|split; [done|split; [done|]]].
  - rewrite foldl_Qplus_sum. ring.
  - intros Hl. by rewrite (wellFormed_input_signals st.1 j t Hwf Ht Hl).
Qed.

Lemma update_reads_snapshot_witness :
  sortPermutes chainHost
  ∧ reachable chainHost parseKnown chainBefore
  ∧ ∃ t, Engine.nodes chainBefore.1 !! 1 = Some t ∧ snapshotRule chainHost chainBefore 1 t.
Proof.
  split; [apply listHost_sortPermutes|].
  split; [apply chainBefore_reachable|].
  destruct (Engine.nodes chainBefore.1 !! 1) as [t|] eqn:Ht;
    [|vm_compute in Ht; discriminate Ht].
  exists t. split; [reflexivity|].
  apply (update_reads_snapshot chainHost parseKnown chainBefore 1 t).
  - apply listHost_sortPermutes.
  - apply chainBefore_reachable.
  - exact Ht.
Defined.




(** C10. A call of [update] keeps the topology: [nodes] has the same length
    and at every position the same [id], [x], [y], [layerIndex],
    [baseRadius] and [connections]; [nodeMap], [nextNodeId] and the
    configuration are the same. *)
Theorem update_keeps_topology (host : Host.t) (st : State) :
  Forall2 sameTopology (Engine.nodes st.1) (Engine.nodes (update host st).1)
  ∧ Engine.nodeMap (update host st).1 = Engine.nodeMap st.1
  ∧ Engine.nextNodeId (update host st).1 = Engine.nextNodeId st.1
  ∧ Engine.config (update host st).1 = Engine.config st.1.
Proof.
  split; [apply update_sameTopology|]. by rewrite update_engine.
Qed.

(** C2, as the code has it.  Under a threshold that is not zero, a node
    outside the input layer whose signal [S] of the tick reaches
    [activationThreshold] ends the tick at
    [max(0, max(d, 0.1) + activationBoost × (S / activationThreshold))],
    where [d] is its level after the decay that opens step 3: the level minus
    [decayRate] if it was above [minActivationLevel], the level itself
    otherwise.  The outer [max(0, ·)] changes nothing when [activationBoost]
    is not negative and [activationThreshold] is positive. *)
Theorem threshold_trigger (host : Host.t) (st : State) (i : nat) (n n' : Node.t) :
  Engine.nodes st.1 !! i = Some n →
  Engine.nodes (update host st).1 !! i = Some n' →
  Node.layerIndex n ≠ 0 →
  thresholdNonzero (Engine.config st.1) →
  (Config.activationThreshold (Engine.config st.1) <= Node.incomingSignal n')%Q →
  thresholdRule (Engine.config st.1) n n'.
Proof.
  intros Hn Hn' Hlayer _ HS. unfold thresholdRule. cbv zeta.
  pose proof (update_activation host st i n n' Hn Hn') as Hact. cbv zeta in Hact.
  apply Nat.eqb_neq in Hlayer. rewrite Hlayer in Hact.
  apply Qle_bool_iff in HS. rewrite HS in Hact.
  unfold decay in Hact.
  set (config := Engine.config st.1) in *.
  set (d := if Qlt_bool (Config.minActivationLevel config) (Node.activationLevel n)
            then (Node.activationLevel n - Config.decayRate config)%Q
            else Node.activationLevel n) in *.
  split; [exact Hact|]. intros Hboost Hthr. rewrite Hact.
  apply Q.max_r.
  apply Qle_bool_iff in HS.
  assert (0 <= Node.incomingSignal n' / Config.activationThreshold config)%Q as Hdiv.
  { apply Qle_shift_div_l; [done|]. lra. }
  pose proof (Q.le_max_r d (1 # 10)).
  pose proof (Qmult_le_0_compat _ _ Hboost Hdiv).
  lra.
Qed.

Lemma threshold_trigger_witness :
  ∃ n n',
    Engine.nodes chainBefore.1 !! 1 = Some n
    ∧ Engine.nodes (update chainHost chainBefore).1 !! 1 = Some n'
    ∧ Node.layerIndex n ≠ 0
    ∧ thresholdNonzero (Engine.config chainBefore.1)
    ∧ (Config.activationThreshold (Engine.config chainBefore.1) <= Node.incomingSignal n')%Q
    ∧ thresholdRule (Engine.config chainBefore.1) n n'.
Proof.
  destruct (Engine.nodes chainBefore.1 !! 1) as [n|] eqn:Hn;
    [|vm_compute in Hn; discriminate Hn].
  destruct (Engine.nodes (update chainHost chainBefore).1 !! 1) as [n'|] eqn:Hn';
    [|vm_compute in Hn'; discriminate Hn'].
  assert (Hl : Node.layerIndex n ≠ 0).
  { pose proof Hn as Hc. vm_compute in Hc. injection Hc as <-.
    vm_compute. intros Hz; discriminate Hz. }
  assert (Hnz : thresholdNonzero (Engine.config chainBefore.1)).
  { unfold thresholdNonzero. vm_compute. intros Hz; discriminate Hz. }
  assert (HS : (Config.activationThreshold (Engine.config chainBefore.1)
                <= Node.incomingSignal n')%Q).
  { pose proof Hn' as Hc. vm_compute in Hc. injection Hc as <-.
    vm_compute. intros Hz; discriminate Hz. }
  exists n, n'. split; [reflexivity|]. split; [reflexivity|].
  split; [exact Hl|]. split; [exact Hnz|]. split; [exact HS|].
  exact (threshold_trigger chainHost chainBefore 1 n n' Hn Hn' Hl Hnz HS).
Defined.

(** C2, as the claim states it, fails: in the third frame of the chain of
    two nodes, the second node starts at 17/2 and receives 37/20, above the
    threshold 1/2; it ends at 313/20 (the level decayed to 33/4, plus
    2 × (37/20) / (1/2)) and not at max(17/2, 0.1) + 2 × (37/20) / (1/2)
    = 159/10. *)
Lemma threshold_trigger_counterexample :
  reachable chainHost parseKnown chainBefore
  ∧ (Node.layerIndex <$> Engine.nodes chainBefore.1 !! 1) = Some 1
  ∧ (activationAt chainBefore 1 == 17 # 2)%Q
  ∧ (signalAt (update chainHost chainBefore) 1 == 37 # 20)%Q
  ∧ (Config.activationThreshold (Engine.config chainBefore.1)
     <= signalAt (update chainHost chainBefore) 1)%Q
  ∧ (activationAt (update chainHost chainBefore) 1 == 313 # 20)%Q
  ∧ ¬ (activationAt (update chainHost chainBefore) 1
       == Qmax (activationAt chainBefore 1) (1 # 10)
          + Config.activationBoost (Engine.config chainBefore.1)
            * (signalAt (update chainHost chainBefore) 1
               / Config.activationThreshold (Engine.config chainBefore.1)))%Q.
Proof.
  split; [apply chainBefore_reachable|].
  split; [vm_compute; reflexivity|].
  split; [vm_compute; reflexivity|].
  split; [vm_compute; reflexivity|].
  split; [vm_compute; intros Hz; discriminate Hz|].
  split; [vm_compute; reflexivity|].
  vm_compute. intros Hz; discriminate Hz.
Qed.

(** The scenario of two nodes: with the first node at level 1, the second
    receives the signal 1 and ends the tick at 0.1 + 1.5 × (1 / 0.6) = 2.6;
    it started from 0, which the decay leaves alone. *)
Example scenario_two_nodes :
  (activationAt scenarioState 1 == 0)%Q
  ∧ (signalAt (update smallHost scenarioState) 1 == 1)%Q
  ∧ (activationAt (update smallHost scenarioState) 1 == 26 # 10)%Q.
Proof.
  split; [vm_compute; reflexivity|].
  split; [vm_compute; reflexivity|].
  vm_compute. reflexivity.
Qed.

(** C5, as the code has it.  A node that gets no boost in a tick (for an
    input node, its call of [Math.random()] returns at least
    [inputActivationProbability]; for another node, its signal stays below
    [activationThreshold]) ends the tick at [max(0, level − decayRate)] when
    its level was above [minActivationLevel], which is not above the level
    when the level and [decayRate] are not negative; a level at or below
    [minActivationLevel] does not decay: the node ends at [max(0, level)],
    the level itself when it is not negative. *)
Theorem decay_without_boost (host : Host.t) (st : State) (i : nat) (n n' : Node.t) :
  Engine.nodes st.1 !! i = Some n →
  Engine.nodes (update host st).1 !! i = Some n' →
  (Node.layerIndex n = 0 →
   (Config.inputActivationProbability (Engine.config st.1)
    <= Host.Math_random host (Page.randomCalls st.2 + inputsBefore (Engine.nodes st.1) i))%Q) →
  (Node.layerIndex n ≠ 0 →
   (Node.incomingSignal n' < Config.activationThreshold (Engine.config st.1))%Q) →
  decayRule (Engine.config st.1) n n'.
Proof.
  intros Hn Hn' Hinput Hother. unfold decayRule.
  pose proof (update_activation host st i n n' Hn Hn') as Hact. cbv zeta in Hact.
  assert (Hd : Node.activationLevel n'
               = Qmax 0 (decay (Engine.config st.1) (Node.activationLevel n))).
  { rewrite Hact. destruct (Nat.eqb_spec (Node.layerIndex n) 0) as [Hl|Hl].
    - apply Hinput in Hl. apply Qlt_bool_false in Hl. by rewrite Hl.
    - apply Hother in Hl. apply Qle_bool_false in Hl. by rewrite Hl. }
  set (config := Engine.config st.1) in *.
  set (level := Node.activationLevel n) in *.
  rewrite Hd. unfold decay. split.
  - intros Habove. apply Qlt_bool_iff in Habove. rewrite Habove. split; [done|].
    intros Hdecay Hlevel.
    destruct (Q.max_spec 0 (level - Config.decayRate config)) as [[_ ->]|[_ ->]]; lra.
  - intros Hbelow. apply Qlt_bool_false in Hbelow. rewrite Hbelow. split; [done|].
    intros Hlevel. by apply Q.max_r.
Qed.

(** In the third frame of the chain the input node, at 37/20 and above the
    minimum activation level, is not fired: it decays to 8/5. *)
Lemma decay_without_boost_witness :
  ∃ n n',
    Engine.nodes chainBefore.1 !! 0 = Some n
    ∧ Engine.nodes (update chainHost chainBefore).1 !! 0 = Some n'
    ∧ Node.layerIndex n = 0
    ∧ (Config.inputActivationProbability (Engine.config chainBefore.1)
       <= Host.Math_random chainHost
            (Page.randomCalls chainBefore.2 + inputsBefore (Engine.nodes chainBefore.1) 0))%Q
    ∧ (Config.minActivationLevel (Engine.config chainBefore.1) < Node.activationLevel n)%Q
    ∧ decayRule (Engine.config chainBefore.1) n n'
    ∧ Node.activationLevel n'
      = Qmax 0 (Node.activationLevel n - Config.decayRate (Engine.config chainBefore.1))
    ∧ (Node.activationLevel n == 37 # 20)%Q
    ∧ (Node.activationLevel n' == 8 # 5)%Q.
Proof.
  destruct (Engine.nodes chainBefore.1 !! 0) as [n|] eqn:Hn;
    [|vm_compute in Hn; discriminate Hn].
  destruct (Engine.nodes (update chainHost chainBefore).1 !! 0) as [n'|] eqn:Hn';
    [|vm_compute in Hn'; discriminate Hn'].
  assert (Hl : Node.layerIndex n = 0).
  { pose proof Hn as Hc. vm_compute in Hc. injection Hc as <-. reflexivity. }
  assert (Hr : (Config.inputActivationProbability (Engine.config chainBefore.1)
                <= Host.Math_random chainHost
                     (Page.randomCalls chainBefore.2
                      + inputsBefore (Engine.nodes chainBefore.1) 0))%Q).
  { vm_compute. intros Hz; discriminate Hz. }
  assert (Ha : (Config.minActivationLevel (Engine.config chainBefore.1)
                < Node.activationLevel n)%Q).
  { pose proof Hn as Hc. vm_compute in Hc. injection Hc as <-. vm_compute. reflexivity. }
  assert (Hrule : decayRule (Engine.config chainBefore.1) n n').
  { apply (decay_without_boost chainHost chainBefore 0 n n' Hn Hn').
    - intros _. exact Hr.
    - intros Hne. destruct (Hne Hl). }
  exists n, n'. split; [reflexivity|]. split; [reflexivity|].
  split; [exact Hl|]. split; [exact Hr|]. split; [exact Ha|]. split; [exact Hrule|].
  split; [exact (proj1 (proj1 Hrule Ha))|].
  split.
  - pose proof Hn as Hc. vm_compute in Hc. injection Hc as <-. vm_compute. reflexivity.
  - pose proof Hn' as Hc. vm_compute in Hc. injection Hc as <-. vm_compute. reflexivity.
Defined.

(** C5, as the claim states it, fails: the single input node, fired in the
    first frame, stands at 7/20, not above the minimum activation level 1/2;
    in the second frame its call of [Math.random()] returns 1/2, not below
    the probability 1/2, so it gets no boost; it ends the frame at 7/20, not
    at max(0, 7/20 − 1/4) = 1/10, and not below where it started. *)
Lemma decay_without_boost_counterexample :
  reachable restHost parseKnown restBefore
  ∧ (Node.layerIndex <$> Engine.nodes restBefore.1 !! 0) = Some 0
  ∧ (Config.inputActivationProbability (Engine.config restBefore.1)
     <= Host.Math_random restHost
          (Page.randomCalls restBefore.2 + inputsBefore (Engine.nodes restBefore.1) 0))%Q
  ∧ (Config.decayRate (Engine.config restBefore.1) == 1 # 4)%Q
  ∧ (activationAt restBefore 0 == 7 # 20)%Q
  ∧ (activationAt (update restHost restBefore) 0 == 7 # 20)%Q
  ∧ ¬ (activationAt (update restHost restBefore) 0
       == Qmax 0 (activationAt restBefore 0 - Config.decayRate (Engine.config restBefore.1)))%Q
  ∧ ¬ (activationAt (update restHost restBefore) 0 < activationAt restBefore 0)%Q.
Proof.
  split; [apply restBefore_reachable|].
  split; [vm_compute; reflexivity|].
  split; [vm_compute; intros Hz; discriminate Hz|].
  split; [vm_compute; reflexivity|].
  split; [vm_compute; reflexivity|].
  split; [vm_compute; reflexivity|].
  split; [vm_compute; intros Hz; discriminate Hz|].
  vm_compute. intros Hz; discriminate Hz.
Qed.

(** Why the decayed level is said to be not above the level, and not below
    it: in doubles a decay rate that is small enough is absorbed.  Under the
    decay rate 1e-17 a node at 1.6, above the minimum activation level and
    with no signal, ends the tick at 1.6. *)
Example decay_absorbed :
  PrimFloat.ltb PrimFloat.zero (Double.ofQ (Config.decayRate slowDecayConfig)) = true
  ∧ PrimFloat.ltb (Double.ofQ (Config.minActivationLevel slowDecayConfig))
                  (Double.ofQ (16 # 10)) = true
  ∧ PrimFloat.eqb (Double.levelAfter slowDecayConfig (Double.ofQ (16 # 10)) PrimFloat.zero)
                  (Double.ofQ (16 # 10)) = true.
Proof. split; [|split]; vm_compute; reflexivity. Qed.




(** C9. From any state [start] returns, and a second [start] right after
    it changes nothing; a second [stop] right after a [stop] changes
    nothing.  The state is the variables of the closure, the canvas and the
    window with its pending frame requests and its resize listener. *)
Theorem start_stop_idempotent (host : Host.t) (parseColor : string → Color.t) (st : State) :
  (∃ st1, start host parseColor st = Some st1 ∧ start host parseColor st1 = Some st1)
  ∧ stop (stop st) = stop st.
Proof.
  split.
  - destruct (start_returns host parseColor st) as [st1 Hst1].
    exists st1. split; [done|]. revert Hst1. unfold start at 1.
    destruct (truthy (Engine.animationFrameId st.1)) eqn:Hid; simpl.
    + intros [= <-]. unfold start. by rewrite Hid.
    + destruct (if Nat.eqb _ _ then _ else _) as [[e p]|]; simpl; [|done].
      intros [= <-]. done.
  - destruct st as [e p]. unfold stop at 2.
    destruct (Engine.animationFrameId e) as [[|h]|] eqn:Hid; simpl; by rewrite ?Hid.
Qed.

(** C8. With an empty [activeConnectionColors], [processColors] leaves a
    palette of one entry, the colour parsed from its fallback string;
    [setup] returns with that palette, the colour mapping of [draw] finds its
    colours in it at every activation from 0 to 1, and, under a threshold
    that is not zero, the frame that follows is computed and drawn with
    it. *)
Theorem empty_palette_fallback (host : Host.t) (parseColor : string → Color.t) (st : State) :
  Config.activeConnectionColors (Engine.config st.1) = [] →
  Engine.parsedActiveConnectionColors (processColors parseColor st.1)
  = [parseColor fallbackColorString]
  ∧ ∃ st1 base,
      setup host parseColor st = Some st1
      ∧ Engine.parsedActiveConnectionColors st1.1 = [parseColor fallbackColorString]
      ∧ Engine.parsedConnectionColor st1.1 = Some base
      ∧ (∀ a, (0 <= a <= 1)%Q →
           is_Some (connectionStyle (Engine.config st1.1)
                      [parseColor fallbackColorString] (Some base) a))
      ∧ (thresholdNonzero (Engine.config st.1) →
         ∃ st2, animate host st1 = Some st2
                ∧ Engine.parsedActiveConnectionColors st2.1
                  = [parseColor fallbackColorString]).
Proof.
  intros Hempty.
  assert (Hp : Engine.parsedActiveConnectionColors (processColors parseColor st.1)
               = [parseColor fallbackColorString]).
  { unfold processColors. simpl. by rewrite Hempty. }
  split; [exact Hp|].
  destruct (setup_returns host parseColor st) as (st1 & Hst1 & _ & _ & Hp1 & Hcol & _).
  rewrite Hp in Hp1.
  destruct Hcol as (_ & _ & _ & [base Hbase]).
  exists st1, base. split; [done|]. split; [done|]. split; [done|]. split.
  - intros a Ha. by apply connectionStyle_returns.
  - intros _.
    destruct (animate_returns host st1 (setup_sound host parseColor st st1 Hst1))
      as [st2 Hst2].
    exists st2. split; [done|].
    unfold animate in Hst2.
    destruct (draw host (update host st1)) as [[e p]|] eqn:Hdraw; simpl in Hst2; [|done].
    injection Hst2 as <-. apply draw_engine in Hdraw. simpl in *. subst e.
    by rewrite update_engine.
Qed.

Lemma empty_palette_fallback_witness :
  Config.activeConnectionColors (Engine.config noPaletteCreated.1) = []
  ∧ thresholdNonzero (Engine.config noPaletteCreated.1)
  ∧ Engine.parsedActiveConnectionColors (processColors parseKnown noPaletteCreated.1)
    = [parseKnown fallbackColorString]
  ∧ ∃ st1 st2 base,
      setup smallHost parseKnown noPaletteCreated = Some st1
      ∧ Engine.parsedActiveConnectionColors st1.1 = [parseKnown fallbackColorString]
      ∧ Engine.parsedConnectionColor st1.1 = Some base
      ∧ is_Some (connectionStyle (Engine.config st1.1)
                   [parseKnown fallbackColorString] (Some base) (1 # 2))
      ∧ animate smallHost st1 = Some st2
      ∧ Engine.parsedActiveConnectionColors st2.1 = [parseKnown fallbackColorString].
Proof.
  assert (He : Config.activeConnectionColors (Engine.config noPaletteCreated.1) = [])
    by (vm_compute; reflexivity).
  assert (Hnz : thresholdNonzero (Engine.config noPaletteCreated.1)).
  { unfold thresholdNonzero. vm_compute. intros Hz; discriminate Hz. }
  split; [exact He|]. split; [exact Hnz|].
  destruct (empty_palette_fallback smallHost parseKnown noPaletteCreated He)
    as (Hp & st1 & base & Hst1 & Hp1 & Hbase & Hstyle & Hframe).
  split; [exact Hp|].
  destruct (Hframe Hnz) as (st2 & Hst2 & Hp2).
  exists st1, st2, base.
  split; [exact Hst1|]. split; [exact Hp1|]. split; [exact Hbase|].
  split; [apply Hstyle; lra|]. split; [exact Hst2|exact Hp2].
Defined.

(** * Further properties *)

(** ** Interpolation and colours *)

Lemma clamp01_range t : (0 <= Qmax 0 (Qmin 1 t) <= 1)%Q.
Proof.
  split; [apply Q.le_max_l|].
  apply Q.max_lub; [lra|apply Q.le_min_l].
Qed.

(** X3. Whatever the two colours and the amount, [lerpColor] gives channels
    between 0 and 255. *)
Theorem lerpColor_in_range (c d : Color.t) (t : Q) :
  validColor (lerpColor c d t).
Proof. unfold validColor, lerpColor, lerpChannel. simpl. lia. Qed.

Lemma Math_round_bounds q : (inject_Z (Math_round q) - (1 # 2) <= q
                             < inject_Z (Math_round q) + (1 # 2))%Q.
Proof.
  unfold Math_round. pose proof (Qfloor_le (q + (1 # 2))) as Hle.
  pose proof (Qlt_floor (q + (1 # 2))) as Hlt.
  rewrite inject_Z_plus in Hlt. change (inject_Z 1) with 1%Q in Hlt.
  set (n := inject_Z (Qfloor (q + (1 # 2)))) in *. split; lra.
Qed.

(** X4. The colour that [rgbaToString] spells has the channels it was
    given, and an alpha between 0 and 1 that is at most 0.0005 above the
    alpha clamped to that range, and less than 0.0005 below it. *)
Theorem rgbaToString_alpha (c : Color.t) :
  let clamped := Qmax 0 (Qmin 1 (Color.a c)) in
  Color.r (rgbaToString c) = Color.r c
  ∧ Color.g (rgbaToString c) = Color.g c
  ∧ Color.b (rgbaToString c) = Color.b c
  ∧ (0 <= Color.a (rgbaToString c) <= 1)%Q
  ∧ (Color.a (rgbaToString c) - (1 # 2000) <= clamped
     < Color.a (rgbaToString c) + (1 # 2000))%Q.
Proof.
  intros clamped. unfold rgbaToString. simpl. fold clamped.
  destruct (clamp01_range (Color.a c)) as [H0 H1]. fold clamped in H0, H1.
  pose proof (Math_round_bounds (clamped * 1000)) as [Hlo Hhi].
  set (n := Math_round (clamped * 1000)) in *.
  assert (0 <= n <= 1000)%Z as [Hn0 Hn1].
  { split.
    - change 0%Z with (Math_round 0). apply Qfloor_resp_le. lra.
    - change 1000%Z with (Math_round 1000). apply Qfloor_resp_le. lra. }
  rewrite Zle_Qle in Hn0, Hn1.
  change (inject_Z 0) with 0%Q in Hn0. change (inject_Z 1000) with 1000%Q in Hn1.
  assert (inject_Z n / 1000 == inject_Z n * (1 # 1000))%Q as Hdiv by (by field).
  repeat split; try done; rewrite ?Hdiv; lra.
Qed.

(** X5. The colour mapping of [draw] throws exactly when the palette index
    [floor(activation × (length − 1))] is not an index of the palette: with
    an empty palette always, with an activation between 0 and 1 and a
    palette that has an entry never. *)
Theorem connectionStyle_defined_iff (config : Config.t) (palette : list Color.t)
    (base : Color.t) (a : Q) :
  let index := Qfloor (a * inject_Z (Z.of_nat (length palette) - 1)) in
  (is_Some (connectionStyle config palette (Some base) a)
   ↔ (0 <= index < Z.of_nat (length palette))%Z)
  ∧ (palette ≠ [] → (0 <= a <= 1)%Q → (0 <= index < Z.of_nat (length palette))%Z).
Proof.
  intros index. split.
  - unfold connectionStyle. fold index. split.
    + intros [s Hs].
      destruct (paletteAt palette index) as [c0|] eqn:H0;
        [|simpl in Hs; discriminate Hs].
      unfold paletteAt in H0. destruct (Z.ltb_spec index 0) as [|Hge]; [done|].
      apply lookup_lt_Some in H0. lia.
    + intros Hi.
      destruct (paletteAt_Some palette index Hi) as [c0 ->].
      destruct (paletteAt_Some palette
                  (Z.min (Z.of_nat (length palette) - 1) (index + 1))) as [c1 ->]; [lia|].
      simpl. by destruct (Qlt_bool a (1 # 10)).
  - intros Hne Ha.
    assert (0 < length palette) as Hlen by (destruct palette; [done|simpl; lia]).
    set (last := (Z.of_nat (length palette) - 1)%Z) in *.
    assert (0 <= inject_Z last)%Q as Hl.
    { change 0%Q with (inject_Z 0). rewrite <- Zle_Qle. lia. }
    assert (0 <= index <= last)%Z; [|lia]. split.
    + rewrite <- (Qfloor_Z 0). apply Qfloor_resp_le.
      apply Qmult_le_0_compat; [apply Ha|exact Hl].
    + rewrite <- (Qfloor_Z last). apply Qfloor_resp_le.
      rewrite <- (Qmult_1_l (inject_Z last)) at 2.
      apply Qmult_le_compat_r; [apply Ha|exact Hl].
Qed.

Lemma connectionStyle_defined_iff_witness :
  ¬ is_Some (connectionStyle defaultConfig [] (Some (Color.mk 80 130 200 (1 # 10))) (1 # 2))
  ∧ is_Some (connectionStyle defaultConfig
               (map parseKnown (Config.activeConnectionColors defaultConfig))
               (Some (Color.mk 80 130 200 (1 # 10))) (1 # 2)).
Proof.
  split.
  - intros H.
    apply (proj1 (connectionStyle_defined_iff defaultConfig []
                    (Color.mk 80 130 200 (1 # 10)) (1 # 2))) in H.
    simpl in H. lia.
  - apply (proj1 (connectionStyle_defined_iff defaultConfig
                    (map parseKnown (Config.activeConnectionColors defaultConfig))
                    (Color.mk 80 130 200 (1 # 10)) (1 # 2))).
    apply (proj2 (connectionStyle_defined_iff defaultConfig
                    (map parseKnown (Config.activeConnectionColors defaultConfig))
                    (Color.mk 80 130 200 (1 # 10)) (1 # 2))).
    + done.
    + lra.
Defined.

(** X6. At an activation of at least 0.1 (below, the base colour is blended
    in) whose product with [length − 1], as the code computes it, is the
    whole number [k], the mapping gives the colour of the stop [k] of the
    palette, when that colour has channels between 0 and 255. *)
Theorem palette_stop_exact (config : Config.t) (palette : list Color.t)
    (base : option Color.t) (k : nat) (c : Color.t) (a : Q) :
  palette !! k = Some c →
  validColor c →
  ((1 # 10) <= a)%Q →
  (a * inject_Z (Z.of_nat (length palette) - 1) == inject_Z (Z.of_nat k))%Q →
  ∃ s, connectionStyle config palette base a = Some s
       ∧ sameColor (Style.color s) c.
Proof.
  intros Hk Hvalid Ha Hprod. unfold connectionStyle.
  pose proof (lookup_lt_Some _ _ _ Hk) as Hklt.
  set (last := (Z.of_nat (length palette) - 1)%Z) in *.
  assert (Qfloor (a * inject_Z last) = Z.of_nat k) as Hfloor.
  { rewrite <- (Qfloor_Z (Z.of_nat k)). by apply Qfloor_comp. }
  rewrite Hfloor.
  assert (paletteAt palette (Z.of_nat k) = Some c) as ->.
  { unfold paletteAt. destruct (Z.ltb_spec (Z.of_nat k) 0); [lia|].
    by rewrite Nat2Z.id. }
  destruct (paletteAt_Some palette (Z.min last (Z.of_nat k + 1))) as [c1 ->]; [lia|].
  apply Qlt_bool_false in Ha. simpl. rewrite Ha. simpl.
  eexists. split; [done|]. simpl.
  apply lerpColor_0; [|done]. rewrite Hprod. ring.
Qed.

Lemma palette_stop_exact_witness :
  map parseKnown (Config.activeConnectionColors defaultConfig) !! 2
  = Some (Color.mk 220 250 255 (95 # 100))
  ∧ validColor (Color.mk 220 250 255 (95 # 100))
  ∧ ((1 # 10) <= 2 # 3)%Q
  ∧ ((2 # 3) * inject_Z (Z.of_nat (length (map parseKnown
                                            (Config.activeConnectionColors defaultConfig)))
                         - 1)
     == inject_Z (Z.of_nat 2))%Q
  ∧ ∃ s, connectionStyle defaultConfig
           (map parseKnown (Config.activeConnectionColors defaultConfig)) None (2 # 3)
         = Some s
         ∧ sameColor (Style.color s) (Color.mk 220 250 255 (95 # 100)).
Proof.
  assert (Hk : map parseKnown (Config.activeConnectionColors defaultConfig) !! 2
               = Some (Color.mk 220 250 255 (95 # 100))) by reflexivity.
  assert (Hv : validColor (Color.mk 220 250 255 (95 # 100)))
    by (unfold validColor; simpl; lia).
  assert (Ha : ((1 # 10) <= 2 # 3)%Q) by (vm_compute; intros Hz; discriminate Hz).
  assert (Hprod : ((2 # 3) * inject_Z (Z.of_nat (length (map parseKnown
                      (Config.activeConnectionColors defaultConfig))) - 1)
                   == inject_Z (Z.of_nat 2))%Q) by (vm_compute; reflexivity).
  split; [exact Hk|]. split; [exact Hv|]. split; [exact Ha|]. split; [exact Hprod|].
  exact (palette_stop_exact defaultConfig
           (map parseKnown (Config.activeConnectionColors defaultConfig)) None 2
           (Color.mk 220 250 255 (95 # 100)) (2 # 3) Hk Hv Ha Hprod).
Defined.

(** ** What [setup] builds, on any host *)

Section SetupEvery.
Variable host : Host.t.
Variable config : Config.t.
Variables canvasHeight startX layerSpacing : Q.
Variable P : Node.t → Prop.

(** [P] holds of a node when [setup] creates it, and adding a connection
    keeps it. *)
Hypothesis P_created :
  ∀ startY totalHeight nodeSpacing nodeCount layerIndex st i,
    i < nodeCount →
    totalHeight = (canvasHeight * Config.vSpacingMultiplier config)%Q →
    startY = ((canvasHeight - totalHeight) / 2)%Q →
    nodeSpacing = (if Nat.ltb 1 nodeCount then totalHeight / (Qnat nodeCount - 1)
                   else totalHeight / 2)%Q →
    ∃ n, Build.nodes (createNode host config (startX + Qnat layerIndex * layerSpacing)
                        startY totalHeight nodeSpacing nodeCount layerIndex st i).1
         = Build.nodes st.1 ++ [n]
         ∧ P n.
Hypothesis P_pushed : ∀ c n, P n → P (Node.push_connection c n).

Lemma pushTargets_every sh c n : P n → P (pushTargets sh c n).
Proof.
  unfold pushTargets. generalize (seq 0 c). intros l. revert n.
  induction l as [|k l IH]; intros n Hn; [done|].
  cbn [foldl]. apply IH. destruct (sh !! k); [by apply P_pushed|done].
Qed.

Lemma connectAll_every current : ∀ sources b b',
  connectAll host config current b sources = Some b' →
  Forall P (Build.nodes b) → Forall P (Build.nodes b').
Proof.
  induction sources as [|s sources IH]; intros b b' Hb HP.
  - by injection Hb as <-.
  - cbn [connectAll] in Hb. unfold connectFrom in Hb.
    destruct (Host.Array_sort host nat (randomOrder host) current (Build.randomCalls b))
      as [sh k].
    destruct (Build.nodeMap b !! s) as [j|].
    + cbn [mbind option_bind] in Hb. apply IH in Hb; [done|]. simpl.
      apply Forall_lookup. intros i n Hn. rewrite list_lookup_alter in Hn.
      rewrite Forall_lookup in HP.
      destruct (decide (j = i)) as [->|_]; [|by apply (HP i)].
      destruct (Build.nodes b !! i) as [n0|] eqn:Hn0; simpl in Hn; [|done].
      injection Hn as <-. apply pushTargets_every. by apply (HP i).
    + destruct (Nat.eqb _ 0); cbn [mbind option_bind] in Hb; [|done].
      by apply IH in Hb.
Qed.

Lemma createNodes_every startY totalHeight nodeSpacing nodeCount layerIndex :
  totalHeight = (canvasHeight * Config.vSpacingMultiplier config)%Q →
  startY = ((canvasHeight - totalHeight) / 2)%Q →
  nodeSpacing = (if Nat.ltb 1 nodeCount then totalHeight / (Qnat nodeCount - 1)
                 else totalHeight / 2)%Q →
  ∀ idxs st,
    Forall (λ i, i < nodeCount) idxs →
    Forall P (Build.nodes st.1) →
    Forall P (Build.nodes
                (foldl (createNode host config (startX + Qnat layerIndex * layerSpacing)
                          startY totalHeight nodeSpacing nodeCount layerIndex) st idxs).1).
Proof.
  intros Hth Hsy Hsp. induction idxs as [|i idxs IH]; intros st Hidx HP; [done|].
  cbn [foldl]. apply Forall_cons in Hidx as [Hi Hidx]. apply IH; [done|].
  destruct (P_created startY totalHeight nodeSpacing nodeCount layerIndex st i Hi Hth Hsy Hsp)
    as (n & -> & Hn).
  apply Forall_app. split; [done|]. by constructor.
Qed.

Lemma buildLayer_every st layerIndex nodeCount st' :
  buildLayer host config canvasHeight startX layerSpacing st layerIndex nodeCount = Some st' →
  Forall P (Build.nodes st.1) → Forall P (Build.nodes st'.1).
Proof.
  destruct st as [b previous]. unfold buildLayer. intros Hb HP.
  match type of Hb with
  | context [foldl (createNode host config ?lx ?sy ?th ?sp ?nc ?li) ?st0 ?idxs] =>
      pose proof (createNodes_every sy th sp nc li eq_refl eq_refl eq_refl idxs st0) as Hc;
      destruct (foldl (createNode host config lx sy th sp nc li) st0 idxs) as [b1 current]
  end.
  simpl in Hc.
  assert (Forall P (Build.nodes b1)) as H1.
  { apply Hc; [|done]. apply Forall_forall. intros i Hi. apply elem_of_seq in Hi. lia. }
  destruct (Nat.ltb 0 layerIndex).
  - destruct (connectAll host config current b1 previous) as [b2|] eqn:Hconn;
      cbn [mbind option_bind] in Hb; [|done].
    injection Hb as <-. by eapply connectAll_every.
  - cbn [mbind option_bind] in Hb. by injection Hb as <-.
Qed.

Lemma forEachLayer_every : ∀ layers st layerIndex st',
  forEachLayer host config canvasHeight startX layerSpacing st layerIndex layers = Some st' →
  Forall P (Build.nodes st.1) → Forall P (Build.nodes st'.1).
Proof.
  induction layers as [|nodeCount layers IH]; intros st layerIndex st' Hst HP.
  - by injection Hst as <-.
  - cbn [forEachLayer] in Hst.
    destruct (buildLayer host config canvasHeight startX layerSpacing st layerIndex nodeCount)
      as [st1|] eqn:H1; cbn [mbind option_bind] in Hst; [|done].
    eapply IH; [exact Hst|]. by eapply buildLayer_every.
Qed.

End SetupEvery.

Lemma setup_every host parseColor (P : Node.t → Prop) st st' :
  (∀ startY totalHeight nodeSpacing nodeCount layerIndex b i,
     i < nodeCount →
     totalHeight = bandHeight (Engine.config st.1) (Page.innerHeight st.2) →
     startY = ((Page.innerHeight st.2 - totalHeight) / 2)%Q →
     nodeSpacing = (if Nat.ltb 1 nodeCount then totalHeight / (Qnat nodeCount - 1)
                    else totalHeight / 2)%Q →
     ∃ n, Build.nodes (createNode host (Engine.config st.1)
                         (columnX (Engine.config st.1) (Page.innerWidth st.2) layerIndex)
                         startY totalHeight nodeSpacing nodeCount layerIndex b i).1
          = Build.nodes b.1 ++ [n]
          ∧ P n) →
  (∀ c n, P n → P (Node.push_connection c n)) →
  setup host parseColor st = Some st' →
  Forall P (Engine.nodes st'.1).
Proof.
  destruct st as [e p]. intros Hcreated Hpushed. unfold setup. cbv zeta.
  destruct (forEachLayer _ _ _ _ _ _ _ _) as [[b prev]|] eqn:Hb;
    cbn [mbind option_bind]; [|done].
  intros [= <-]. cbn [fst Engine.nodes].
  match type of Hb with
  | forEachLayer _ ?c ?h ?x ?sp _ _ _ = _ =>
      exact (forEachLayer_every host c h x sp P Hcreated Hpushed _ _ _ _ Hb
               (Forall_nil_2 P))
  end.
Qed.

(** The node that [createNode] appends. *)
Lemma createNode_appends host config layerX startY totalHeight nodeSpacing nodeCount
    layerIndex st i :
  ∃ n, Build.nodes (createNode host config layerX startY totalHeight nodeSpacing
                      nodeCount layerIndex st i).1 = Build.nodes st.1 ++ [n]
       ∧ Node.layerIndex n = layerIndex
       ∧ Node.activationLevel n = 0%Q ∧ Node.incomingSignal n = 0%Q
       ∧ Node.connections n = []
       ∧ Node.currentRadius n = Node.baseRadius n
       ∧ Node.baseRadius n
         = Qmax 1 (Config.baseNodeRadius config
                   + (Host.Math_random host (Build.randomCalls st.1) - (1 # 2)) * 2
                     * Config.nodeRadiusVariance config)%Q
       ∧ Node.x n
         = (layerX + (Host.Math_random host (Build.randomCalls st.1 + 1) - (1 # 2))
                     * Config.positionJitter config)%Q
       ∧ Node.y n
         = ((if Nat.eqb nodeCount 1 then startY + totalHeight / 2
             else startY + Qnat i * nodeSpacing)
            + (Host.Math_random host (Build.randomCalls st.1 + 2) - (1 # 2))
              * Config.positionJitter config)%Q.
Proof.
  destruct st as [b ids]. unfold createNode. eexists. split; [reflexivity|]. done.
Qed.

(** X7. From any state and on any host, [setup] returns with every node at
    rest: no activation, no signal, a base radius of at least 1 and a
    current radius equal to it. *)
Theorem setup_nodes_fresh (host : Host.t) (parseColor : string → Color.t) (st : State) :
  ∃ st', setup host parseColor st = Some st' ∧ Forall freshNode (Engine.nodes st'.1).
Proof.
  destruct (setup_returns host parseColor st) as (st' & Hst' & _).
  exists st'. split; [done|].
  apply (setup_every host parseColor freshNode st st'); [| |done].
  - intros startY totalHeight nodeSpacing nodeCount layerIndex b i _ _ _ _.
    destruct (createNode_appends host (Engine.config st.1)
                (columnX (Engine.config st.1) (Page.innerWidth st.2) layerIndex)
                startY totalHeight nodeSpacing nodeCount layerIndex b i)
      as (n & Hn & _ & Ha & Hs & _ & Hc & Hb & _).
    exists n. split; [done|]. repeat split; try done.
    rewrite Hb. apply Q.le_max_l.
  - by intros c n (? & ? & ? & ?).
Qed.

(** X8. When [Math.random()] returns numbers from 0 to 1 and
    [nodeRadiusVariance] is not negative, every node that [setup] builds has
    a base radius between [max(1, baseNodeRadius − nodeRadiusVariance)] and
    [max(1, baseNodeRadius + nodeRadiusVariance)]. *)
Theorem setup_radius_range (host : Host.t) (parseColor : string → Color.t) (st : State) :
  randomInUnit host →
  (0 <= Config.nodeRadiusVariance (Engine.config st.1))%Q →
  ∃ st', setup host parseColor st = Some st'
         ∧ Forall (radiusInRange (Engine.config st.1)) (Engine.nodes st'.1).
Proof.
  intros Hrandom Hvar.
  destruct (setup_returns host parseColor st) as (st' & Hst' & _).
  exists st'. split; [done|].
  apply (setup_every host parseColor (radiusInRange (Engine.config st.1)) st st'); [| |done].
  - intros startY totalHeight nodeSpacing nodeCount layerIndex b i _ _ _ _.
    destruct (createNode_appends host (Engine.config st.1)
                (columnX (Engine.config st.1) (Page.innerWidth st.2) layerIndex)
                startY totalHeight nodeSpacing nodeCount layerIndex b i)
      as (n & Hn & _ & _ & _ & _ & _ & Hb & _).
    exists n. split; [done|]. unfold radiusInRange. rewrite Hb.
    destruct (Hrandom (Build.randomCalls b.1)) as [Hr0 Hr1].
    set (r := Host.Math_random host (Build.randomCalls b.1)) in *.
    set (v := Config.nodeRadiusVariance (Engine.config st.1)) in *.
    split; apply Q.max_le_compat_l; nra.
  - by intros c n ?.
Qed.

Lemma listHost_randomInUnit randoms :
  Forall (λ r, 0 <= r < 1)%Q randoms → randomInUnit (listHost randoms).
Proof.
  intros Hall k. simpl. revert k.
  induction Hall as [|r randoms Hr Hall IH]; intros [|k]; simpl;
    solve [lra | done | apply IH].
Qed.

Lemma smallHost_randomInUnit : randomInUnit smallHost.
Proof. apply listHost_randomInUnit. constructor. Qed.

Lemma setup_radius_range_witness :
  randomInUnit smallHost
  ∧ (0 <= Config.nodeRadiusVariance (Engine.config smallCreated.1))%Q
  ∧ ∃ st', setup smallHost parseKnown smallCreated = Some st'
           ∧ Forall (radiusInRange (Engine.config smallCreated.1)) (Engine.nodes st'.1).
Proof.
  assert (Hv : (0 <= Config.nodeRadiusVariance (Engine.config smallCreated.1))%Q).
  { vm_compute. intros Hz; discriminate Hz. }
  split; [apply smallHost_randomInUnit|]. split; [exact Hv|].
  exact (setup_radius_range smallHost parseKnown smallCreated smallHost_randomInUnit Hv).
Defined.





(** ** What a tick does, beyond the levels *)

Lemma updateNode_clock host config k c n :
  (updateNode host config k c n).2.2
  = if Qlt_bool 0 (Config.nodePulseMagnitude config) then S c else c.
Proof.
  unfold updateNode. destruct (trigger _ _ _ _) as [a k'].
  by destruct (Qlt_bool 0 _).
Qed.

Lemma activate_calls host config : ∀ ns k c,
  (activate host config k c ns).2
  = (k + inputsBefore ns (length ns),
     c + if Qlt_bool 0 (Config.nodePulseMagnitude config) then length ns else 0).
Proof.
  induction ns as [|n ns IH]; intros k c.
  - simpl. unfold inputsBefore. simpl.
    destruct (Qlt_bool 0 _); simpl; by rewrite !Nat.add_0_r.
  - simpl. pose proof (updateNode_calls host config k c n) as Hk.
    pose proof (updateNode_clock host config k c n) as Hc.
    destruct (updateNode host config k c n) as [n' [k' c']]. simpl in Hk, Hc.
    specialize (IH k' c'). destruct (activate host config k' c' ns) as [rest kc].
    simpl in *. rewrite IH, Hk, Hc, trigger_calls.
    unfold inputsBefore. simpl. rewrite filter_cons.
    destruct (Nat.eqb_spec (Node.layerIndex n) 0).
    + rewrite decide_True by done. simpl.
      destruct (Qlt_bool 0 _); f_equal; lia.
    + rewrite decide_False by done.
      destruct (Qlt_bool 0 _); f_equal; lia.
Qed.

(** X10. A tick calls [Math.random()] once for every node of the input
    layer and for no other node; it calls [Date.now()] once for every node
    when the pulse magnitude is positive, and not at all otherwise. *)
Theorem update_host_calls (host : Host.t) (st : State) :
  Page.randomCalls (update host st).2 = Page.randomCalls st.2 + layerSize st.1 0
  ∧ Page.clockCalls (update host st).2
    = Page.clockCalls st.2
      + (if Qlt_bool 0 (Config.nodePulseMagnitude (Engine.config st.1))
         then length (Engine.nodes st.1) else 0).
Proof.
  destruct st as [e p]. unfold update. simpl.
  pose proof (activate_calls host (Engine.config e)
                (propagate (Engine.config e) (Engine.nodeMap e) (Engine.nodes e))
                (Page.randomCalls p) (Page.clockCalls p)) as Hcalls.
  destruct (activate _ _ _ _ _) as [ns [k c]]. simpl in *.
  injection Hcalls as -> ->.
  rewrite propagate_length.
  rewrite <- (inputsBefore_ext _ _ (length (Engine.nodes e))
                (propagate_layers (Engine.config e) (Engine.nodeMap e) (Engine.nodes e))).
  unfold inputsBefore, layerSize. by rewrite firstn_all.
Qed.





(** X12. The input rule: a node of the input layer whose call of
    [Math.random()] (the call made after those of the input nodes before it)
    returns less than [inputActivationProbability] ends the tick at
    [max(0, max(d, 0.1) + activationBoost)], where [d] is its level after the
    decay; with a boost that is not negative this is at least
    [0.1 + activationBoost]. *)
Theorem update_input_trigger (host : Host.t) (st : State) (i : nat) (n n' : Node.t) :
  Engine.nodes st.1 !! i = Some n →
  Engine.nodes (update host st).1 !! i = Some n' →
  Node.layerIndex n = 0 →
  (Host.Math_random host (Page.randomCalls st.2 + inputsBefore (Engine.nodes st.1) i)
   < Config.inputActivationProbability (Engine.config st.1))%Q →
  Node.activationLevel n'
  = Qmax 0 (Qmax (decay (Engine.config st.1) (Node.activationLevel n)) (1 # 10)
            + Config.activationBoost (Engine.config st.1))%Q
  ∧ ((0 <= Config.activationBoost (Engine.config st.1))%Q →
     ((1 # 10) + Config.activationBoost (Engine.config st.1) <= Node.activationLevel n')%Q).
Proof.
  intros Hn Hn' Hlayer Hdraw.
  pose proof (update_activation host st i n n' Hn Hn') as Hact. cbv zeta in Hact.
  rewrite Hlayer in Hact. cbn [Nat.eqb] in Hact.
  apply Qlt_bool_iff in Hdraw. rewrite Hdraw in Hact.
  split; [exact Hact|]. intros Hboost. rewrite Hact.
  set (d := decay _ _).
  pose proof (Q.le_max_r d (1 # 10)). pose proof (Q.le_max_r 0 (Qmax d (1 # 10)
    + Config.activationBoost (Engine.config st.1))). lra.
Qed.

Lemma update_input_trigger_witness :
  ∃ n n',
    Engine.nodes chainCreated.1 !! 0 = Some n
    ∧ Engine.nodes (update chainHost chainCreated).1 !! 0 = Some n'
    ∧ Node.layerIndex n = 0
    ∧ (Host.Math_random chainHost
         (Page.randomCalls chainCreated.2 + inputsBefore (Engine.nodes chainCreated.1) 0)
       < Config.inputActivationProbability (Engine.config chainCreated.1))%Q
    ∧ Node.activationLevel n'
      = Qmax 0 (Qmax (decay (Engine.config chainCreated.1) (Node.activationLevel n)) (1 # 10)
                + Config.activationBoost (Engine.config chainCreated.1))%Q
    ∧ ((0 <= Config.activationBoost (Engine.config chainCreated.1))%Q →
       ((1 # 10) + Config.activationBoost (Engine.config chainCreated.1)
        <= Node.activationLevel n')%Q).
Proof.
  destruct (Engine.nodes chainCreated.1 !! 0) as [n|] eqn:Hn;
    [|vm_compute in Hn; discriminate Hn].
  destruct (Engine.nodes (update chainHost chainCreated).1 !! 0) as [n'|] eqn:Hn';
    [|vm_compute in Hn'; discriminate Hn'].
  assert (Hl : Node.layerIndex n = 0).
  { pose proof Hn as Hc. vm_compute in Hc. injection Hc as <-. vm_compute. reflexivity. }
  assert (Hd : (Host.Math_random chainHost
                  (Page.randomCalls chainCreated.2
                   + inputsBefore (Engine.nodes chainCreated.1) 0)
                < Config.inputActivationProbability (Engine.config chainCreated.1))%Q).
  { vm_compute. reflexivity. }
  exists n, n'. split; [reflexivity|]. split; [reflexivity|].
  split; [exact Hl|]. split; [exact Hd|].
  exact (update_input_trigger chainHost chainCreated 0 n n' Hn Hn' Hl Hd).
Defined.

(** X13. A network at rest stays at rest: when no node has a level or a
    signal, the minimum activation level is not negative, the threshold is
    positive and no call of [Math.random()] returns less than
    [inputActivationProbability], a tick leaves every level and every signal
    at zero. *)
Theorem update_rest_stays (host : Host.t) (st : State) :
  atRest (Engine.nodes st.1) →
  (0 <= Config.minActivationLevel (Engine.config st.1))%Q →
  (0 < Config.activationThreshold (Engine.config st.1))%Q →
  (∀ k, (Config.inputActivationProbability (Engine.config st.1)
         <= Host.Math_random host k)%Q) →
  atRest (Engine.nodes (update host st).1).
Proof.
  intros Hrest Hmin Hthr Hdraw i n' Hn'.
  destruct (update_lookup_inv host st i n' Hn') as [n Hn].
  assert (Hsig : Node.incomingSignal n' = 0%Q).
  { rewrite (update_signal host st i n' Hn').
    rewrite bind_nil_in; [done|]. intros s Hs. unfold sentBy.
    apply list_elem_of_lookup in Hs as [j Hj]. destruct (Hrest j s Hj) as [-> _].
    apply Qlt_bool_false in Hmin. by rewrite Hmin. }
  split; [|exact Hsig].
  pose proof (update_activation host st i n n' Hn Hn') as Hact. cbv zeta in Hact.
  rewrite Hact, Hsig. destruct (Hrest i n Hn) as [-> _].
  unfold decay. apply Qlt_bool_false in Hmin. rewrite Hmin.
  destruct (Nat.eqb _ _).
  - specialize (Hdraw (Page.randomCalls st.2 + inputsBefore (Engine.nodes st.1) i)).
    apply Qlt_bool_false in Hdraw. rewrite Hdraw. reflexivity.
  - apply Qle_bool_false in Hthr. rewrite Hthr. reflexivity.
Qed.

Lemma update_rest_stays_witness :
  atRest (Engine.nodes smallCreated.1)
  ∧ (0 <= Config.minActivationLevel (Engine.config smallCreated.1))%Q
  ∧ (0 < Config.activationThreshold (Engine.config smallCreated.1))%Q
  ∧ (∀ k, (Config.inputActivationProbability (Engine.config smallCreated.1)
           <= Host.Math_random smallHost k)%Q)
  ∧ atRest (Engine.nodes (update smallHost smallCreated).1).
Proof.
  assert (Hr : atRest (Engine.nodes smallCreated.1)).
  { intros i n Hn.
    assert (i < 5) as Hi by (apply lookup_lt_Some in Hn; exact Hn).
    destruct i as [|[|[|[|[|i]]]]]; [| | | | |lia];
      vm_compute in Hn; injection Hn as <-; split; reflexivity. }
  assert (Hm : (0 <= Config.minActivationLevel (Engine.config smallCreated.1))%Q).
  { vm_compute. intros Hz; discriminate Hz. }
  assert (Ht : (0 < Config.activationThreshold (Engine.config smallCreated.1))%Q).
  { vm_compute. reflexivity. }
  assert (Hd : ∀ k, (Config.inputActivationProbability (Engine.config smallCreated.1)
                     <= Host.Math_random smallHost k)%Q).
  { intros k. assert (Host.Math_random smallHost k = (1 # 2)%Q) as ->.
    { by destruct k. }
    vm_compute. intros Hz; discriminate Hz. }
  split; [exact Hr|]. split; [exact Hm|]. split; [exact Ht|]. split; [exact Hd|].
  exact (update_rest_stays smallHost smallCreated Hr Hm Ht Hd).
Defined.

(** ** What [draw] puts on the canvas *)

Lemma rgbaToString_visible c :
  ((1 # 100) <= Color.a c)%Q → ((1 # 100) <= Color.a (rgbaToString c))%Q.
Proof.
  intros Ha. unfold rgbaToString. simpl.
  set (alpha := Qmax 0 (Qmin 1 (Color.a c))).
  assert ((1 # 100) <= alpha)%Q as Halpha.
  { unfold alpha. pose proof (Q.le_max_r 0 (Qmin 1 (Color.a c))).
    destruct (Q.min_spec 1 (Color.a c)) as [[_ Hm]|[_ Hm]]; rewrite Hm in *; lra. }
  apply Qle_shift_div_l; [reflexivity|].
  assert (10 <= Math_round (alpha * 1000))%Z as Hr.
  { unfold Math_round. change 10%Z with (Qfloor (inject_Z 10)) at 1.
    apply Qfloor_resp_le. change (inject_Z 10) with 10%Q. lra. }
  rewrite Zle_Qle in Hr. change (inject_Z 10) with 10%Q in Hr. lra.
Qed.

Section DrawFacts.
Variable host : Host.t.
Variable e : Engine.t.

Let curveCalls (n : nat) : nat := if Config.useCurves (Engine.config e) then 2 * n else 0.

Lemma drawConnection_spec sourceNode style activation ops k conn :
  ((1 # 10) <= Style.width style)%Q → ((1 # 100) <= Color.a (Style.color style))%Q →
  ∃ new,
    drawConnection host e sourceNode style activation (ops, k) conn
    = (ops ++ new, k + curveCalls (length new))
    ∧ Forall (λ c, isStroke c = true ∧ visible c) new.
Proof.
  intros Hw Ha. unfold drawConnection, curveCalls.
  destruct (Engine.nodeMap e !! Conn.targetId conn ≫= _) as [targetNode|].
  - destruct (Config.useCurves _); eexists [_]; simpl;
      (split; [by rewrite ?Nat.add_0_r|]);
      repeat constructor; try done; by apply rgbaToString_visible.
  - exists []. rewrite app_nil_r. simpl. split; [|done].
    destruct (Config.useCurves _); simpl; by rewrite Nat.add_0_r.
Qed.

Lemma curveCalls_add a b : curveCalls (a + b) = curveCalls a + curveCalls b.
Proof. unfold curveCalls. destruct (Config.useCurves _); lia. Qed.

Lemma drawConnection_fold sourceNode style activation : ∀ conns ops k,
  ((1 # 10) <= Style.width style)%Q → ((1 # 100) <= Color.a (Style.color style))%Q →
  ∃ new,
    foldl (drawConnection host e sourceNode style activation) (ops, k) conns
    = (ops ++ new, k + curveCalls (length new))
    ∧ Forall (λ c, isStroke c = true ∧ visible c) new.
Proof.
  induction conns as [|conn conns IH]; intros ops k Hw Ha.
  - exists []. simpl. rewrite app_nil_r. split; [|done].
    unfold curveCalls. destruct (Config.useCurves _); simpl; by rewrite Nat.add_0_r.
  - cbn [foldl].
    destruct (drawConnection_spec sourceNode style activation ops k conn Hw Ha)
      as (new1 & -> & Hnew1).
    destruct (IH (ops ++ new1) (k + curveCalls (length new1)) Hw Ha) as (new2 & -> & Hnew2).
    exists (new1 ++ new2). rewrite length_app, curveCalls_add, <- app_assoc, Nat.add_assoc.
    split; [done|]. by apply Forall_app.
Qed.

Lemma drawConnections_spec ops k sourceNode acc' :
  drawConnections host e (ops, k) sourceNode = Some acc' →
  ∃ new, acc' = (ops ++ new, k + curveCalls (length new))
         ∧ Forall (λ c, isStroke c = true ∧ visible c) new.
Proof.
  unfold drawConnections.
  assert (Hnone : ∃ new, (ops, k) = (ops ++ new, k + curveCalls (length new))
                         ∧ Forall (λ c, isStroke c = true ∧ visible c) new).
  { exists []. rewrite app_nil_r. split; [|done].
    unfold curveCalls. destruct (Config.useCurves _); simpl; by rewrite Nat.add_0_r. }
  destruct (Qlt_bool _ _); [by intros [= <-]|].
  destruct (connectionStyle _ _ _ _) as [style|]; simpl; [|done].
  destruct (Qlt_bool (Style.width style) _) eqn:Hw; simpl; [by intros [= <-]|].
  destruct (Qlt_bool (Color.a (Style.color style)) _) eqn:Ha; simpl; [by intros [= <-]|].
  intros [= <-]. apply Qlt_bool_false in Hw, Ha.
  by apply drawConnection_fold.
Qed.

Lemma drawConnections_all : ∀ ns ops k acc',
  forEachM (drawConnections host e) (ops, k) ns = Some acc' →
  ∃ new, acc' = (ops ++ new, k + curveCalls (length new))
         ∧ Forall (λ c, isStroke c = true ∧ visible c) new.
Proof.
  induction ns as [|n ns IH]; intros ops k acc'; cbn [forEachM].
  - intros [= <-]. exists []. rewrite app_nil_r. split; [|done].
    unfold curveCalls. destruct (Config.useCurves _); simpl; by rewrite Nat.add_0_r.
  - destruct (drawConnections host e (ops, k) n) as [acc1|] eqn:H1; simpl; [|done].
    apply drawConnections_spec in H1 as (new1 & -> & Hnew1).
    intros (new2 & -> & Hnew2)%IH.
    exists (new1 ++ new2). rewrite length_app, curveCalls_add, <- app_assoc, Nat.add_assoc.
    split; [done|]. by apply Forall_app.
Qed.

Lemma drawNode_spec ops node ops' :
  drawNode e ops node = Some ops' →
  ∃ new, ops' = ops ++ new ∧ length new ≤ 1
         ∧ Forall (λ c, isFill c = true ∧ visible c) new.
Proof.
  unfold drawNode.
  assert (Hnone : ∃ new, ops = ops ++ new ∧ length new ≤ 1
                         ∧ Forall (λ c, isFill c = true ∧ visible c) new).
  { exists []. rewrite app_nil_r. simpl. split; [done|]. split; [lia|done]. }
  destruct (_ && _); [by intros [= <-]|].
  destruct (Engine.parsedNodeColor e) as [dim|]; cbn [mbind option_bind]; [|done].
  destruct (Engine.parsedActiveNodeColor e) as [active|]; cbn [mbind option_bind]; [|done].
  set (c := lerpColor dim active _).
  destruct (Qlt_bool (Color.a c) _) eqn:Ha; cbn [orb]; [by intros [= <-]|].
  destruct (Qlt_bool (Node.currentRadius node) _) eqn:Hr; [by intros [= <-]|].
  intros [= <-]. apply Qlt_bool_false in Ha, Hr.
  eexists [_]. split; [done|]. split; [done|].
  repeat constructor; try done. by apply rgbaToString_visible.
Qed.

Lemma drawNode_all : ∀ ns ops ops',
  forEachM (drawNode e) ops ns = Some ops' →
  ∃ new, ops' = ops ++ new ∧ length new ≤ length ns
         ∧ Forall (λ c, isFill c = true ∧ visible c) new.
Proof.
  induction ns as [|n ns IH]; intros ops ops'; cbn [forEachM].
  - intros [= <-]. exists []. rewrite app_nil_r. done.
  - destruct (drawNode e ops n) as [ops1|] eqn:H1; simpl; [|done].
    apply drawNode_spec in H1 as (new1 & -> & Hlen1 & Hnew1).
    intros (new2 & -> & Hlen2 & Hnew2)%IH.
    exists (new1 ++ new2). rewrite length_app, <- app_assoc.
    split; [done|]. split; [lia|]. by apply Forall_app.
Qed.

End DrawFacts.

(** What a call of [draw] that returns leaves: the engine as it was, and on
    the canvas the clearing, then the connections, then the nodes. *)
Lemma draw_spec host st st' :
  draw host st = Some st' →
  ∃ strokes fills,
    st'.1 = st.1
    ∧ Page.canvasOps st'.2
      = ClearRect (Page.canvasWidth st.2) (Page.canvasHeight st.2) :: strokes ++ fills
    ∧ Forall (λ c, isStroke c = true ∧ visible c) strokes
    ∧ Forall (λ c, isFill c = true ∧ visible c) fills
    ∧ length fills ≤ length (Engine.nodes st.1)
    ∧ Page.randomCalls st'.2
      = Page.randomCalls st.2
        + (if Config.useCurves (Engine.config st.1) then 2 * length strokes else 0)
    ∧ Page.pendingFrames st'.2 = Page.pendingFrames st.2
    ∧ Page.clockCalls st'.2 = Page.clockCalls st.2.
Proof.
  destruct st as [e p]. unfold draw.
  destruct (forEachM (drawConnections host e) _ _) as [[ops k]|] eqn:H1; simpl; [|done].
  apply drawConnections_all in H1 as (strokes & [= -> ->] & Hstrokes).
  destruct (forEachM (drawNode e) _ _) as [ops'|] eqn:H2; simpl; [|done].
  apply drawNode_all in H2 as (fills & -> & Hlen & Hfills).
  intros [= <-]. exists strokes, fills. simpl. done.
Qed.

(** X14. In a state whose levels are not negative and whose colours are
    parsed, [draw] returns, leaves the engine as it was, and puts on the
    canvas first the clearing of the whole canvas, then lines only, then
    discs only, at most one disc per node. *)
Theorem draw_strokes_then_fills (host : Host.t) (st : State) :
  sound st.1 →
  ∃ st' strokes fills,
    draw host st = Some st'
    ∧ st'.1 = st.1
    ∧ Page.canvasOps st'.2
      = ClearRect (Page.canvasWidth st.2) (Page.canvasHeight st.2) :: strokes ++ fills
    ∧ Forall (λ c, isStroke c = true) strokes
    ∧ Forall (λ c, isFill c = true) fills
    ∧ length fills ≤ length (Engine.nodes st.1).
Proof.
  intros Hs. destruct (draw_returns host st Hs) as [st' Hdraw].
  destruct (draw_spec host st st' Hdraw)
    as (strokes & fills & He & Hops & Hstrokes & Hfills & Hlen & _).
  exists st', strokes, fills. repeat split; try done.
  - eapply Forall_impl; [exact Hstrokes|]. by intros c [? _].
  - eapply Forall_impl; [exact Hfills|]. by intros c [? _].
Qed.

Lemma draw_strokes_then_fills_witness :
  sound chainBefore.1
  ∧ ∃ st' strokes fills,
      draw chainHost chainBefore = Some st'
      ∧ st'.1 = chainBefore.1
      ∧ Page.canvasOps st'.2
        = ClearRect (Page.canvasWidth chainBefore.2) (Page.canvasHeight chainBefore.2)
          :: strokes ++ fills
      ∧ Forall (λ c, isStroke c = true) strokes
      ∧ Forall (λ c, isFill c = true) fills
      ∧ length fills ≤ length (Engine.nodes chainBefore.1).
Proof.
  pose proof (reachable_sound chainHost parseKnown chainBefore chainBefore_reachable) as Hs.
  split; [exact Hs|].
  exact (draw_strokes_then_fills chainHost chainBefore Hs).
Defined.



(** X16. [draw] calls [Math.random()] twice for every line when
    [useCurves] is set, and not at all otherwise; it never calls
    [Date.now()] and leaves the requested frames alone. *)
Theorem draw_random_calls (host : Host.t) (st st' : State) :
  draw host st = Some st' →
  Page.randomCalls st'.2
  = Page.randomCalls st.2
    + (if Config.useCurves (Engine.config st.1)
       then 2 * strokeCount (Page.canvasOps st'.2) else 0)
  ∧ Page.clockCalls st'.2 = Page.clockCalls st.2
  ∧ Page.pendingFrames st'.2 = Page.pendingFrames st.2.
Proof.
  intros Hdraw.
  destruct (draw_spec host st st' Hdraw)
    as (strokes & fills & _ & -> & Hstrokes & Hfills & _ & -> & -> & ->).
  assert (strokeCount (ClearRect (Page.canvasWidth st.2) (Page.canvasHeight st.2)
                        :: strokes ++ fills) = length strokes) as ->; [|done].
  unfold strokeCount.
  rewrite filter_cons, decide_False by done.
  rewrite filter_app, length_app.
  rewrite (filter_length_all (λ c, isStroke c = true) strokes).
  - rewrite (filter_length_none (λ c, isStroke c = true) fills); [lia|].
    eapply Forall_impl; [exact Hfills|]. intros [] [Hf _]; simpl in *; congruence.
  - eapply Forall_impl; [exact Hstrokes|]. by intros c [? _].
Qed.

Lemma draw_random_calls_witness :
  ∃ st', draw chainHost chainBefore = Some st'
    ∧ Page.randomCalls st'.2
      = Page.randomCalls chainBefore.2
        + (if Config.useCurves (Engine.config chainBefore.1)
           then 2 * strokeCount (Page.canvasOps st'.2) else 0)
    ∧ Page.clockCalls st'.2 = Page.clockCalls chainBefore.2
    ∧ Page.pendingFrames st'.2 = Page.pendingFrames chainBefore.2.
Proof.
  destruct (draw chainHost chainBefore) as [st'|] eqn:Hdraw;
    [|vm_compute in Hdraw; discriminate Hdraw].
  exists st'. split; [reflexivity|].
  exact (draw_random_calls chainHost chainBefore st' Hdraw).
Defined.

Lemma forEachM_skip {A B : Type} (f : A → B → option A) (l : list B) (a : A) :
  (∀ b, b ∈ l → f a b = Some a) → forEachM f a l = Some a.
Proof.
  induction l as [|b l IH]; intros Hf; simpl; [done|].
  rewrite Hf by (by left). simpl. apply IH. intros b' Hb'. apply Hf. by right.
Qed.

(** X17. A network at rest, under a positive minimum activation level, is
    not drawn: [draw] returns, whether or not the colours are parsed, and
    the canvas holds the clearing and nothing else. *)
Theorem draw_at_rest (host : Host.t) (st : State) :
  atRest (Engine.nodes st.1) →
  (0 < Config.minActivationLevel (Engine.config st.1))%Q →
  ∃ st', draw host st = Some st'
         ∧ st'.1 = st.1
         ∧ Page.canvasOps st'.2
           = [ClearRect (Page.canvasWidth st.2) (Page.canvasHeight st.2)]
         ∧ Page.randomCalls st'.2 = Page.randomCalls st.2.
Proof.
  destruct st as [e p]. simpl. intros Hrest Hmin.
  apply Qlt_bool_iff in Hmin. unfold draw.
  rewrite forEachM_skip.
  - simpl. rewrite forEachM_skip.
    + simpl. eexists. split; [done|]. done.
    + intros n Hn. apply list_elem_of_lookup in Hn as [i Hi].
      destruct (Hrest i n Hi) as [Hl _]. unfold drawNode. rewrite Hl.
      change (Qmin 1 0) with 0%Q. rewrite Hmin. done.
  - intros n Hn. apply list_elem_of_lookup in Hn as [i Hi].
    destruct (Hrest i n Hi) as [Hl _]. unfold drawConnections. rewrite Hl.
    change (Qmin 1 0) with 0%Q. by rewrite Hmin.
Qed.

Lemma smallCreated_atRest : atRest (Engine.nodes smallCreated.1).
Proof.
  intros i n Hn.
  assert (i < 5) as Hi by (apply lookup_lt_Some in Hn; exact Hn).
  destruct i as [|[|[|[|[|i]]]]]; [| | | | |lia];
    vm_compute in Hn; injection Hn as <-; split; reflexivity.
Qed.

Lemma draw_at_rest_witness :
  atRest (Engine.nodes smallCreated.1)
  ∧ (0 < Config.minActivationLevel (Engine.config smallCreated.1))%Q
  ∧ ∃ st', draw smallHost smallCreated = Some st'
           ∧ st'.1 = smallCreated.1
           ∧ Page.canvasOps st'.2
             = [ClearRect (Page.canvasWidth smallCreated.2) (Page.canvasHeight smallCreated.2)]
           ∧ Page.randomCalls st'.2 = Page.randomCalls smallCreated.2.
Proof.
  assert (Hm : (0 < Config.minActivationLevel (Engine.config smallCreated.1))%Q).
  { vm_compute. reflexivity. }
  split; [apply smallCreated_atRest|]. split; [exact Hm|].
  exact (draw_at_rest smallHost smallCreated smallCreated_atRest Hm).
Defined.

(** ** Starting, stopping, resizing, configuring *)

(** [setup] leaves the window as it is and gives the canvas its size. *)
Lemma setup_page host parseColor st st' :
  setup host parseColor st = Some st' →
  Page.canvasWidth st'.2 = Page.innerWidth st.2
  ∧ Page.canvasHeight st'.2 = Page.innerHeight st.2
  ∧ Page.innerWidth st'.2 = Page.innerWidth st.2
  ∧ Page.innerHeight st'.2 = Page.innerHeight st.2
  ∧ Page.lastFrameHandle st'.2 = Page.lastFrameHandle st.2
  ∧ Page.pendingFrames st'.2 = Page.pendingFrames st.2
  ∧ Page.resizeListener st'.2 = Page.resizeListener st.2
  ∧ Page.canvasOps st'.2 = Page.canvasOps st.2.
Proof.
  destruct st as [e p]. unfold setup. cbv zeta.
  destruct (forEachLayer _ _ _ _ _ _ _ _) as [[b prev]|]; simpl; [|done].
  by intros [= <-].
Qed.

Lemma stop_spec st :
  running (stop st) = false
  ∧ Engine.config (stop st).1 = Engine.config st.1
  ∧ Engine.nodes (stop st).1 = Engine.nodes st.1
  ∧ Page.innerWidth (stop st).2 = Page.innerWidth st.2
  ∧ Page.innerHeight (stop st).2 = Page.innerHeight st.2.
Proof.
  destruct st as [e p]. unfold stop, running.
  by destruct (Engine.animationFrameId e) as [[|h]|] eqn:Hid; simpl; rewrite ?Hid.
Qed.

(** [start] on an animation that does not run. *)
Lemma start_stopped host parseColor st :
  running st = false →
  ∃ st1 st',
    (if Nat.eqb (length (Engine.nodes st.1)) 0
     then setup host parseColor st else Some st) = Some st1
    ∧ start host parseColor st = Some st'
    ∧ Engine.config st'.1 = Engine.config st1.1
    ∧ Engine.nodes st'.1 = Engine.nodes st1.1
    ∧ Engine.animationFrameId st'.1 = Some (S (Page.lastFrameHandle st1.2))
    ∧ Page.lastFrameHandle st'.2 = S (Page.lastFrameHandle st1.2)
    ∧ Page.pendingFrames st'.2 = {[S (Page.lastFrameHandle st1.2)]} ∪ Page.pendingFrames st1.2
    ∧ Page.resizeListener st'.2 = true
    ∧ Page.canvasWidth st'.2 = Page.canvasWidth st1.2
    ∧ Page.canvasHeight st'.2 = Page.canvasHeight st1.2.
Proof.
  unfold running, start. intros ->. cbn [negb].
  destruct (Nat.eqb (length (Engine.nodes st.1)) 0).
  - destruct (setup_returns host parseColor st) as ([e1 p1] & -> & _).
    exists (e1, p1). eexists. cbn [mbind option_bind].
    unfold requestAnimationFrame. split; [reflexivity|]. split; [reflexivity|]. done.
  - destruct st as [e1 p1].
    exists (e1, p1). eexists. cbn [mbind option_bind].
    unfold requestAnimationFrame. split; [reflexivity|]. split; [reflexivity|]. done.
Qed.

(** X18. [stop] followed by [start] keeps the network: when there are
    nodes, the nodes, with their levels, and the configuration are the same
    afterwards, the animation runs and listens to resizes. *)
Theorem stop_start_keeps_nodes (host : Host.t) (parseColor : string → Color.t) (st : State) :
  Engine.nodes st.1 ≠ [] →
  ∃ st', start host parseColor (stop st) = Some st'
         ∧ Engine.nodes st'.1 = Engine.nodes st.1
         ∧ Engine.config st'.1 = Engine.config st.1
         ∧ running st' = true
         ∧ Page.resizeListener st'.2 = true.
Proof.
  intros Hnodes. destruct (stop_spec st) as (Hrun & Hcfg & Hns & _).
  destruct (start_stopped host parseColor (stop st) Hrun)
    as (st1 & st' & Hst1 & Hstart & Hcfg' & Hns' & Hid & _ & _ & Hl & _).
  rewrite Hns in Hst1.
  destruct (Engine.nodes st.1) as [|n ns] eqn:Hn; [done|]. simpl in Hst1.
  injection Hst1 as <-. exists st'. split; [done|].
  split; [by rewrite Hns', Hns|]. split; [by rewrite Hcfg', Hcfg|].
  split; [|done]. unfold running. by rewrite Hid.
Qed.

Lemma stop_start_keeps_nodes_witness :
  Engine.nodes chainBefore.1 ≠ []
  ∧ ∃ st', start chainHost parseKnown (stop chainBefore) = Some st'
           ∧ Engine.nodes st'.1 = Engine.nodes chainBefore.1
           ∧ Engine.config st'.1 = Engine.config chainBefore.1
           ∧ running st' = true
           ∧ Page.resizeListener st'.2 = true.
Proof.
  assert (Hn : Engine.nodes chainBefore.1 ≠ []).
  { vm_compute. intros Hz; discriminate Hz. }
  split; [exact Hn|].
  exact (stop_start_keeps_nodes chainHost parseKnown chainBefore Hn).
Defined.

(** X19. [stop] on a running animation cancels the frame it waits for,
    forgets its handle and removes the resize listener; the nodes and the
    configuration stay. *)
Theorem stop_cancels_frame (st : State) (handle : nat) :
  running st = true →
  Engine.animationFrameId st.1 = Some handle →
  Engine.animationFrameId (stop st).1 = None
  ∧ (handle ∉ Page.pendingFrames (stop st).2)
  ∧ Page.resizeListener (stop st).2 = false
  ∧ Engine.nodes (stop st).1 = Engine.nodes st.1
  ∧ Engine.config (stop st).1 = Engine.config st.1.
Proof.
  destruct st as [e p]. unfold running, stop. simpl. intros Hrun Hid.
  rewrite Hid in *. destruct handle as [|h]; [done|]. simpl.
  repeat split. intros [_ Hne]%elem_of_difference. apply Hne. by apply elem_of_singleton.
Qed.

Lemma stop_cancels_frame_witness :
  running smallCreated = true
  ∧ Engine.animationFrameId smallCreated.1 = Some 1
  ∧ Engine.animationFrameId (stop smallCreated).1 = None
  ∧ (1 ∉ Page.pendingFrames (stop smallCreated).2)
  ∧ Page.resizeListener (stop smallCreated).2 = false
  ∧ Engine.nodes (stop smallCreated).1 = Engine.nodes smallCreated.1
  ∧ Engine.config (stop smallCreated).1 = Engine.config smallCreated.1.
Proof.
  assert (Hr : running smallCreated = true) by (vm_compute; reflexivity).
  assert (Hid : Engine.animationFrameId smallCreated.1 = Some 1)
    by (vm_compute; reflexivity).
  split; [exact Hr|]. split; [exact Hid|].
  exact (stop_cancels_frame smallCreated 1 Hr Hid).
Defined.

(** [handleResize]: stop, build again for the new size, start. *)
Lemma handleResize_spec host parseColor st :
  ∃ st', handleResize host parseColor st = Some st'
         ∧ Engine.config st'.1 = Engine.config st.1
         ∧ atRest (Engine.nodes st'.1)
         ∧ coloursProcessed st'.1
         ∧ running st' = true
         ∧ frameRequested st'
         ∧ Page.resizeListener st'.2 = true
         ∧ Page.canvasWidth st'.2 = Page.innerWidth st.2
         ∧ Page.canvasHeight st'.2 = Page.innerHeight st.2.
Proof.
  unfold handleResize.
  destruct (stop_spec st) as (Hrun & Hcfg & _ & Hw & Hh).
  destruct (setup_returns host parseColor (stop st))
    as (st1 & Hsetup & Hcfg1 & Hid1 & _ & Hcol1 & Hrest1).
  pose proof (setup_page host parseColor _ _ Hsetup)
    as (Hw1 & Hh1 & Hiw1 & Hih1 & _).
  rewrite Hsetup. cbn [mbind option_bind].
  assert (Hrun1 : running st1 = false).
  { unfold running in *. by rewrite Hid1. }
  destruct (start_stopped host parseColor st1 Hrun1)
    as (st2 & st' & Hst2 & Hstart & Hcfg' & Hns' & Hid' & Hlast' & Hpend' & Hl' & Hw' & Hh').
  exists st'. split; [done|].
  assert (Engine.config st2.1 = Engine.config st1.1 ∧ atRest (Engine.nodes st2.1)
          ∧ coloursProcessed st'.1
          ∧ Page.canvasWidth st2.2 = Page.innerWidth st.2
          ∧ Page.canvasHeight st2.2 = Page.innerHeight st.2) as (Hc2 & Hr2 & Hcol' & Hw2 & Hh2).
  { pose proof (start_sound host parseColor st1 st') as Hsound.
    destruct Hsound as [_ Hcol']; [|done|].
    { split; [|done]. intros i n Hn. destruct (Hrest1 i n Hn) as [-> _]. done. }
    destruct (Nat.eqb _ _).
    - destruct (setup_returns host parseColor st1) as (st2' & Hs2 & Hc2 & _ & _ & _ & Hr2).
      pose proof (setup_page host parseColor _ _ Hs2) as (Hw2 & Hh2 & _).
      rewrite Hs2 in Hst2. injection Hst2 as <-.
      split_and!; try done; congruence.
    - injection Hst2 as <-. split_and!; try done; congruence. }
  split; [congruence|]. split; [by rewrite Hns'|]. split; [done|].
  split; [unfold running; by rewrite Hid'|].
  split; [|split; [done|split; congruence]].
  intros h Hh0. rewrite Hid' in Hh0. injection Hh0 as <-.
  rewrite Hlast', Hpend'. split; [lia|by apply elem_of_union_l, elem_of_singleton].
Qed.

(** X20. A resize of the window, as [handleResize] treats it: the call
    returns, the canvas has the size of the window, the network is built
    again and at rest under the same configuration, and the animation runs,
    whether or not it did before. *)
Theorem handleResize_rebuilds (host : Host.t) (parseColor : string → Color.t) (st : State) :
  ∃ st', handleResize host parseColor st = Some st'
         ∧ Page.canvasWidth st'.2 = Page.innerWidth st.2
         ∧ Page.canvasHeight st'.2 = Page.innerHeight st.2
         ∧ Engine.config st'.1 = Engine.config st.1
         ∧ atRest (Engine.nodes st'.1)
         ∧ running st' = true
         ∧ Page.resizeListener st'.2 = true.
Proof.
  destruct (handleResize_spec host parseColor st)
    as (st' & H & Hcfg & Hrest & _ & Hrun & _ & Hl & Hw & Hh).
  by exists st'.
Qed.

(** X21. [setConfig] followed by [getCurrentConfig]: the call returns, the
    configuration read back is the old one with the given options written
    over it, the network is built again and at rest, and the animation runs
    afterwards exactly when it ran before. *)
Theorem setConfig_getCurrentConfig (host : Host.t) (parseColor : string → Color.t)
    (newOptions : Options.t) (st : State) :
  ∃ st', setConfig host parseColor newOptions st = Some st'
         ∧ getCurrentConfig st' = assign (getCurrentConfig st) newOptions
         ∧ atRest (Engine.nodes st'.1)
         ∧ running st' = running st.
Proof.
  destruct st as [e p]. unfold setConfig, getCurrentConfig, running. cbn [fst snd].
  destruct (truthy (Engine.animationFrameId e)) eqn:Hrun.
  - destruct (handleResize_spec host parseColor
                (Engine.set_config (assign (Engine.config e) newOptions) e, p))
      as (st' & H & Hcfg & Hrest & _ & Hrun' & _).
    exists st'. split; [done|]. split; [done|]. split; [done|]. exact Hrun'.
  - destruct (setup_returns host parseColor
                (Engine.set_config (assign (Engine.config e) newOptions) e, p))
      as (st' & H & Hcfg & Hid & _ & _ & Hrest).
    exists st'. split; [done|]. split; [done|]. split; [done|].
    rewrite Hid. exact Hrun.
Qed.

(** *** The frame a running animation waits for *)

Section Frames.
Variable host : Host.t.
Variable parseColor : string → Color.t.







Lemma create_frameRequested options p st :
  createNeuralNetworkAnimation host parseColor options p = Some st →
  frameRequested st ∧ running st = true.
Proof.
  unfold createNeuralNetworkAnimation.
  match goal with
  | |- context [setup host parseColor ?s] =>
      destruct (setup_returns host parseColor s) as (st1 & -> & _ & Hid & _)
  end.
  cbn [mbind option_bind]. simpl in Hid.
  assert (Hrun : running st1 = false) by (unfold running; by rewrite Hid).
  destruct (start_stopped host parseColor st1 Hrun)
    as (st2 & st' & _ & -> & _ & _ & Hid' & Hlast & Hpend & _).
  intros [= <-]. split; [|unfold running; by rewrite Hid'].
  intros h Hh. rewrite Hid' in Hh. injection Hh as <-.
  rewrite Hlast, Hpend. split; [lia|by apply elem_of_union_l, elem_of_singleton].
Qed.

End Frames.






(** ** The census of [setup] *)

Lemma count_lt_S {A : Type} (f : A → nat) (L : nat) (l : list A) :
  length (filter (λ x, f x < S L) l)
  = length (filter (λ x, f x < L) l) + length (filter (λ x, f x = L) l).
Proof.
  induction l as [|x l IH]; [done|].
  rewrite !filter_cons.
  destruct (decide (f x < S L)), (decide (f x < L)), (decide (f x = L));
    simpl; lia.
Qed.

Lemma count_layers {A : Type} (f : A → nat) (l : list A) : ∀ L,
  length (filter (λ x, f x < L) l)
  = sum_list (map (λ k, length (filter (λ x, f x = k) l)) (seq 0 L)).
Proof.
  induction L as [|L IH].
  - simpl. apply filter_length_none. apply Forall_forall. intros; lia.
  - rewrite count_lt_S, IH, seq_S, map_app, sum_list_with_app. simpl. lia.
Qed.

Lemma map_lookup_seq (sizes : list nat) :
  map (λ k, default 0 (sizes !! k)) (seq 0 (length sizes)) = sizes.
Proof.
  apply list_eq. intros i. rewrite list_lookup_fmap.
  destruct (decide (i < length sizes)) as [Hi|Hi].
  - rewrite lookup_seq_lt by done. simpl.
    destruct (lookup_lt_is_Some_2 sizes i Hi) as [x ->]. done.
  - rewrite lookup_seq_ge by lia. simpl. by rewrite lookup_ge_None_2 by lia.
Qed.

Lemma layered_length maxConn sizes ns :
  layered maxConn sizes ns → length ns = sum_list sizes.
Proof.
  intros (Hlt & Hcount & _).
  rewrite <- (filter_length_all (λ n, Node.layerIndex n < length sizes) ns).
  - rewrite count_layers. rewrite <- (map_lookup_seq sizes) at 2.
    f_equal. apply map_ext. intros l. apply Hcount.
  - apply Forall_lookup_2. intros i n Hn. by apply (Hlt i).
Qed.

(** X24. [setup] builds the layers of the configuration: there are as many
    nodes as the layer sizes add up to, every layer has its size, the node
    at position [i] has the id [i] and is what [nodeMap] holds for [i], and
    [nodeMap] holds nothing for any other id. *)
Theorem setup_census (host : Host.t) (parseColor : string → Color.t) (st : State) :
  sortPermutes host →
  ∃ st', setup host parseColor st = Some st'
    ∧ length (Engine.nodes st'.1) = sum_list (Config.layers (Engine.config st.1))
    ∧ (∀ l, layerSize st'.1 l = default 0 (Config.layers (Engine.config st.1) !! l))
    ∧ (∀ i n, Engine.nodes st'.1 !! i = Some n → Node.id n = i ∧ nodeOf st'.1 i = Some n)
    ∧ (∀ i, length (Engine.nodes st'.1) ≤ i → nodeOf st'.1 i = None).
Proof.
  intros Hsort.
  destruct (setup_spec host Hsort parseColor st) as (st' & Hsetup & Hcfg & _ & Hwf & _).
  exists st'. split; [done|].
  destruct Hwf as ([Hids Hmap] & Hlay & _). rewrite Hcfg in Hlay.
  split; [by eapply layered_length|].
  split; [by destruct Hlay as (_ & Hcount & _)|]. split.
  - intros i n Hn. split; [by apply (Hids i)|].
    unfold nodeOf. rewrite (proj2 (Hmap i i)); [done|].
    split; [done|]. by apply lookup_lt_Some in Hn.
  - intros i Hi. unfold nodeOf.
    destruct (Engine.nodeMap st'.1 !! i) as [j|] eqn:Hj; [|done].
    apply Hmap in Hj as [_ ?]. lia.
Qed.

Lemma setup_census_witness :
  sortPermutes smallHost
  ∧ ∃ st', setup smallHost parseKnown smallCreated = Some st'
      ∧ length (Engine.nodes st'.1)
        = sum_list (Config.layers (Engine.config smallCreated.1))
      ∧ (∀ l, layerSize st'.1 l
              = default 0 (Config.layers (Engine.config smallCreated.1) !! l))
      ∧ (∀ i n, Engine.nodes st'.1 !! i = Some n
                → Node.id n = i ∧ nodeOf st'.1 i = Some n)
      ∧ (∀ i, length (Engine.nodes st'.1) ≤ i → nodeOf st'.1 i = None).
Proof.
  split; [apply listHost_sortPermutes|].
  exact (setup_census smallHost parseKnown smallCreated (listHost_sortPermutes [])).
Defined.

(** ** The fan-out of [setup] *)

Section ExtendFan.
Variables (maxConn : nat) (sizes : list nat) (ns : list Node.t).
Variables (previous : list nat) (new : list Node.t) (extra : nat → list Conn.t).

Hypothesis Hlayers : ∀ i n, ns !! i = Some n → Node.layerIndex n < length sizes.
Hypothesis Hfrontier : frontier sizes ns previous.
Hypothesis Hnew :
  Forall (λ n, Node.layerIndex n = length sizes ∧ Node.connections n = []) new.
Hypothesis Hout : ∀ i, i ∉ previous → extra i = [].
Hypothesis Hin : ∀ i, i ∈ previous →
  ∃ sh, sh ≡ₚ seq (length ns) (length new)
        ∧ extra i = Conn.mk <$> take (Nat.min maxConn (length sh)) sh.
Hypothesis Hfan : exactFan maxConn sizes ns.

Lemma extend_exactFan :
  exactFan maxConn (sizes ++ [length new])
           (imap (λ i n, Node.add_connections (extra i) n) (ns ++ new)).
Proof.
  intros i n' Hn'.
  pose proof (list_lookup_imap (λ i n, Node.add_connections (extra i) n) (ns ++ new) i)
    as Hlookup.
  rewrite Hlookup in Hn'. clear Hlookup.
  destruct Hfrontier as (Hnd & Hfr & Hnil).
  destruct (decide (i < length ns)) as [Hi|Hi].
  - rewrite lookup_app_l in Hn' by done.
    destruct (ns !! i) as [n|] eqn:Hn; simpl in Hn'; [|done]. injection Hn' as <-.
    simpl. destruct (decide (i ∈ previous)) as [Hp|Hp].
    + destruct (Hin i Hp) as (sh & Hperm & ->).
      apply Hfr in Hp as (n0 & Hn0 & Hl). assert (n0 = n) as -> by congruence.
      rewrite (Hnil i n Hn Hl). simpl. split.
      * assert (Inj (=) (=) Conn.mk) as Hinj by (by intros a b [= ->]).
        apply (NoDup_fmap_2 Conn.mk).
        apply (sublist_NoDup _ sh); [|apply sublist_take].
        rewrite Hperm. apply NoDup_seq.
      * intros _. rewrite Hl, list_lookup_middle by done. simpl.
        rewrite length_fmap, length_take.
        apply Permutation_length in Hperm. rewrite length_seq in Hperm. lia.
    + rewrite (Hout i Hp), app_nil_r. destruct (Hfan i n Hn) as [Hnodup Hlen].
      split; [done|]. intros _.
      assert (S (Node.layerIndex n) < length sizes) as Hl.
      { pose proof (Hlayers i n Hn).
        destruct (decide (S (Node.layerIndex n) = length sizes)) as [He|]; [|lia].
        exfalso. apply Hp, Hfr. by exists n. }
      rewrite lookup_app_l by done. by apply Hlen.
  - rewrite lookup_app_r in Hn' by lia.
    rewrite Hout in Hn'.
    + destruct (new !! (i - length ns)) as [n|] eqn:Hn; simpl in Hn'; [|done].
      injection Hn' as <-. rewrite add_connections_nil.
      rewrite Forall_lookup in Hnew. destruct (Hnew _ _ Hn) as [Hl ->].
      split; [constructor|]. rewrite Hl, length_app. simpl. lia.
    + intros Hp. apply Hfr in Hp as (n & Hn & _). apply lookup_lt_Some in Hn. lia.
Qed.

End ExtendFan.

Section SetupFan.
Variable host : Host.t.
Hypothesis sort_ok : sortPermutes host.
Variable config : Config.t.

Let maxConn := Config.maxConnectionsPerNode config.

Lemma buildLayer_exactFan canvasHeight startX layerSpacing sizes st nodeCount :
  building maxConn sizes st →
  exactFan maxConn sizes (Build.nodes st.1) →
  ∃ st', buildLayer host config canvasHeight startX layerSpacing st (length sizes) nodeCount
         = Some st'
         ∧ building maxConn (sizes ++ [nodeCount]) st'
         ∧ exactFan maxConn (sizes ++ [nodeCount]) (Build.nodes st'.1).
Proof.
  intros Hb Hfan.
  destruct (buildLayer_spec host sort_ok config canvasHeight startX layerSpacing sizes st
              nodeCount Hb) as (st' & Hst' & Hb').
  exists st'. split; [done|]. split; [done|].
  destruct st as [b previous]. destruct Hb as (Hnext & Hsync & Hlay & Hrest & Hfr).
  simpl in *. unfold buildLayer in Hst'.
  match type of Hst' with
  | context [foldl (createNode host config ?lx ?sy ?th ?sp _ _) _ _] =>
      destruct (createNodes_spec host config lx sy th sp nodeCount (length sizes)
                  (seq 0 nodeCount) b [] Hnext)
        as (new & k & Heq & Hlen & Hid & Hnew)
  end.
  rewrite Heq in Hst'. clear Heq. rewrite length_seq in *. simpl in Hst'. subst nodeCount.
  assert (Hnew' : Forall (λ n, Node.layerIndex n = length sizes
                               ∧ Node.connections n = []) new).
  { eapply Forall_impl; [exact Hnew|]. by intros n (? & ? & _). }
  assert (Hlayers : ∀ i n, Build.nodes b !! i = Some n → Node.layerIndex n < length sizes).
  { by destruct Hlay as (? & _). }
  destruct (Nat.ltb_spec 0 (length sizes)) as [Hpos|Hzero].
  - edestruct (connectAll_spec host sort_ok config
                 (seq (length (Build.nodes b)) (length new)) previous
                 (Build.mk (Build.nodes b ++ new)
                    (foldl (λ m i, <[i := i]> m) (Build.nodeMap b)
                           (seq (length (Build.nodes b)) (length new)))
                    (length (Build.nodes b) + length new) k))
      as (k' & extra & Heq & Hout & Hin).
    { intros s Hs. simpl. rewrite insert_seq_lookup.
      destruct Hfr as (_ & Hp & _).
      apply Hp in Hs as (n & Hn & _). apply lookup_lt_Some in Hn.
      rewrite decide_False by lia.
      destruct Hsync as [_ Hmap]. by apply Hmap. }
    rewrite Heq in Hst'. simpl in Hst'. injection Hst' as <-. simpl.
    eapply extend_exactFan; try done.
    intros i Hi. apply Hin; [done|]. by destruct Hfr.
  - simpl in Hst'. injection Hst' as <-. simpl.
    rewrite <- (imap_add_nil (Build.nodes b ++ new)).
    eapply extend_exactFan with (previous := previous) (extra := λ _, []); try done.
    intros i Hi. destruct Hfr as (_ & Hp & _).
    apply Hp in Hi as (n & _ & Hl). lia.
Qed.

Lemma forEachLayer_exactFan canvasHeight startX layerSpacing : ∀ rest sizes st,
  building maxConn sizes st →
  exactFan maxConn sizes (Build.nodes st.1) →
  ∃ st', forEachLayer host config canvasHeight startX layerSpacing st (length sizes) rest
         = Some st'
         ∧ building maxConn (sizes ++ rest) st'
         ∧ exactFan maxConn (sizes ++ rest) (Build.nodes st'.1).
Proof.
  induction rest as [|nodeCount rest IH]; intros sizes st Hst Hfan.
  - exists st. by rewrite app_nil_r.
  - cbn [forEachLayer].
    destruct (buildLayer_exactFan canvasHeight startX layerSpacing sizes st nodeCount
                Hst Hfan) as (st1 & -> & Hst1 & Hfan1).
    cbn [mbind option_bind].
    destruct (IH (sizes ++ [nodeCount]) st1 Hst1 Hfan1) as (st' & Heq & Hst' & Hfan').
    rewrite length_app, Nat.add_1_r in Heq. rewrite Heq.
    exists st'. split; [done|]. by rewrite <- app_assoc in Hst', Hfan'.
Qed.

End SetupFan.

(** X25. [setup] gives every node before the last layer exactly
    [min(maxConnectionsPerNode, size of the next layer)] connections, and no
    node two connections to the same target. *)
Theorem setup_fanout_exact (host : Host.t) (parseColor : string → Color.t) (st : State) :
  sortPermutes host →
  ∃ st', setup host parseColor st = Some st' ∧ fanoutExact st'.1.
Proof.
  intros Hsort.
  destruct (setup_spec host Hsort parseColor st) as (st' & Hsetup & Hcfg & _ & Hwf & _).
  exists st'. split; [done|].
  destruct st as [e p]. unfold setup in Hsetup. cbv zeta in Hsetup.
  match type of Hsetup with
  | context [forEachLayer host ?c ?h ?x ?sp ?st0 0 ?ls] =>
      destruct (forEachLayer_exactFan host Hsort c h x sp ls [] st0)
        as ([b prev] & Heq & _ & Hfan)
  end.
  { apply building_start. }
  { by intros i n ?. }
  cbn [length] in Heq. rewrite Heq in Hsetup. cbn [mbind option_bind] in Hsetup.
  injection Hsetup as <-. cbn [fst snd app] in *.
  intros s Hs. apply list_elem_of_lookup in Hs as [i Hi]. simpl in Hi.
  destruct (Hfan i s Hi) as [Hnodup Hlen]. split; [done|].
  destruct Hwf as (_ & (_ & Hcount & _) & _). simpl in Hcount.
  unfold layerSize. simpl. rewrite Hcount. exact Hlen.
Qed.

Lemma setup_fanout_exact_witness :
  sortPermutes smallHost
  ∧ ∃ st', setup smallHost parseKnown smallCreated = Some st' ∧ fanoutExact st'.1.
Proof.
  split; [apply listHost_sortPermutes|].
  exact (setup_fanout_exact smallHost parseKnown smallCreated (listHost_sortPermutes [])).
Defined.

(** ** Signals, creation and frames *)






Lemma assign_empty config : assign config Options.empty = config.
Proof. by destruct config. Qed.

(** X28. [createNeuralNetworkAnimation], for a canvas that exists, returns
    on every page and for all options: the configuration is the defaults
    with the options written over them (the defaults themselves for no
    option), the canvas has the size of the window, the network is at rest
    with its colours parsed, and the animation runs, waits for a frame and
    listens to resizes. *)
Theorem create_starts (host : Host.t) (parseColor : string → Color.t)
    (options : Options.t) (p : Page.t) :
  ∃ st, createNeuralNetworkAnimation host parseColor options p = Some st
        ∧ getCurrentConfig st = assign defaultConfig options
        ∧ (options = Options.empty → getCurrentConfig st = defaultConfig)
        ∧ Page.canvasWidth st.2 = Page.innerWidth p
        ∧ Page.canvasHeight st.2 = Page.innerHeight p
        ∧ atRest (Engine.nodes st.1)
        ∧ coloursProcessed st.1
        ∧ running st = true
        ∧ frameRequested st
        ∧ Page.resizeListener st.2 = true.
Proof.
  destruct (create_returns host parseColor options p) as [st Hst].
  exists st. split; [done|].
  destruct (create_frameRequested host parseColor options p st Hst) as [Hframe Hrun].
  destruct (create_sound host parseColor options p st Hst) as [_ Hcol].
  revert Hst. unfold createNeuralNetworkAnimation.
  match goal with
  | |- context [setup host parseColor ?s] =>
      destruct (setup_returns host parseColor s)
        as (st1 & Hs1 & Hcfg1 & Hid & _ & _ & Hrest)
  end.
  rewrite Hs1. cbn [mbind option_bind]. simpl in Hid, Hcfg1.
  pose proof (setup_page host parseColor _ _ Hs1) as (Hw1 & Hh1 & _). simpl in Hw1, Hh1.
  assert (Hrun1 : running st1 = false) by (unfold running; by rewrite Hid).
  destruct (start_stopped host parseColor st1 Hrun1)
    as (st2 & st' & Hst2 & -> & Hcfg & Hns & _ & _ & _ & Hl & Hw & Hh).
  intros [= <-].
  assert (Engine.config st2.1 = Engine.config st1.1 ∧ atRest (Engine.nodes st2.1)
          ∧ Page.canvasWidth st2.2 = Page.innerWidth p
          ∧ Page.canvasHeight st2.2 = Page.innerHeight p) as (Hc2 & Hr2 & Hw2 & Hh2).
  { destruct (Nat.eqb _ _).
    - destruct (setup_returns host parseColor st1) as (st2' & Hs2 & Hc2 & _ & _ & _ & Hr2).
      pose proof (setup_page host parseColor _ _ Hs2) as (Hw2 & Hh2 & Hiw2 & Hih2 & _).
      pose proof (setup_page host parseColor _ _ Hs1) as (_ & _ & Hiw1 & Hih1 & _).
      simpl in Hiw1, Hih1.
      rewrite Hs2 in Hst2. injection Hst2 as <-.
      split_and!; try done; congruence.
    - injection Hst2 as <-. split_and!; try done; congruence. }
  assert (Hconfig : getCurrentConfig st' = assign defaultConfig options).
  { unfold getCurrentConfig. congruence. }
  split; [done|]. split; [intros ->; by rewrite Hconfig, assign_empty|].
  split; [congruence|]. split; [congruence|]. split; [by rewrite Hns|]. done.
Qed.



